(** * YewPar: search skeletons, work-stealing policy and the maxclique generator

    A shallow embedding of the parts of the YewPar sources that the
    specification speaks about:

    - [Indexed]   : the Indexed branch-and-bound skeleton (expand,
                    getStartingNode),
    - [Outline]   : the call sequences of the two [search] drivers,
    - [Termination] : the bodies of the two subtree tasks and their promises,
    - [PriorityOrdered] : workstealing/policies/PriorityOrdered.hpp,
    - [MaxClique] : apps/bnb/maxclique/main.cpp (colour_class_order, GenNode,
                    the comparator of orderGraphFromFile) and generateChoices
                    of the sequential application,
    - [RandomSkel] : the Random skeleton (expand, createTask, the tasks of
                    one search),
    - [Semigroups] : the CountDepths enumerator of the semigroups application.

    C++ [int]/[unsigned] values are integers in [Z]; where the source relies on
    unsigned wrap-around it is written out with [mod 2^32].  Signed overflow is
    undefined behaviour in C++ and is not modelled. *)

From Stdlib Require Import ZArith List Lia Bool Permutation.
From stdpp Require Import base tactics option list numbers gmap.

Import ListNotations.

(** Closes a comparison between concrete integers by evaluation. *)
Ltac by_eval := cbv; first [reflexivity | discriminate | congruence].

(* ================================================================== *)
(** * The Indexed branch-and-bound skeleton *)
(* ================================================================== *)

Module Indexed.

Local Open Scope Z_scope.

Section Skeleton.

(** Template parameters of the skeleton.  [Bnd] is instantiated with [int] by
    the maxclique application; the skeleton compares bounds with [<=] and [>]. *)
Variables Space Sol Cand : Type.

Definition Bnd : Type := Z.

(** [hpx::util::tuple<Sol, Bnd, Cand>] *)
Definition Node : Type := (Sol * Bnd * Cand)%type.

(** [hpx::util::get<1>(c)] *)
Definition objective (c : Node) : Bnd := snd (fst c).

(** The user's generator type [Gen]: [Gen::invoke(0, space, n)] builds it,
    [numChildren] is a field, [next(space, n)] advances it and [nth(space, n, k)]
    is a random access that returns a node. *)
Variable GenT : Type.
Variable Gen_invoke : Space -> Node -> GenT.
Variable numChildren : GenT -> Z.
Variable Gen_next : GenT -> Space -> Node -> Node * GenT.
Variable Gen_nth : GenT -> Space -> Node -> Z -> Node.

(** [Bound::invoke(0, space, c)] *)
Variable Bound_invoke : Space -> Node -> Bnd.

(** The [PruneLevel] template flag. *)
Variable PruneLevel : bool.

(** The class [positionIndex] (positionIndex.hpp) is not part of the sources at
    hand; expand only uses the five methods below, taken as parameters.  The
    state type is arbitrary, so it may hold whatever the position manager does
    to the index between two calls (steals by peers included). *)
Variable positionIndex : Type.
Variable setNumChildren : Z -> positionIndex -> positionIndex.
Variable getNextPosition : positionIndex -> Z * positionIndex.
Variable pruneLevel : positionIndex -> positionIndex.
Variable preExpand : Z -> positionIndex -> positionIndex.
Variable postExpand : positionIndex -> positionIndex.

(** The registry fields [space_] and [root_] never change during a search. *)
Variable space_ : Space.
Variable root_ : Node.

(** Calls that leave the task and that the specification talks about. *)
Inductive Event : Type :=
| EvUpdateRegistryBound (b : Bnd)
| EvBroadcastBound (b : Bnd)
| EvUpdateIncumbent (c : Node)
| EvPreExpand (i : Z)
| EvDescend (c : Node) (ubound lbnd : Bnd)
| EvPostExpand
| EvPruneLevel.

(** What expand reads and writes outside its own frame: the bound of the
    registry of this locality, the bounds of the registries of the other
    localities, the global incumbent, and the calls made so far. *)
Record World : Type := mkWorld {
  localBound_ : Bnd;
  peerBounds : list Bnd;
  globalIncumbent : Node;
  trace : list Event
}.

Definition emit (e : Event) (w : World) : World :=
  mkWorld (localBound_ w) (peerBounds w) (globalIncumbent w) (trace w ++ [e]).

(** Modelled from the spec: [updateRegistryBound] (registry.hpp, not in the
    sources at hand) installs [b] only if it improves the current value. *)
Definition updateRegistryBound (b : Bnd) (w : World) : World :=
  emit (EvUpdateRegistryBound b)
    (mkWorld (if localBound_ w <? b then b else localBound_ w)
             (peerBounds w) (globalIncumbent w) (trace w)).

(** Modelled from the spec: the broadcast of [updateRegistryBound_act] runs
    the same monotone update on the registry of every locality. *)
Definition broadcastBound (b : Bnd) (w : World) : World :=
  emit (EvBroadcastBound b)
    (mkWorld (if localBound_ w <? b then b else localBound_ w)
             (map (fun x => if x <? b then b else x) (peerBounds w))
             (globalIncumbent w) (trace w)).

(** Modelled from the spec: [Incumbent::updateIncumbent] (incumbent.hpp, not in
    the sources at hand) replaces the current node only by a strictly better
    one. *)
Definition updateIncumbent (c : Node) (w : World) : World :=
  emit (EvUpdateIncumbent c)
    (mkWorld (localBound_ w) (peerBounds w)
             (if objective (globalIncumbent w) <? objective c
              then c else globalIncumbent w)
             (trace w)).

(** The inner [for] loop of expand: [k] more calls of [next], keeping the last
    child. *)
Fixpoint skipChildren (k : nat) (n : Node) (c : Node) (g : GenT) : Node * GenT :=
  match k with
  | O => (c, g)
  | S k' => let '(c', g') := Gen_next g space_ n in skipChildren k' n c' g'
  end.

(** The child that one iteration of the [while] loop looks at, with the
    generator and the counter [i] after the catch-up. *)
Definition fetchChild (n : Node) (newCands : GenT) (i nextPos : Z)
  : Node * GenT * Z :=
  let '(c, g) := Gen_next newCands space_ n in
  if negb (nextPos =? i)
  then let '(c', g') := skipChildren (Z.to_nat (nextPos - i)) n c g in
       (c', g', i + (nextPos - i))
  else (c, g, i).

(** The [if (get<1>(c) > lbnd)] block. *)
Definition improveIncumbent (c : Node) (lbnd : Bnd) (w : World) : World :=
  if lbnd <? objective c
  then updateIncumbent c (broadcastBound (objective c)
                            (updateRegistryBound (objective c) w))
  else w.

(** The [while] loop of expand, started in frame [n] with generator [newCands]
    and counter [i].  The recursive call of expand on a child is the prologue
    (generator, [setNumChildren]) followed by the loop of the child.  The
    recursion of the source is bounded by the height of the tree only; [fuel]
    bounds the number of loop iterations on a path of the call tree. *)
Fixpoint expandLoop (fuel : nat) (n : Node) (newCands : GenT) (i : Z)
  (pos : positionIndex) (w : World) {struct fuel}
  : option (positionIndex * World) :=
  match fuel with
  | O => None
  | S fuel' =>
    let '(nextPos, pos) := getNextPosition pos in
    if nextPos <? 0 then Some (pos, w)
    else
      let '(c, newCands, i) := fetchChild n newCands i nextPos in
      let lbnd := localBound_ w in
      let ubound := Bound_invoke space_ c in
      if ubound <=? lbnd then
        if PruneLevel
        then Some (pruneLevel pos, emit EvPruneLevel w)
        else expandLoop fuel' n newCands (i + 1) pos w
      else
        let w := improveIncumbent c lbnd w in
        let pos := preExpand i pos in
        let w := emit (EvDescend c ubound lbnd) (emit (EvPreExpand i) w) in
        let childCands := Gen_invoke space_ c in
        match expandLoop fuel' c childCands 0
                (setNumChildren (numChildren childCands) pos) w with
        | None => None
        | Some (pos, w) =>
          expandLoop fuel' n newCands (i + 1) (postExpand pos)
            (emit EvPostExpand w)
        end
  end.

Definition expand (fuel : nat) (pos : positionIndex) (n : Node) (w : World)
  : option (positionIndex * World) :=
  let newCands := Gen_invoke space_ n in
  expandLoop fuel n newCands 0 (setNumChildren (numChildren newCands) pos) w.

(** [getStartingNode]: the node, and the nodes a generator was built for. *)
Definition getStartingNode (path : list Z) : Node * list Node :=
  let node := root_ in
  let path := tail path in
  match path with
  | [] => (node, [])
  | _ =>
    fold_left
      (fun (acc : Node * list Node) (p : Z) =>
         let newCands := Gen_invoke space_ (fst acc) in
         (Gen_nth newCands space_ (fst acc) p, snd acc ++ [fst acc]))
      path (node, [])
  end.

(** The walk in the words of the specification: at each level build the
    generator of the current node and take its [p]-th child with [nth]. *)
Fixpoint walkPath (node : Node) (ps : list Z) : Node :=
  match ps with
  | [] => node
  | p :: ps' => walkPath (Gen_nth (Gen_invoke space_ node) space_ node p) ps'
  end.

(** The nodes a generator is built for along such a walk. *)
Fixpoint walkGenerators (node : Node) (ps : list Z) : list Node :=
  match ps with
  | [] => []
  | p :: ps' =>
    node :: walkGenerators (Gen_nth (Gen_invoke space_ node) space_ node p) ps'
  end.

(** ** Properties of expand and getStartingNode *)

Lemma getStartingNode_fold (ps : list Z) (node : Node) (gens : list Node) :
  fold_left
    (fun (acc : Node * list Node) (p : Z) =>
       let newCands := Gen_invoke space_ (fst acc) in
       (Gen_nth newCands space_ (fst acc) p, snd acc ++ [fst acc]))
    ps (node, gens)
  = (walkPath node ps, gens ++ walkGenerators node ps).
Proof.
  revert node gens.
  induction ps as [|p ps IH]; intros node gens; simpl.
  - now rewrite app_nil_r.
  - rewrite IH. now rewrite <- app_assoc.
Qed.

(** C7: for a path [0, p1, ..., pk], getStartingNode returns the node reached
    from the registry's root by building, at each level, the generator of the
    current node and taking its [pi]-th child with [nth]; the generators built
    are exactly those of the nodes on the way, and for the path [0] the root is
    returned and no generator is built. *)
Theorem getStartingNode_walks_path (ps : list Z) :
  getStartingNode (0 :: ps) = (walkPath root_ ps, walkGenerators root_ ps)
  /\ length (snd (getStartingNode (0 :: ps))) = length ps
  /\ getStartingNode [0] = (root_, []).
Proof.
  assert (E : getStartingNode (0 :: ps)
              = (walkPath root_ ps, walkGenerators root_ ps)).
  { unfold getStartingNode; simpl.
    destruct ps as [|p ps]; [reflexivity|].
    now rewrite getStartingNode_fold. }
  split; [exact E|]. split; [|reflexivity].
  rewrite E; simpl. clear E.
  generalize root_. induction ps as [|p ps IH]; intros r; simpl; auto.
Qed.

(** One unfolding of the loop at a position the index still owns. *)
Lemma expandLoop_step fuel n newCands i pos w nextPos pos1 c newCands1 i1 :
  getNextPosition pos = (nextPos, pos1) ->
  0 <= nextPos ->
  fetchChild n newCands i nextPos = (c, newCands1, i1) ->
  expandLoop (S fuel) n newCands i pos w =
    if Bound_invoke space_ c <=? localBound_ w then
      if PruneLevel
      then Some (pruneLevel pos1, emit EvPruneLevel w)
      else expandLoop fuel n newCands1 (i1 + 1) pos1 w
    else
      let childCands := Gen_invoke space_ c in
      match expandLoop fuel c childCands 0
              (setNumChildren (numChildren childCands) (preExpand i1 pos1))
              (emit (EvDescend c (Bound_invoke space_ c) (localBound_ w))
                 (emit (EvPreExpand i1)
                    (improveIncumbent c (localBound_ w) w))) with
      | None => None
      | Some (pos', w') =>
        expandLoop fuel n newCands1 (i1 + 1) (postExpand pos')
          (emit EvPostExpand w')
      end.
Proof.
  intros Hpos Hge Hfetch. simpl.
  rewrite Hpos.
  destruct (nextPos <? 0) eqn:Hneg; [apply Z.ltb_lt in Hneg; lia|].
  rewrite Hfetch. reflexivity.
Qed.

(** C3: a child whose user bound is not strictly better than the bound read
    from the registry is pruned.  With PruneLevel the loop calls [pruneLevel]
    on the position index and returns at once, so the remaining siblings of the
    frame are never looked at; without it the loop goes on with the next
    position.  In both cases the child is not handed to [preExpand] nor to the
    recursive expand, and registry and incumbent are left alone. *)
Theorem expand_prunes_child fuel n newCands i pos w nextPos pos1 c newCands1 i1 :
  getNextPosition pos = (nextPos, pos1) ->
  0 <= nextPos ->
  fetchChild n newCands i nextPos = (c, newCands1, i1) ->
  Bound_invoke space_ c <= localBound_ w ->
  expandLoop (S fuel) n newCands i pos w =
    if PruneLevel
    then Some (pruneLevel pos1, emit EvPruneLevel w)
    else expandLoop fuel n newCands1 (i1 + 1) pos1 w.
Proof.
  intros Hpos Hge Hfetch Hb.
  rewrite (expandLoop_step fuel _ _ _ _ _ _ _ _ _ _ Hpos Hge Hfetch).
  apply Z.leb_le in Hb. now rewrite Hb.
Qed.

(** Every descent recorded in the trace was made for a child whose bound was
    strictly better than the bound read at its check. *)
Definition descentOk (e : Event) : Prop :=
  match e with
  | EvDescend c ub lb => ub = Bound_invoke space_ c /\ lb < ub
  | _ => True
  end.

Lemma Forall_emit (P : Event -> Prop) e w :
  Forall P (trace w) -> P e -> Forall P (trace (emit e w)).
Proof. intros H1 H2. simpl. apply Forall_app; split; auto. Qed.

Lemma improveIncumbent_descentOk c lbnd w :
  Forall descentOk (trace w) ->
  Forall descentOk (trace (improveIncumbent c lbnd w)).
Proof.
  intros H. unfold improveIncumbent.
  destruct (lbnd <? objective c); [|exact H].
  unfold updateIncumbent, broadcastBound, updateRegistryBound, emit; simpl.
  repeat (apply Forall_app; split); try exact H;
    apply Forall_cons; simpl; auto.
Qed.

Lemma expandLoop_descends_only_unpruned fuel :
  forall n newCands i pos w pos' w',
    expandLoop fuel n newCands i pos w = Some (pos', w') ->
    Forall descentOk (trace w) -> Forall descentOk (trace w').
Proof.
  induction fuel as [|fuel IH]; intros n newCands i pos w pos' w' Hrun Hw;
    [discriminate|].
  simpl in Hrun.
  destruct (getNextPosition pos) as [nextPos pos1].
  destruct (nextPos <? 0).
  { inversion Hrun; subst; exact Hw. }
  destruct (fetchChild n newCands i nextPos) as [[c g] i1].
  destruct (Bound_invoke space_ c <=? localBound_ w) eqn:Hb.
  - destruct PruneLevel.
    + inversion Hrun; subst. apply Forall_emit; [exact Hw|exact I].
    + eapply IH; eauto.
  - apply Z.leb_gt in Hb.
    match type of Hrun with
    | match ?e with _ => _ end = _ => destruct e as [[p1 w1]|] eqn:Hchild
    end; [|discriminate].
    eapply IH in Hchild.
    + eapply IH; [exact Hrun|]. apply Forall_emit; [exact Hchild|exact I].
    + apply Forall_emit; [|split; [reflexivity|exact Hb]].
      apply Forall_emit; [|exact I].
      now apply improveIncumbent_descentOk.
Qed.



(** For a bound function that never lies below the objective, a child that
    improves on the bound read from the registry always passes the prune
    test. *)
Lemma admissible_bound_not_pruned c w :
  (forall x, objective x <= Bound_invoke space_ x) ->
  localBound_ w < objective c ->
  localBound_ w < Bound_invoke space_ c.
Proof. intros Hadm Hlt. specialize (Hadm c). lia. Qed.


(** ** The generator against the position index *)

(** The generator of frame [n] after [k] calls of [next], and the child the
    call after these returns: the child of index [k]. *)
Fixpoint nextsFrom (k : nat) (n : Node) (g : GenT) : GenT :=
  match k with
  | O => g
  | S k' => nextsFrom k' n (snd (Gen_next g space_ n))
  end.

Definition childAt (k : nat) (n : Node) (g : GenT) : Node :=
  fst (Gen_next (nextsFrom k n g) space_ n).

Lemma nextsFrom_S (k : nat) (n : Node) :
  forall g,
    nextsFrom (S k) n g = snd (Gen_next (nextsFrom k n g) space_ n).
Proof.
  induction k as [|k IH]; intros g; [reflexivity|].
  change (nextsFrom (S (S k)) n g)
    with (nextsFrom (S k) n (snd (Gen_next g space_ n))).
  now rewrite IH.
Qed.

Lemma skipChildren_spec (k : nat) (n : Node) (g0 : GenT) :
  forall m,
    skipChildren k n (childAt m n g0) (nextsFrom (S m) n g0)
    = (childAt (m + k) n g0, nextsFrom (S (m + k)) n g0).
Proof.
  induction k as [|k IH]; intros m.
  - cbn [skipChildren]. now rewrite Nat.add_0_r.
  - cbn [skipChildren].
    destruct (Gen_next (nextsFrom (S m) n g0) space_ n) as [c' g'] eqn:E.
    assert (Hc : c' = childAt (S m) n g0) by (unfold childAt; now rewrite E).
    assert (Hg : g' = nextsFrom (S (S m)) n g0)
      by (rewrite (nextsFrom_S (S m)); now rewrite E).
    rewrite Hc, Hg, IH. do 2 f_equal; lia.
Qed.

(** With [i] children handed out, a position [nextPos >= i] is served by the
    child of index [nextPos]. *)
Lemma fetchChild_ahead (n : Node) (g0 : GenT) (i nextPos : Z) :
  0 <= i <= nextPos ->
  fetchChild n (nextsFrom (Z.to_nat i) n g0) i nextPos
  = (childAt (Z.to_nat nextPos) n g0,
     nextsFrom (S (Z.to_nat nextPos)) n g0, nextPos).
Proof.
  intros Hi. unfold fetchChild.
  destruct (Gen_next (nextsFrom (Z.to_nat i) n g0) space_ n) as [c g] eqn:E.
  assert (Hc : c = childAt (Z.to_nat i) n g0) by (unfold childAt; now rewrite E).
  assert (Hg : g = nextsFrom (S (Z.to_nat i)) n g0)
    by (rewrite nextsFrom_S; now rewrite E).
  destruct (nextPos =? i) eqn:Eq; cbn [negb].
  - apply Z.eqb_eq in Eq. subst nextPos. now rewrite Hc, Hg.
  - apply Z.eqb_neq in Eq. rewrite Hc, Hg, skipChildren_spec.
    replace (Z.to_nat i + Z.to_nat (nextPos - i))%nat
      with (Z.to_nat nextPos) by lia.
    f_equal. lia.
Qed.

(** X1: expand keeps its generator in step with the position index.  When
    the generator has handed out [i] children and the index hands out a
    position [nextPos >= i], the child fetched is the child of index
    [nextPos], after [nextPos + 1] calls of [next] in all.  A position below
    [i] cannot be served: the generator only moves forward, the child fetched
    is the child of index [i], and the counter is set back to [nextPos]. *)
Theorem fetchChild_in_step (n : Node) (g0 : GenT) (i nextPos : Z) :
  0 <= i ->
  (i <= nextPos ->
   fetchChild n (nextsFrom (Z.to_nat i) n g0) i nextPos
   = (childAt (Z.to_nat nextPos) n g0,
      nextsFrom (S (Z.to_nat nextPos)) n g0, nextPos))
  /\ (nextPos < i ->
      fetchChild n (nextsFrom (Z.to_nat i) n g0) i nextPos
      = (childAt (Z.to_nat i) n g0, nextsFrom (S (Z.to_nat i)) n g0,
         nextPos)).
Proof.
  intros Hi. split; intros Hpos.
  - apply fetchChild_ahead. lia.
  - unfold fetchChild.
    destruct (Gen_next (nextsFrom (Z.to_nat i) n g0) space_ n) as [c g] eqn:E.
    assert (Hc : c = childAt (Z.to_nat i) n g0)
      by (unfold childAt; now rewrite E).
    assert (Hg : g = nextsFrom (S (Z.to_nat i)) n g0)
      by (rewrite nextsFrom_S; now rewrite E).
    destruct (nextPos =? i) eqn:Eq; [apply Z.eqb_eq in Eq; lia|]. cbn [negb].
    replace (Z.to_nat (nextPos - i)) with 0%nat by lia.
    cbn [skipChildren]. rewrite Hc, Hg. f_equal. lia.
Qed.

Lemma walkPath_app (node : Node) (l1 l2 : list Z) :
  walkPath node (l1 ++ l2) = walkPath (walkPath node l1) l2.
Proof.
  revert node. induction l1 as [|p l1 IH]; intros node; [reflexivity|].
  cbn [app walkPath]. apply IH.
Qed.

Lemma getStartingNode_walk (ps : list Z) :
  fst (getStartingNode (0 :: ps)) = walkPath root_ ps.
Proof.
  unfold getStartingNode. cbn [tail].
  destruct ps as [|p ps]; [reflexivity|].
  now rewrite getStartingNode_fold.
Qed.

(** X2: thief and owner agree on the node at a position.  If [nth(j)] of a
    new generator returns the child its [(j+1)]-th call of [next] would
    return, then the node getStartingNode computes for the path of a stolen
    position [k] below the node of the path [0 :: ps] is the child that expand
    fetches there when the position index hands it position [k]. *)
Theorem thief_starts_at_owner_child (ps : list Z) (k : Z) :
  (forall n j, 0 <= j ->
     Gen_nth (Gen_invoke space_ n) space_ n j
     = childAt (Z.to_nat j) n (Gen_invoke space_ n)) ->
  0 <= k ->
  fst (getStartingNode (0 :: ps ++ [k]))
  = fst (fst (fetchChild (fst (getStartingNode (0 :: ps)))
                (Gen_invoke space_ (fst (getStartingNode (0 :: ps)))) 0 k)).
Proof.
  intros Hnth Hk.
  rewrite !getStartingNode_walk, walkPath_app. cbn [walkPath].
  rewrite Hnth by exact Hk.
  pose proof (fetchChild_ahead (walkPath root_ ps)
                (Gen_invoke space_ (walkPath root_ ps)) 0 k ltac:(lia)) as H.
  change (nextsFrom (Z.to_nat 0) (walkPath root_ ps)
            (Gen_invoke space_ (walkPath root_ ps)))
    with (Gen_invoke space_ (walkPath root_ ps)) in H.
  now rewrite H.
Qed.

(** ** The levels of the position index *)

(** The number of open levels after the events [evs], starting from [d] open
    levels: [preExpand] opens a level and [postExpand] closes one; [None] if
    a level is closed that was not opened. *)
Fixpoint nesting (d : nat) (evs : list Event) : option nat :=
  match evs with
  | [] => Some d
  | EvPreExpand _ :: r => nesting (S d) r
  | EvPostExpand :: r =>
    match d with
    | O => None
    | S d' => nesting d' r
    end
  | _ :: r => nesting d r
  end.

Lemma nesting_app (l1 l2 : list Event) :
  forall d d',
    nesting d l1 = Some d' -> nesting d (l1 ++ l2) = nesting d' l2.
Proof.
  induction l1 as [|e l1 IH]; intros d d' H.
  - cbn in H. inversion H. reflexivity.
  - destruct e; cbn [nesting app] in *; try (now apply IH).
    destruct d as [|d0]; [discriminate|]. now apply IH.
Qed.

Lemma improveIncumbent_trace (c : Node) (lbnd : Bnd) (w : World) :
  exists evs,
    trace (improveIncumbent c lbnd w) = trace w ++ evs
    /\ forall d, nesting d evs = Some d.
Proof.
  unfold improveIncumbent. destruct (lbnd <? objective c).
  - exists [EvUpdateRegistryBound (objective c);
            EvBroadcastBound (objective c); EvUpdateIncumbent c].
    split; [|reflexivity].
    unfold updateIncumbent, broadcastBound, updateRegistryBound, emit.
    cbn [trace]. now rewrite <- !app_assoc.
  - exists []. split; [now rewrite app_nil_r|reflexivity].
Qed.

(** X3: expand leaves the position index at the level it found it: along
    the calls of a run that returns, every [preExpand] is followed by its
    [postExpand], also when PruneLevel leaves the loop of a level early. *)
Theorem expandLoop_levels_balanced (fuel : nat) :
  forall n newCands i pos w pos' w',
    expandLoop fuel n newCands i pos w = Some (pos', w') ->
    exists evs,
      trace w' = trace w ++ evs /\ forall d, nesting d evs = Some d.
Proof.
  induction fuel as [|fuel IH]; intros n newCands i pos w pos' w' Hrun;
    [discriminate|].
  cbn [expandLoop] in Hrun.
  destruct (getNextPosition pos) as [nextPos pos1].
  destruct (nextPos <? 0).
  { inversion Hrun; subst. exists []. split; [now rewrite app_nil_r|].
    reflexivity. }
  destruct (fetchChild n newCands i nextPos) as [[c g] i1].
  destruct (Bound_invoke space_ c <=? localBound_ w).
  - destruct PruneLevel.
    + inversion Hrun; subst. exists [EvPruneLevel]. split; reflexivity.
    + now apply (IH _ _ _ _ _ _ _ Hrun).
  - match type of Hrun with
    | match ?e with _ => _ end = _ => destruct e as [[p1 w1]|] eqn:Hchild
    end; [|discriminate].
    apply IH in Hchild. destruct Hchild as (evc & Htc & Hbc).
    apply IH in Hrun. destruct Hrun as (evr & Htr & Hbr).
    destruct (improveIncumbent_trace c (localBound_ w) w)
      as (evu & Htu & Hbu).
    cbn [emit trace] in Htc, Htr. rewrite Htu in Htc. rewrite Htc in Htr.
    exists (evu ++ [EvPreExpand i1;
                    EvDescend c (Bound_invoke space_ c) (localBound_ w)]
              ++ evc ++ [EvPostExpand] ++ evr).
    split; [rewrite Htr; now rewrite <- !app_assoc|].
    intros d. rewrite (nesting_app _ _ d d (Hbu d)).
    cbn [app nesting].
    rewrite (nesting_app _ _ (S d) (S d) (Hbc (S d))).
    cbn [app nesting]. apply Hbr.
Qed.

End Skeleton.

(** ** A sequential position index and a small search space

    Modelled from the spec: positionIndex.hpp is not in the sources at hand.
    This is the index of a worker nobody steals from: one level per open
    frame, holding the next child index and the number of children;
    [getNextPosition] hands out the indexes of the current level in order and
    [-1] when none is left, [pruneLevel] gives up the rest of the level,
    [preExpand]/[postExpand] open and close the level of a child. *)

Record seqPos : Type := mkSeqPos {
  sp_path : list Z;
  sp_levels : list (Z * Z)
}.

Definition seq_setNumChildren (k : Z) (p : seqPos) : seqPos :=
  mkSeqPos (sp_path p)
    (match sp_levels p with
     | [] => [(0, k)]
     | _ :: ls => (0, k) :: ls
     end).

Definition seq_getNextPosition (p : seqPos) : Z * seqPos :=
  match sp_levels p with
  | (nx, num) :: ls =>
    if nx <? num then (nx, mkSeqPos (sp_path p) ((nx + 1, num) :: ls))
    else (-1, p)
  | [] => (-1, p)
  end.

Definition seq_pruneLevel (p : seqPos) : seqPos :=
  mkSeqPos (sp_path p)
    (match sp_levels p with
     | (_, num) :: ls => (num, num) :: ls
     | [] => []
     end).

Definition seq_preExpand (i : Z) (p : seqPos) : seqPos :=
  mkSeqPos (sp_path p ++ [i]) ((0, 0) :: sp_levels p).

Definition seq_postExpand (p : seqPos) : seqPos :=
  mkSeqPos (removelast (sp_path p)) (tail (sp_levels p)).

(** A search space given as a finite tree: every node carries the value its
    bound function reports, its objective, and its children in generator
    order. *)
#[warnings="-register-all"]
Inductive toy : Type := Toy (ub obj : Z) (kids : list toy).

Definition toyNode (t : toy) : Node Z (list toy) :=
  match t with Toy ub obj ks => (ub, obj, ks) end.

Definition toy_invoke (_ : unit) (n : Node Z (list toy)) : list toy := snd n.

Definition toy_numChildren (g : list toy) : Z := Z.of_nat (length g).

Definition toy_next (g : list toy) (_ : unit) (n : Node Z (list toy))
  : Node Z (list toy) * list toy :=
  match g with
  | t :: r => (toyNode t, r)
  | [] => (n, [])
  end.

Definition toy_nth (g : list toy) (_ : unit) (n : Node Z (list toy)) (k : Z)
  : Node Z (list toy) :=
  match nth_error g (Z.to_nat k) with
  | Some t => toyNode t
  | None => n
  end.

Definition toy_bound (_ : unit) (c : Node Z (list toy)) : Z := fst (fst c).

Definition toyExpandLoop (pruneLevelFlag : bool) :=
  expandLoop unit Z (list toy) (list toy) toy_invoke toy_numChildren toy_next
    toy_bound pruneLevelFlag seqPos seq_setNumChildren seq_getNextPosition
    seq_pruneLevel seq_preExpand seq_postExpand tt.

Definition toyExpand (pruneLevelFlag : bool) :=
  expand unit Z (list toy) (list toy) toy_invoke toy_numChildren toy_next
    toy_bound pruneLevelFlag seqPos seq_setNumChildren seq_getNextPosition
    seq_pruneLevel seq_preExpand seq_postExpand tt.

Definition toyFetch :=
  fetchChild unit Z (list toy) (list toy) toy_next tt.

(** A root with three children: bounds 9, 2, 8 and objectives 4, 1, 7. *)
Definition toyKids : list toy := [Toy 9 4 []; Toy 2 1 []; Toy 8 7 []].
Definition toyRoot : Node Z (list toy) := (10, 0, toyKids).

(** A root whose only child reports a bound below its own objective. *)
Definition lowBoundKids : list toy := [Toy 0 5 []].
Definition lowBoundRoot : Node Z (list toy) := (10, 0, lowBoundKids).

Definition toyWorld (b : Z) (root : Node Z (list toy))
  : World Z (list toy) :=
  mkWorld Z (list toy) b [b; b] root [].

Definition toyPos (k : Z) : seqPos := mkSeqPos [0] [(0, k)].

Example toyExpand_all_children :
  option_map (fun pw => localBound_ Z (list toy) (snd pw))
    (toyExpand false 10 (toyPos 0) toyRoot (toyWorld 3 toyRoot)) = Some 7.
Proof. reflexivity. Qed.

Example toyExpand_prunelevel_stops :
  option_map (fun pw => localBound_ Z (list toy) (snd pw))
    (toyExpand true 10 (toyPos 0) toyRoot (toyWorld 3 toyRoot)) = Some 4.
Proof. reflexivity. Qed.

(** The second child of [toyRoot] (bound 2) met with registry bound 4, with
    PruneLevel: the loop returns after [pruneLevel]; the third child (bound 8,
    objective 7) is never looked at. *)
Lemma expand_prunes_child_witness :
  toyExpandLoop true 6 toyRoot [Toy 2 1 []; Toy 8 7 []] 1
    (mkSeqPos [0] [(1, 3)]) (toyWorld 4 toyRoot)
  = Some (seq_pruneLevel (mkSeqPos [0] [(2, 3)]),
          emit Z (list toy) (EvPruneLevel Z (list toy)) (toyWorld 4 toyRoot)).
Proof.
  exact (expand_prunes_child unit Z (list toy) (list toy) toy_invoke
           toy_numChildren toy_next toy_bound true seqPos seq_setNumChildren
           seq_getNextPosition seq_pruneLevel seq_preExpand seq_postExpand tt
           5%nat toyRoot [Toy 2 1 []; Toy 8 7 []] 1 (mkSeqPos [0] [(1, 3)])
           (toyWorld 4 toyRoot) 1 (mkSeqPos [0] [(2, 3)]) (2, 1, [])
           [Toy 8 7 []] 1
           eq_refl ltac:(by_eval) eq_refl ltac:(by_eval)).
Defined.


(** What the update block relies on: a bound function that reports less than
    the objective of a node is not an upper bound, and the prune test then
    drops the node before the update block.  The only child of
    [lowBoundRoot] has objective 5 and reported bound 0; with registry bound 3
    expand returns with the registry, the peers, the incumbent and the trace
    untouched. *)
Example lowBound_child_pruned :
  toyFetch lowBoundRoot lowBoundKids 0 0 = ((0, 5, []), [], 0)
  /\ localBound_ Z (list toy) (toyWorld 3 lowBoundRoot)
     < objective Z (list toy) (0, 5, [])
  /\ toyExpand false 10 (toyPos 0) lowBoundRoot (toyWorld 3 lowBoundRoot)
     = Some (mkSeqPos [0] [(1, 1)], toyWorld 3 lowBoundRoot)
  /\ toyExpand true 10 (toyPos 0) lowBoundRoot (toyWorld 3 lowBoundRoot)
     = Some (mkSeqPos [0] [(1, 1)],
             emit Z (list toy) (EvPruneLevel Z (list toy))
               (toyWorld 3 lowBoundRoot)).
Proof. repeat split; vm_compute; reflexivity. Qed.

(** The generator of [toyRoot] is asked for position 2 before it has handed
    out any child: two children are skipped. *)
Lemma fetchChild_in_step_witness :
  toyFetch toyRoot
    (nextsFrom unit Z (list toy) (list toy) toy_next tt (Z.to_nat 0) toyRoot
       toyKids) 0 2
  = (childAt unit Z (list toy) (list toy) toy_next tt (Z.to_nat 2) toyRoot
       toyKids,
     nextsFrom unit Z (list toy) (list toy) toy_next tt (S (Z.to_nat 2))
       toyRoot toyKids,
     2).
Proof.
  refine (proj1 (fetchChild_in_step unit Z (list toy) (list toy) toy_next tt
                   toyRoot toyKids 0 2 _) _); lia.
Defined.

Example toyFetch_skips :
  toyFetch toyRoot toyKids 0 2 = ((8, 7, []), [], 2)
  /\ toyFetch toyRoot [Toy 8 7 []] 2 0 = ((8, 7, []), [], 0).
Proof. split; reflexivity. Qed.

(** The list generator keeps the contract between [nth] and [next]. *)
Lemma toy_nth_is_next (n : Node Z (list toy)) (j : Z) :
  0 <= j ->
  toy_nth (toy_invoke tt n) tt n j
  = childAt unit Z (list toy) (list toy) toy_next tt (Z.to_nat j) n
      (toy_invoke tt n).
Proof.
  intros Hj. unfold toy_nth, childAt.
  generalize (toy_invoke tt n) as g. generalize (Z.to_nat j) as k.
  clear j Hj. induction k as [|k IH]; intros g.
  - destruct g; reflexivity.
  - destruct g as [|t g]; cbn [nth_error nextsFrom toy_next snd].
    + clear IH. induction k as [|k IHk]; [reflexivity|exact IHk].
    + apply IH.
Qed.

Lemma thief_starts_at_owner_child_witness :
  fst (getStartingNode unit Z (list toy) (list toy) toy_invoke toy_nth tt
         toyRoot (0 :: [] ++ [2]))
  = fst (fst (toyFetch
                (fst (getStartingNode unit Z (list toy) (list toy) toy_invoke
                        toy_nth tt toyRoot (0 :: [])))
                (toy_invoke tt
                   (fst (getStartingNode unit Z (list toy) (list toy)
                           toy_invoke toy_nth tt toyRoot (0 :: []))))
                0 2)).
Proof.
  refine (thief_starts_at_owner_child unit Z (list toy) (list toy) toy_invoke
            toy_next toy_nth tt toyRoot [] 2 toy_nth_is_next _).
  lia.
Defined.

Example toy_stolen_position :
  fst (getStartingNode unit Z (list toy) (list toy) toy_invoke toy_nth tt
         toyRoot [0; 2]) = (8, 7, []).
Proof. reflexivity. Qed.

(** A run over [toyRoot] with PruneLevel and registry bound 3: the first
    child is expanded, the second one prunes the level. *)
Definition toyRun : seqPos * World Z (list toy) :=
  Eval vm_compute in
    match toyExpandLoop true 10 toyRoot toyKids 0
            (seq_setNumChildren 3 (toyPos 0)) (toyWorld 3 toyRoot) with
    | Some r => r
    | None => (toyPos 0, toyWorld 3 toyRoot)
    end.

Lemma expandLoop_levels_balanced_witness :
  exists evs,
    trace Z (list toy) (snd toyRun)
    = trace Z (list toy) (toyWorld 3 toyRoot) ++ evs
    /\ forall d, nesting Z (list toy) d evs = Some d.
Proof.
  apply (expandLoop_levels_balanced unit Z (list toy) (list toy) toy_invoke
           toy_numChildren toy_next toy_bound true seqPos seq_setNumChildren
           seq_getNextPosition seq_pruneLevel seq_preExpand seq_postExpand tt
           10 toyRoot toyKids 0 (seq_setNumChildren 3 (toyPos 0))
           (toyWorld 3 toyRoot) (fst toyRun) (snd toyRun)).
  vm_compute. reflexivity.
Defined.

Example toyRun_trace :
  trace Z (list toy) (snd toyRun)
  = [EvUpdateRegistryBound Z (list toy) 4; EvBroadcastBound Z (list toy) 4;
     EvUpdateIncumbent Z (list toy) (9, 4, []); EvPreExpand Z (list toy) 0;
     EvDescend Z (list toy) (9, 4, []) 9 3; EvPostExpand Z (list toy);
     EvPruneLevel Z (list toy)].
Proof. reflexivity. Qed.

End Indexed.

(* ================================================================== *)
(** * The call sequence of the search drivers *)
(* ================================================================== *)

Module Outline.

(** The calls of [search] that reach the runtime, the registry, the incumbent,
    the policy or the schedulers. *)
Inductive Call : Type :=
| PrintSkeletonDetails
| BroadcastInitRegistry
| NewIncumbent
| BroadcastIncumbentHandle
| InitIncumbent
| InitPolicy
| StartSchedulers
| SubmitRootTask
| AwaitRootPromise
| BroadcastStopSchedulers
| CombineEnumerators
| GetIncumbent.

Global Instance Call_eq_dec : EqDecision Call.
Proof. solve_decision. Defined.

Definition when (b : bool) (p : list Call) : list Call := if b then p else [].

(** [Random::search].  The four flags are the template constants [verbose],
    [isEnumeration], [isOptimisation] and [isDecision]; with none of the three
    modes the [static_assert] rejects the instantiation. *)
Definition Random_search (verbose isEnumeration isOptimisation isDecision : bool)
  : option (list Call) :=
  let body :=
    when verbose [PrintSkeletonDetails]
    ++ [BroadcastInitRegistry]
    ++ [InitPolicy]
    ++ [StartSchedulers]
    ++ when (isOptimisation || isDecision)
         [NewIncumbent; BroadcastIncumbentHandle; InitIncumbent]
    ++ [SubmitRootTask; AwaitRootPromise]
    ++ [BroadcastStopSchedulers] in
  if isEnumeration then Some (body ++ [CombineEnumerators])
  else if isOptimisation || isDecision then Some (body ++ [GetIncumbent])
  else None.

(** [BnB::Indexed::search]: the incumbent is created first because its handle
    travels with the registry broadcast; the position managers are the policy
    of this skeleton. *)
Definition Indexed_search : list Call :=
  [NewIncumbent]
  ++ [BroadcastInitRegistry]
  ++ [InitIncumbent]
  ++ [InitPolicy]
  ++ [StartSchedulers]
  ++ [SubmitRootTask]
  ++ [AwaitRootPromise]
  ++ [BroadcastStopSchedulers]
  ++ [GetIncumbent].

(** [inOrder l t]: the calls of [l] occur in [t], in the order of [l]. *)
Fixpoint inOrder (l t : list Call) : bool :=
  match l, t with
  | [], _ => true
  | _ :: _, [] => false
  | x :: l', y :: t' =>
    if bool_decide (x = y) then inOrder l' t' else inOrder l t'
  end.

(** The order the specification gives for optimisation and decision. *)
Definition specOrder : list Call :=
  [BroadcastInitRegistry; NewIncumbent; InitIncumbent; InitPolicy;
   StartSchedulers; SubmitRootTask; AwaitRootPromise;
   BroadcastStopSchedulers; GetIncumbent].

(** The part of that order both drivers keep. *)
Definition commonOrder (read : Call) : list Call :=
  [BroadcastInitRegistry; InitPolicy; StartSchedulers; SubmitRootTask;
   AwaitRootPromise; BroadcastStopSchedulers; read].

Definition incumbentOrder : list Call :=
  [NewIncumbent; InitIncumbent; SubmitRootTask].

Lemma inOrder_sublist (l t : list Call) : inOrder l t = true <-> sublist l t.
Proof.
  revert l. induction t as [|y t IH]; intros l.
  - destruct l; simpl; split; intros H; try constructor; try discriminate.
    inversion H.
  - destruct l as [|x l]; simpl.
    + split; intros _; [apply sublist_nil_l|reflexivity].
    + destruct (bool_decide (x = y)) eqn:E.
      * apply bool_decide_eq_true in E. subst y. rewrite IH.
        split; intros H; [now constructor|].
        now apply (sublist_app_inv_l [x]).
      * apply bool_decide_eq_false in E. rewrite IH.
        split; intros H; [now constructor|].
        inversion H; subst; [congruence|assumption].
Qed.

(** C2 as it is written fails for both drivers: in optimisation mode
    [Random::search] creates the incumbent after the policy and the schedulers
    are up, and [Indexed::search] creates it before the registry broadcast. *)
Lemma search_not_in_spec_order :
  option_map (inOrder specOrder) (Random_search false false true false)
  = Some false
  /\ option_map (inOrder specOrder) (Random_search false false false true)
     = Some false
  /\ inOrder specOrder Indexed_search = false
  /\ option_map (inOrder [StartSchedulers; NewIncumbent])
       (Random_search false false true false) = Some true
  /\ inOrder [NewIncumbent; BroadcastInitRegistry] Indexed_search = true.
Proof. repeat split; reflexivity. Qed.

(** C2 (as the code has it): every search broadcasts the registry
    initialisation, initialises the policy, starts the schedulers, submits the
    root task and waits for its promise, broadcasts the scheduler shutdown, and
    reads the result last, in this order.  When there is an incumbent it is
    created and initialised before the root task is submitted: by the Random
    driver after the schedulers were started, by the Indexed driver around the
    registry broadcast. *)
Theorem search_call_order (verbose isEnumeration isOptimisation isDecision : bool) :
  match Random_search verbose isEnumeration isOptimisation isDecision with
  | None => isEnumeration || isOptimisation || isDecision = false
  | Some t =>
    let read := if isEnumeration then CombineEnumerators else GetIncumbent in
    inOrder (commonOrder read) t = true
    /\ last t = Some read
    /\ (isOptimisation || isDecision = true ->
        inOrder ([StartSchedulers; NewIncumbent; BroadcastIncumbentHandle;
                  InitIncumbent; SubmitRootTask]) t = true)
    /\ (isOptimisation || isDecision = false ->
        inOrder [NewIncumbent] t = false /\ inOrder [InitIncumbent] t = false)
  end
  /\ inOrder (commonOrder GetIncumbent) Indexed_search = true
  /\ last Indexed_search = Some GetIncumbent
  /\ inOrder [NewIncumbent; BroadcastInitRegistry; InitIncumbent; InitPolicy;
              StartSchedulers; SubmitRootTask] Indexed_search = true.
Proof.
  split; [|repeat split; reflexivity].
  destruct verbose, isEnumeration, isOptimisation, isDecision; simpl;
    repeat split; intros; try reflexivity; discriminate.
Qed.

End Outline.

(* ================================================================== *)
(** * Subtree tasks and their completion promise *)
(* ================================================================== *)

Module Termination.

(** The statements of a task body, as far as its promise and the futures of
    its children go. *)
Inductive Instr : Type :=
| IGetStartingNode
| IExpand
| IUpdateEnumerator
| IWaitAll
| ISetPromise
| IPosMgrDone
| ISemSignal.

(** [Random::subtreeTask]: expand fills [childFutures]; the continuation given
    to [hpx::apply] waits for all of them and then sets the promise. *)
Definition subtreeTask (isEnumeration : bool) : list Instr :=
  [IExpand]
  ++ (if isEnumeration then [IUpdateEnumerator] else [])
  ++ [IWaitAll; ISetPromise].

(** [Indexed::searchChildTask]: the promise [p] is set right after expand;
    the futures held by the position index are awaited in the last statement. *)
Definition searchChildTask : list Instr :=
  [IGetStartingNode; IExpand; ISetPromise; IPosMgrDone; ISemSignal; IWaitAll].

(** A running task: the statements left, the futures of the children it has
    spawned (or that were stolen from it) so far, and whether its promise is
    set.  [resolved] are the futures of children that have completed. *)
Record Sys : Type := mkSys {
  code : list Instr;
  childFutures : list nat;
  promiseSet : bool;
  resolved : list nat
}.

Definition isResolved (s : Sys) (f : nat) : bool :=
  existsb (Nat.eqb f) (resolved s).

Definition allResolved (s : Sys) : bool :=
  forallb (isResolved s) (childFutures s).

(** What the scheduler may do next: run the next statement of the task (an
    expand hands over the futures of the children it gave away), or complete
    one child somewhere else. *)
Inductive Action : Type :=
| ActRun (spawned : list nat)
| ActResolve (f : nat).

(** One action; [None] when the task cannot move (its body is finished, or it
    waits for a future that is not resolved yet). *)
Definition exec (a : Action) (s : Sys) : option Sys :=
  match a with
  | ActResolve f =>
    Some (mkSys (code s) (childFutures s) (promiseSet s) (f :: resolved s))
  | ActRun spawned =>
    match code s with
    | [] => None
    | IExpand :: rest =>
      Some (mkSys rest (childFutures s ++ spawned) (promiseSet s) (resolved s))
    | IWaitAll :: rest =>
      if allResolved s
      then Some (mkSys rest (childFutures s) (promiseSet s) (resolved s))
      else None
    | ISetPromise :: rest =>
      Some (mkSys rest (childFutures s) true (resolved s))
    | _ :: rest =>
      Some (mkSys rest (childFutures s) (promiseSet s) (resolved s))
    end
  end.

Fixpoint execs (sched : list Action) (s : Sys) : option Sys :=
  match sched with
  | [] => Some s
  | a :: sched' =>
    match exec a s with
    | Some s' => execs sched' s'
    | None => None
    end
  end.

Definition start (body : list Instr) : Sys := mkSys body [] false [].

(** The property of the specification: the promise is set only when every
    child future is resolved. *)
Definition promiseAfterChildren (s : Sys) : bool :=
  if promiseSet s then allResolved s else true.

(** Where a run of [Random::subtreeTask] can be: before its wait, with the
    promise unset, or past it, with every child future resolved. *)
Inductive phase (isEnumeration : bool) (s : Sys) : Prop :=
| phase_before :
    promiseSet s = false ->
    (code s = subtreeTask isEnumeration
     \/ code s = [IUpdateEnumerator; IWaitAll; ISetPromise]
     \/ code s = [IWaitAll; ISetPromise]) ->
    phase isEnumeration s
| phase_after :
    allResolved s = true ->
    (code s = [ISetPromise] \/ code s = []) ->
    phase isEnumeration s.

Lemma allResolved_mono s f c p :
  allResolved s = true ->
  allResolved (mkSys c (childFutures s) p (f :: resolved s)) = true.
Proof.
  unfold allResolved. simpl. rewrite !forallb_forall.
  intros H x Hx. specialize (H x Hx).
  unfold isResolved in *; simpl. rewrite H. apply orb_true_r.
Qed.

Lemma exec_phase e a s s' :
  phase e s -> exec a s = Some s' -> phase e s'.
Proof.
  intros Hph Hex. destruct a as [spawned|f]; simpl in Hex.
  - destruct Hph as [Hp Hc|Hr Hc].
    + destruct Hc as [Hc|[Hc|Hc]]; rewrite Hc in Hex.
      * destruct e; simpl in Hex; inversion Hex; subst;
          apply phase_before; simpl; auto.
      * inversion Hex; subst. apply phase_before; simpl; auto.
      * destruct (allResolved s) eqn:Hall; [|discriminate].
        inversion Hex; subst. apply phase_after; simpl; auto.
    + destruct Hc as [Hc|Hc]; rewrite Hc in Hex; [|discriminate].
      inversion Hex; subst. apply phase_after; simpl; auto.
  - inversion Hex; subst.
    destruct Hph as [Hp Hc|Hr Hc].
    + apply phase_before; simpl; auto.
    + apply phase_after; simpl; auto. now apply allResolved_mono.
Qed.

Lemma phase_promiseAfterChildren e s :
  phase e s -> promiseAfterChildren s = true.
Proof.
  intros [Hp _|Hr _]; unfold promiseAfterChildren.
  - now rewrite Hp.
  - rewrite Hr. now destruct (promiseSet s).
Qed.

Lemma execs_phase e sched :
  forall s s', phase e s -> execs sched s = Some s' -> phase e s'.
Proof.
  induction sched as [|a sched IH]; intros s s' Hph Hex; simpl in Hex.
  - inversion Hex; subst; exact Hph.
  - destruct (exec a s) as [s1|] eqn:E; [|discriminate].
    eapply IH; [|exact Hex]. eapply exec_phase; eauto.
Qed.

(** A run of the Random task with two children: both must complete before the
    wait lets the task go on to set its promise. *)
Example subtreeTask_run :
  option_map promiseSet
    (execs [ActRun [1; 2]%nat; ActResolve 2; ActResolve 1; ActRun []; ActRun []]
       (start (subtreeTask false))) = Some true
  /\ execs [ActRun [1; 2]%nat; ActResolve 2; ActRun []]
       (start (subtreeTask false)) = None.
Proof. split; reflexivity. Qed.

(** C1: in every state a run of [Random::subtreeTask] can reach, the promise
    is set only if all futures of the children the task spawned are resolved.
    [Indexed::searchChildTask] does not have the property: with one child
    stolen during expand, three statements later the promise is set and the
    future of the child is unresolved. *)
Theorem promise_after_children :
  (forall (isEnumeration : bool) (sched : list Action) (s : Sys),
      execs sched (start (subtreeTask isEnumeration)) = Some s ->
      promiseAfterChildren s = true)
  /\ execs [ActRun []; ActRun [7%nat]; ActRun []] (start searchChildTask)
     = Some (mkSys [IPosMgrDone; ISemSignal; IWaitAll] [7%nat] true [])
  /\ promiseAfterChildren (mkSys [IPosMgrDone; ISemSignal; IWaitAll] [7%nat] true [])
     = false.
Proof.
  split; [|split; reflexivity].
  intros e sched s Hex.
  apply (phase_promiseAfterChildren e).
  eapply execs_phase; [|exact Hex].
  apply phase_before; simpl; auto.
Qed.

(** ** The end of a task body *)

Definition isExpand (i : Instr) : bool :=
  match i with IExpand => true | _ => false end.

(** No expand follows a wait in the body [l]: once the task has waited for
    its children it gets no new ones. *)
Fixpoint waitsLast (l : list Instr) : bool :=
  match l with
  | [] => true
  | IWaitAll :: r => forallb (fun i => negb (isExpand i)) r && waitsLast r
  | _ :: r => waitsLast r
  end.

Lemma waitsLast_split (body : list Instr) :
  waitsLast body = true ->
  forall pre post, body = pre ++ post -> In IWaitAll pre -> ~ In IExpand post.
Proof.
  intros Hw pre. revert body Hw.
  induction pre as [|i pre IH]; intros body Hw post -> Hin; [destruct Hin|].
  destruct Hin as [->|Hin].
  - cbn [app waitsLast] in Hw. apply andb_true_iff in Hw. destruct Hw as [Hf _].
    rewrite forallb_forall in Hf. intros Hexp.
    specialize (Hf IExpand (in_or_app _ _ _ (or_intror Hexp))). discriminate.
  - apply (IH (pre ++ post)); [|reflexivity|exact Hin].
    cbn [app waitsLast] in Hw.
    destruct i; try exact Hw. apply andb_true_iff in Hw. tauto.
Qed.

(** What a run of a task with body [body] keeps: the statements left are a
    suffix of the body; the promise is set once [ISetPromise] is behind, and
    all children are resolved once the wait is behind. *)
Definition progress (body : list Instr) (s : Sys) : Prop :=
  exists pre,
    body = pre ++ code s
    /\ (In ISetPromise pre -> promiseSet s = true)
    /\ (In IWaitAll pre -> allResolved s = true).

Local Ltac same_state i :=
  match goal with
  | Hex : Some _ = Some ?s', Hb : _ = (?pre ++ [i]) ++ _,
    Hprom : In ISetPromise ?pre -> _, Hwait : In IWaitAll ?pre -> _,
    Hsplit : forall x, In x (?pre ++ [i]) -> _ |- _ =>
    inversion Hex; subst s'; clear Hex;
    exists (pre ++ [i]); cbn [code promiseSet];
    split; [exact Hb|]; split;
    [intros Hin; apply Hprom, (Hsplit _ Hin); discriminate
    |intros Hin; apply Hwait, (Hsplit _ Hin); discriminate]
  end.

Lemma exec_progress (body : list Instr) (a : Action) (s s' : Sys) :
  waitsLast body = true ->
  progress body s -> exec a s = Some s' -> progress body s'.
Proof.
  intros Hw (pre & Hbody & Hprom & Hwait) Hex.
  destruct a as [spawned|f]; cbn [exec] in Hex.
  - destruct (code s) as [|i rest] eqn:Hc; [discriminate|].
    assert (Hbody' : body = (pre ++ [i]) ++ rest)
      by (now rewrite <- app_assoc).
    assert (Hsplit : forall x, In x (pre ++ [i]) -> x <> i -> In x pre).
    { intros x Hx Hne. apply in_app_or in Hx.
      destruct Hx as [Hx|[Hx|[]]]; [exact Hx|congruence]. }
    destruct i;
      [same_state IGetStartingNode| |same_state IUpdateEnumerator| |
       |same_state IPosMgrDone|same_state ISemSignal].
    + inversion Hex; subst s'; clear Hex.
      exists (pre ++ [IExpand]). cbn [code promiseSet].
      split; [exact Hbody'|]. split.
      * intros Hin. apply Hprom, (Hsplit _ Hin). discriminate.
      * intros Hin. exfalso.
        apply (waitsLast_split body Hw pre (IExpand :: rest) Hbody
                 (Hsplit _ Hin ltac:(discriminate))).
        now left.
    + destruct (allResolved s) eqn:Hall; [|discriminate].
      inversion Hex; subst s'; clear Hex.
      exists (pre ++ [IWaitAll]). cbn [code promiseSet].
      split; [exact Hbody'|]. split.
      * intros Hin. apply Hprom, (Hsplit _ Hin). discriminate.
      * intros _. exact Hall.
    + inversion Hex; subst s'; clear Hex.
      exists (pre ++ [ISetPromise]). cbn [code promiseSet].
      split; [exact Hbody'|]. split; [reflexivity|].
      intros Hin. apply Hwait, (Hsplit _ Hin). discriminate.
  - inversion Hex; subst s'; clear Hex.
    exists pre. cbn [code promiseSet]. split; [exact Hbody|].
    split; [exact Hprom|].
    intros Hin. apply allResolved_mono. now apply Hwait.
Qed.

Lemma execs_progress (body : list Instr) (sched : list Action) :
  waitsLast body = true ->
  forall s s', progress body s -> execs sched s = Some s' -> progress body s'.
Proof.
  intros Hw. induction sched as [|a sched IH]; intros s s' Hp Hex;
    cbn [execs] in Hex.
  - now inversion Hex; subst.
  - destruct (exec a s) as [s1|] eqn:E; [|discriminate].
    eapply IH; [|exact Hex]. eapply exec_progress; eauto.
Qed.

Lemma progress_end (body : list Instr) (sched : list Action) (s : Sys) :
  waitsLast body = true -> In ISetPromise body -> In IWaitAll body ->
  execs sched (start body) = Some s -> code s = [] ->
  promiseSet s = true /\ allResolved s = true.
Proof.
  intros Hw Hp Hwt Hex Hend.
  destruct (execs_progress body sched Hw (start body) s) as (pre & Hb & H1 & H2).
  - exists []. split; [reflexivity|]. split; intros [].
  - exact Hex.
  - rewrite Hend, app_nil_r in Hb. subst pre. split; auto.
Qed.

(** X4: a subtree task of either skeleton has run all its statements only
    when its promise is set and every future of a child it gave away is
    resolved, in every order in which its statements and the completions of
    its children are scheduled.  For [Random::subtreeTask] the statements are
    those of the function and of the continuation it hands to [hpx::apply].
    For [Indexed::searchChildTask] the wait is the last statement: the promise
    is set before it, and the worker holds the task until the children are
    finished. *)
Theorem task_ends_after_children (sched : list Action) (s : Sys) :
  (execs sched (start searchChildTask) = Some s -> code s = [] ->
   promiseSet s = true /\ allResolved s = true)
  /\ (forall isEnumeration : bool,
        execs sched (start (subtreeTask isEnumeration)) = Some s ->
        code s = [] ->
        promiseSet s = true /\ allResolved s = true).
Proof.
  split.
  - apply progress_end; [reflexivity| |]; cbn; tauto.
  - intros e. apply progress_end; destruct e; cbn; tauto || reflexivity.
Qed.

Lemma task_ends_after_children_witness :
  promiseSet (mkSys [] [7%nat] true [7%nat]) = true
  /\ allResolved (mkSys [] [7%nat] true [7%nat]) = true.
Proof.
  apply (proj1 (task_ends_after_children
                  [ActRun []; ActRun [7%nat]; ActRun []; ActRun []; ActRun [];
                   ActResolve 7; ActRun []]
                  (mkSys [] [7%nat] true [7%nat])));
    reflexivity.
Defined.

(** The last statement of [Indexed::searchChildTask] cannot run while the
    stolen child is unfinished. *)
Example searchChildTask_waits :
  execs [ActRun []; ActRun [7%nat]; ActRun []; ActRun []; ActRun []; ActRun []]
    (start searchChildTask) = None.
Proof. reflexivity. Qed.

End Termination.

(* ================================================================== *)
(** * The priority-ordered work-stealing policy *)
(* ================================================================== *)

Module PriorityOrdered.

Section Policy.

(** [hpx::util::function<void(hpx::naming::id_type)>] holding a task. *)
Variable TaskFn : Type.

(** The component [workstealing::priorityworkqueue] (priorityworkqueue.hpp) is
    not part of the sources at hand; the policy only forwards to its three
    actions, taken as parameters.  [steal] answers with a function object that
    may be empty. *)
Variable Workqueue : Type.
Variable wq_new : Workqueue.
Variable wq_steal : Workqueue -> option TaskFn * Workqueue.
Variable wq_addWork : Z -> TaskFn -> Workqueue -> Workqueue.
Variable wq_workRemaining : Workqueue -> bool.

(** The policy object: its only data member besides the mutex. *)
Record PriorityOrderedPolicy : Type := mkPolicy { globalWorkqueue : nat }.

(** The cluster: the workqueue components by global id, and
    [Workstealing::Scheduler::local_policy] of every locality. *)
Record Cluster : Type := mkCluster {
  components : gmap nat Workqueue;
  local_policy : gmap nat PriorityOrderedPolicy
}.

(** [hpx::async<priorityworkqueue::steal_action>(gid).get()] *)
Definition steal_action (gid : nat) (w : Cluster) : option TaskFn * Cluster :=
  match components w !! gid with
  | Some q =>
    let '(t, q') := wq_steal q in
    (t, mkCluster (<[gid := q']> (components w)) (local_policy w))
  | None => (None, w)
  end.

(** [hpx::async<priorityworkqueue::addWork_action>(gid, priority, task).get()] *)
Definition addWork_action (gid : nat) (priority : Z) (task : TaskFn)
  (w : Cluster) : Cluster :=
  mkCluster (alter (wq_addWork priority task) gid (components w))
            (local_policy w).

(** [getWork] on locality [here]: a task bound to [here], or the null
    function. *)
Definition getWork (self : PriorityOrderedPolicy) (here : nat) (w : Cluster)
  : option (TaskFn * nat) * Cluster :=
  let '(task, w') := steal_action (globalWorkqueue self) w in
  match task with
  | Some t => (Some (t, here), w')
  | None => (None, w')
  end.

Definition addwork (self : PriorityOrderedPolicy) (priority : Z)
  (task : TaskFn) (w : Cluster) : Cluster :=
  addWork_action (globalWorkqueue self) priority task w.

Definition workRemaining (self : PriorityOrderedPolicy) (w : Cluster) : bool :=
  match components w !! globalWorkqueue self with
  | Some q => wq_workRemaining q
  | None => false
  end.

(** [setPriorityWorkqueuePolicy] run on locality [l]. *)
Definition setPriorityWorkqueuePolicy (gid : nat) (l : nat) (w : Cluster)
  : Cluster :=
  mkCluster (components w) (<[l := mkPolicy gid]> (local_policy w)).

(** [initPolicy]: one new workqueue, then the broadcast of its id to all
    localities. *)
Definition initPolicy (localities : list nat) (w : Cluster) : Cluster :=
  let gid := fresh (dom (components w)) in
  let w1 := mkCluster (<[gid := wq_new]> (components w)) (local_policy w) in
  foldr (setPriorityWorkqueuePolicy gid) w1 localities.

Lemma broadcast_components gid localities w :
  components (foldr (setPriorityWorkqueuePolicy gid) w localities)
  = components w.
Proof. induction localities as [|l ls IH]; simpl; auto. Qed.

Lemma broadcast_policy gid localities w l :
  l ∈ localities ->
  local_policy (foldr (setPriorityWorkqueuePolicy gid) w localities) !! l
  = Some (mkPolicy gid).
Proof.
  induction localities as [|x ls IH]; intros Hin.
  - inversion Hin.
  - simpl. destruct (decide (x = l)) as [->|Hne].
    + apply lookup_insert_eq.
    + rewrite lookup_insert_ne by exact Hne.
      apply IH. inversion Hin; subst; [congruence|assumption].
Qed.

Lemma broadcast_policy_other gid localities w l :
  l ∉ localities ->
  local_policy (foldr (setPriorityWorkqueuePolicy gid) w localities) !! l
  = local_policy w !! l.
Proof.
  induction localities as [|x ls IH]; intros Hin; simpl; [reflexivity|].
  rewrite lookup_insert_ne.
  - apply IH. intros H. apply Hin. now right.
  - intros ->. apply Hin. now left.
Qed.

(** C9: [getWork] returns the null function exactly when the steal on the
    global workqueue yields no task, and otherwise that task bound to the
    calling locality; its effect on the cluster is that of the steal.
    [initPolicy] creates one workqueue under a fresh id and installs that one
    id in the policy of every locality, so that work added through the policy
    of any locality lands in the queue every [getWork] steals from. *)
Theorem getWork_initPolicy :
  (forall (self : PriorityOrderedPolicy) (here : nat) (w : Cluster),
      (fst (getWork self here w) = None
       <-> fst (steal_action (globalWorkqueue self) w) = None)
      /\ (forall t, fst (steal_action (globalWorkqueue self) w) = Some t ->
                    fst (getWork self here w) = Some (t, here))
      /\ snd (getWork self here w)
         = snd (steal_action (globalWorkqueue self) w))
  /\ (forall (localities : list nat) (w : Cluster),
         let gid := fresh (dom (components w)) in
         components w !! gid = None
         /\ components (initPolicy localities w)
            = <[gid := wq_new]> (components w)
         /\ (forall l, l ∈ localities ->
               local_policy (initPolicy localities w) !! l
               = Some (mkPolicy gid))
         /\ (forall l1 l2 p1 p2 priority task,
               local_policy (initPolicy localities w) !! l1 = Some p1 ->
               local_policy (initPolicy localities w) !! l2 = Some p2 ->
               l1 ∈ localities -> l2 ∈ localities ->
               fst (getWork p2 l2
                      (addwork p1 priority task (initPolicy localities w)))
               = option_map (fun t => (t, l2))
                   (fst (wq_steal (wq_addWork priority task wq_new))))).
Proof.
  split.
  - intros self here w. unfold getWork.
    destruct (steal_action (globalWorkqueue self) w) as [[t|] w'] eqn:E;
      simpl; repeat split; try reflexivity; try discriminate.
    intros t' Ht'. now inversion Ht'.
  - intros localities w gid.
    assert (Hfresh : components w !! gid = None).
    { apply not_elem_of_dom. apply is_fresh. }
    assert (Hcomp : components (initPolicy localities w)
                    = <[gid := wq_new]> (components w)).
    { unfold initPolicy. now rewrite broadcast_components. }
    assert (Hpol : forall l, l ∈ localities ->
               local_policy (initPolicy localities w) !! l
               = Some (mkPolicy gid)).
    { intros l Hl. unfold initPolicy. now apply broadcast_policy. }
    repeat split; auto.
    intros l1 l2 p1 p2 priority task H1 H2 Hl1 Hl2.
    rewrite (Hpol l1 Hl1) in H1. rewrite (Hpol l2 Hl2) in H2.
    inversion H1; inversion H2; subst p1 p2.
    unfold getWork, addwork, addWork_action, steal_action; simpl.
    rewrite Hcomp. rewrite lookup_alter_eq, lookup_insert_eq. simpl.
    destruct (wq_steal (wq_addWork priority task wq_new)) as [[t|] q'];
      reflexivity.
Qed.

(** ** Many calls through the policies of many localities *)

(** A call of a method of the policy installed on locality [l]. *)
Inductive Request : Type :=
| ReqAddwork (l : nat) (priority : Z) (task : TaskFn)
| ReqGetWork (l : nat)
| ReqWorkRemaining (l : nat).

Inductive Reply : Type :=
| RepAdded
| RepWork (t : option (TaskFn * nat))
| RepRemaining (b : bool).

Definition locality (r : Request) : nat :=
  match r with
  | ReqAddwork l _ _ => l
  | ReqGetWork l => l
  | ReqWorkRemaining l => l
  end.

(** One request served through [Workstealing::Scheduler::local_policy] of
    its locality; [None] when no policy was installed there. *)
Definition serve (r : Request) (w : Cluster) : option (Reply * Cluster) :=
  match local_policy w !! locality r with
  | None => None
  | Some self =>
    match r with
    | ReqAddwork _ priority task =>
      Some (RepAdded, addwork self priority task w)
    | ReqGetWork l =>
      let '(t, w') := getWork self l w in Some (RepWork t, w')
    | ReqWorkRemaining _ => Some (RepRemaining (workRemaining self w), w)
    end
  end.

Fixpoint serveAll (rs : list Request) (w : Cluster)
  : option (list Reply * Cluster) :=
  match rs with
  | [] => Some ([], w)
  | r :: rs' =>
    match serve r w with
    | None => None
    | Some (a, w1) =>
      match serveAll rs' w1 with
      | None => None
      | Some (answers, w2) => Some (a :: answers, w2)
      end
    end
  end.

(** The same requests served by one workqueue. *)
Definition serveQueue (r : Request) (q : Workqueue) : Reply * Workqueue :=
  match r with
  | ReqAddwork _ priority task => (RepAdded, wq_addWork priority task q)
  | ReqGetWork l =>
    let '(t, q') := wq_steal q in
    (RepWork (option_map (fun t => (t, l)) t), q')
  | ReqWorkRemaining _ => (RepRemaining (wq_workRemaining q), q)
  end.

Fixpoint serveQueueAll (rs : list Request) (q : Workqueue)
  : list Reply * Workqueue :=
  match rs with
  | [] => ([], q)
  | r :: rs' =>
    let '(a, q1) := serveQueue r q in
    let '(answers, q2) := serveQueueAll rs' q1 in
    (a :: answers, q2)
  end.

Lemma serve_shared (localities : list nat) (gid : nat) (q : Workqueue)
  (r : Request) (w : Cluster) :
  components w !! gid = Some q ->
  (forall l, l ∈ localities -> local_policy w !! l = Some (mkPolicy gid)) ->
  locality r ∈ localities ->
  exists w',
    serve r w = Some (fst (serveQueue r q), w')
    /\ components w' = <[gid := snd (serveQueue r q)]> (components w)
    /\ local_policy w' = local_policy w.
Proof.
  intros Hq Hpol Hl. unfold serve. rewrite (Hpol _ Hl).
  destruct r as [l priority task|l|l]; cbn [serveQueue locality].
  - eexists. split; [reflexivity|]. cbn [fst snd].
    unfold addwork, addWork_action; cbn [components local_policy globalWorkqueue].
    split; [|reflexivity].
    apply map_eq. intros i. destruct (decide (gid = i)) as [<-|Hne].
    + now rewrite lookup_alter_eq, lookup_insert_eq, Hq.
    + now rewrite lookup_alter_ne, lookup_insert_ne.
  - unfold getWork, steal_action; cbn [globalWorkqueue]. rewrite Hq.
    destruct (wq_steal q) as [[t|] q']; cbn [fst snd option_map];
      eexists; (split; [reflexivity|split; reflexivity]).
  - eexists. split; [|split; [|reflexivity]].
    + unfold workRemaining; cbn [globalWorkqueue]. now rewrite Hq.
    + cbn [snd]. symmetry. now apply insert_id.
Qed.

Lemma serveAll_shared (localities : list nat) (gid : nat) (rs : list Request) :
  forall (q : Workqueue) (w : Cluster),
    components w !! gid = Some q ->
    (forall l, l ∈ localities -> local_policy w !! l = Some (mkPolicy gid)) ->
    Forall (fun r => locality r ∈ localities) rs ->
    exists w',
      serveAll rs w = Some (fst (serveQueueAll rs q), w')
      /\ components w' = <[gid := snd (serveQueueAll rs q)]> (components w)
      /\ local_policy w' = local_policy w.
Proof.
  induction rs as [|r rs IH]; intros q w Hq Hpol Hall.
  - exists w. split; [reflexivity|]. cbn [serveQueueAll snd].
    split; [symmetry; now apply insert_id|reflexivity].
  - inversion Hall as [|r' rs' Hr Hrs]; subst.
    destruct (serve_shared localities gid q r w Hq Hpol Hr)
      as (w1 & Hs & Hc1 & Hp1).
    destruct (IH (snd (serveQueue r q)) w1) as (w2 & Hs2 & Hc2 & Hp2).
    { rewrite Hc1. apply lookup_insert_eq. }
    { intros l Hl. rewrite Hp1. now apply Hpol. }
    { exact Hrs. }
    exists w2. cbn [serveAll serveQueueAll]. rewrite Hs.
    destruct (serveQueue r q) as [a q1]. cbn [fst snd] in *.
    rewrite Hs2. destruct (serveQueueAll rs q1) as [answers q2].
    cbn [fst snd] in *. split; [reflexivity|].
    split; [|congruence].
    rewrite Hc2, Hc1. apply insert_insert_eq.
Qed.

(** X5: after [initPolicy] the policies of all localities are views of one
    queue: any sequence of [addwork], [getWork] and [workRemaining] calls made
    on any of the localities gets the answers the same sequence of [addWork],
    [steal] and [workRemaining] calls gets from a single new workqueue (a
    stolen task comes back bound to the locality that asked); the calls change
    that one component and nothing else. *)
Theorem policies_share_one_queue (localities : list nat) (rs : list Request)
  (w : Cluster) :
  Forall (fun r => locality r ∈ localities) rs ->
  exists w',
    serveAll rs (initPolicy localities w)
    = Some (fst (serveQueueAll rs wq_new), w')
    /\ components w'
       = <[fresh (dom (components w)) := snd (serveQueueAll rs wq_new)]>
           (components w)
    /\ local_policy w' = local_policy (initPolicy localities w).
Proof.
  intros Hall.
  destruct (serveAll_shared localities (fresh (dom (components w))) rs wq_new
              (initPolicy localities w)) as (w' & Hs & Hc & Hp).
  - unfold initPolicy. rewrite broadcast_components. apply lookup_insert_eq.
  - intros l Hl. unfold initPolicy. now apply broadcast_policy.
  - exact Hall.
  - exists w'. split; [exact Hs|]. split; [|exact Hp].
    rewrite Hc. unfold initPolicy. rewrite broadcast_components.
    apply insert_insert_eq.
Qed.

(** X6: [initPolicy] is not idempotent.  A second call creates a second
    workqueue and points the policy of every locality to it: work added
    before stays in the first queue, which no policy refers to any more, and
    [getWork] steals from the new, empty queue. *)
Theorem initPolicy_again (localities : list nat) (w : Cluster) (l : nat)
  (p1 p2 : PriorityOrderedPolicy) (priority : Z) (task : TaskFn) :
  l ∈ localities ->
  local_policy (initPolicy localities w) !! l = Some p1 ->
  local_policy
    (initPolicy localities
       (addwork p1 priority task (initPolicy localities w))) !! l = Some p2 ->
  globalWorkqueue p2 <> globalWorkqueue p1
  /\ components
       (initPolicy localities
          (addwork p1 priority task (initPolicy localities w)))
     !! globalWorkqueue p1
     = Some (wq_addWork priority task wq_new)
  /\ fst (getWork p2 l
            (initPolicy localities
               (addwork p1 priority task (initPolicy localities w))))
     = option_map (fun t => (t, l)) (fst (wq_steal wq_new)).
Proof.
  intros Hl H1 H2.
  set (gid1 := fresh (dom (components w))).
  set (w1 := addwork p1 priority task (initPolicy localities w)) in *.
  set (gid2 := fresh (dom (components w1))).
  assert (Hp1 : p1 = mkPolicy gid1).
  { unfold initPolicy in H1. rewrite broadcast_policy in H1 by exact Hl.
    now inversion H1. }
  assert (Hp2 : p2 = mkPolicy gid2).
  { unfold initPolicy in H2. rewrite broadcast_policy in H2 by exact Hl.
    now inversion H2. }
  assert (Hc1 : components w1 !! gid1 = Some (wq_addWork priority task wq_new)).
  { unfold w1, addwork, addWork_action, initPolicy.
    cbn [components]. rewrite Hp1. cbn [globalWorkqueue].
    rewrite broadcast_components. cbn [components].
    now rewrite lookup_alter_eq, lookup_insert_eq. }
  assert (Hne : gid2 <> gid1).
  { intros Heq. pose proof (is_fresh (dom (components w1))) as Hf.
    fold gid2 in Hf. rewrite Heq in Hf. apply Hf.
    apply elem_of_dom. rewrite Hc1. eauto. }
  assert (Hc2 : components (initPolicy localities w1)
                = <[gid2 := wq_new]> (components w1)).
  { unfold initPolicy. now rewrite broadcast_components. }
  subst p1 p2. cbn [globalWorkqueue]. split; [exact Hne|]. split.
  - rewrite Hc2, lookup_insert_ne by exact Hne. exact Hc1.
  - unfold getWork, steal_action. cbn [globalWorkqueue].
    rewrite Hc2, lookup_insert_eq.
    destruct (wq_steal wq_new) as [[t|] q']; reflexivity.
Qed.

End Policy.

(** ** A queue to run the policy on

    Modelled from the spec: workstealing/priorityworkqueue.hpp is not in the
    sources at hand.  The tasks are kept by ascending priority, the newest
    first among equals, and [steal] takes the first one. *)
Fixpoint pq_addWork (priority : Z) (task : nat) (q : list (Z * nat))
  : list (Z * nat) :=
  match q with
  | [] => [(priority, task)]
  | (p, t) :: r =>
    if (priority <=? p)%Z then (priority, task) :: q
    else (p, t) :: pq_addWork priority task r
  end.

Definition pq_steal (q : list (Z * nat)) : option nat * list (Z * nat) :=
  match q with
  | [] => (None, [])
  | (_, t) :: r => (Some t, r)
  end.

Definition pq_workRemaining (q : list (Z * nat)) : bool :=
  match q with
  | [] => false
  | _ :: _ => true
  end.

(** A cluster of two localities before any search, and four calls: two tasks
    added on different localities, one taken, and a look at the queue. *)
Definition noCluster : Cluster (list (Z * nat)) := mkCluster _ ∅ ∅.

Definition fourCalls : list (Request nat) :=
  [ReqAddwork nat 0 5%Z 7; ReqAddwork nat 1 2%Z 8; ReqGetWork nat 1;
   ReqWorkRemaining nat 0]%nat.

Lemma policies_share_one_queue_witness :
  exists w',
    serveAll nat (list (Z * nat)) pq_steal pq_addWork pq_workRemaining
      fourCalls
      (initPolicy (list (Z * nat)) [] [0; 1]%nat noCluster)
    = Some (fst (serveQueueAll nat (list (Z * nat)) pq_steal pq_addWork
                   pq_workRemaining fourCalls []), w')
    /\ components (list (Z * nat)) w'
       = <[fresh (dom (components (list (Z * nat)) noCluster))
           := snd (serveQueueAll nat (list (Z * nat)) pq_steal pq_addWork
                     pq_workRemaining fourCalls [])]>
           (components (list (Z * nat)) noCluster)
    /\ local_policy (list (Z * nat)) w'
       = local_policy (list (Z * nat))
           (initPolicy (list (Z * nat)) [] [0; 1]%nat noCluster).
Proof.
  apply (policies_share_one_queue nat (list (Z * nat)) [] pq_steal pq_addWork
           pq_workRemaining [0; 1]%nat fourCalls noCluster).
  repeat constructor.
Defined.

Example fourCalls_answers :
  fst (serveQueueAll nat (list (Z * nat)) pq_steal pq_addWork pq_workRemaining
         fourCalls [])
  = [RepAdded nat; RepAdded nat; RepWork nat (Some (8, 1)%nat);
     RepRemaining nat true].
Proof. reflexivity. Qed.

Lemma initPolicy_again_witness :
  fst (getWork nat (list (Z * nat)) pq_steal (mkPolicy 1) 0
         (initPolicy (list (Z * nat)) [] [0; 1]%nat
            (addwork nat (list (Z * nat)) pq_addWork (mkPolicy 0) 5%Z 7%nat
               (initPolicy (list (Z * nat)) [] [0; 1]%nat noCluster))))
  = option_map (fun t => (t, 0%nat)) (fst (pq_steal [])).
Proof.
  refine (proj2 (proj2
            (initPolicy_again nat (list (Z * nat)) [] pq_steal pq_addWork
               [0; 1]%nat noCluster 0%nat (mkPolicy 0) (mkPolicy 1) 5%Z 7%nat
               _ _ _))).
  - constructor.
  - vm_compute. reflexivity.
  - vm_compute. reflexivity.
Defined.

End PriorityOrdered.

(* ================================================================== *)
(** * The maxclique application: colour ordering and node generator *)
(* ================================================================== *)

Module MaxClique.

Local Open Scope Z_scope.

(** ** Bit sets

    [BitSet<NWORDS>] and [BitGraph<NWORDS>] (BitSet.hpp, BitGraph.hpp) are not
    part of the sources at hand.  A bit set is modelled as an integer used as a
    bit mask of which only the positions [0 .. NWORDS * bits_per_word - 1]
    are looked at; the operations are the ones their names say. *)

Definition NWORDS : nat := 8.
Definition bits_per_word : nat := 64.
Definition nbits : nat := (NWORDS * bits_per_word)%nat.

Definition positions : list Z := map Z.of_nat (seq 0 nbits).

(** The members of a set, in increasing order. *)
Definition bs_members (p : Z) : list Z := List.filter (Z.testbit p) positions.

Definition bs_size (p : Z) : nat := length (bs_members p).

(** [popcount()] *)
Definition bs_popcount (p : Z) : Z := Z.of_nat (bs_size p).

(** [empty()] *)
Definition bs_empty (p : Z) : bool :=
  match bs_members p with [] => true | _ :: _ => false end.

(** [first_set_bit()], [-1] on the empty set. *)
Definition bs_first_set_bit (p : Z) : Z := hd (-1) (bs_members p).

(** [unset(v)] *)
Definition bs_unset (p v : Z) : Z := Z.clearbit p v.

(** A graph is the list of its adjacency rows. *)
Definition BitGraph : Type := list Z.

Definition row (graph : BitGraph) (v : Z) : Z := nth (Z.to_nat v) graph 0.

(** [graph.intersect_with_row(v, s)] *)
Definition intersect_with_row (graph : BitGraph) (v s : Z) : Z :=
  Z.land s (row graph v).

(** [graph.intersect_with_row_complement(v, s)] *)
Definition intersect_with_row_complement (graph : BitGraph) (v s : Z) : Z :=
  Z.ldiff s (row graph v).

(** [std::array<unsigned, NWORDS * bits_per_word>]: a list of [nbits] cells;
    reading is [arr[i]], a write is [<[i := x]>]. *)
Definition cell (arr : list Z) (i : Z) : Z := nth (Z.to_nat i) arr 0.

(** ** colour_class_order *)

(** The variables both loops change.  The counters [colour] and [i] are
    [unsigned]; they are bounded by the number of members of [p] (lemma
    [colour_class_order_counters]) and never wrap. *)
Record ColourState : Type := mkColourState {
  cs_p_left : Z;
  cs_i : Z;
  cs_p_order : list Z;
  cs_p_bounds : list Z
}.

(** The inner loop [while (! q.empty())]; every pass takes the first member
    out of [q], so the size of [q] bounds the number of passes. *)
Fixpoint colour_inner (fuel : nat) (graph : BitGraph) (colour : Z) (q : Z)
  (st : ColourState) : Z * ColourState :=
  match fuel with
  | O => (q, st)
  | S fuel' =>
    if bs_empty q then (q, st)
    else
      let v := bs_first_set_bit q in
      let p_left := bs_unset (cs_p_left st) v in
      let q := bs_unset q v in
      let q := intersect_with_row_complement graph v q in
      let p_bounds := <[Z.to_nat (cs_i st) := colour]> (cs_p_bounds st) in
      let p_order := <[Z.to_nat (cs_i st) := v]> (cs_p_order st) in
      colour_inner fuel' graph colour q
        (mkColourState p_left (cs_i st + 1) p_order p_bounds)
  end.

(** The outer loop [while (! p_left.empty())]; every pass colours at least
    one member of [p_left]. *)
Fixpoint colour_outer (fuel : nat) (graph : BitGraph) (colour : Z)
  (st : ColourState) : Z * ColourState :=
  match fuel with
  | O => (colour, st)
  | S fuel' =>
    if bs_empty (cs_p_left st) then (colour, st)
    else
      let colour := colour + 1 in
      let q := cs_p_left st in
      let '(_, st) := colour_inner (bs_size q) graph colour q st in
      colour_outer fuel' graph colour st
  end.

(** [colour_class_order(graph, p, p_order, p_bounds)]: the two arrays are
    passed by reference and come back filled. *)
Definition colour_class_order (graph : BitGraph) (p : Z)
  (p_order p_bounds : list Z) : list Z * list Z :=
  let '(_, st) :=
    colour_outer (bs_size p) graph 0 (mkColourState p 0 p_order p_bounds) in
  (cs_p_order st, cs_p_bounds st).

(** ** Nodes and the generator *)

Record MCSol : Type := mkMCSol {
  members : list Z;
  colours : Z
}.

Record MCNode : Type := mkMCNode {
  sol : MCSol;
  size : Z;
  remaining : Z
}.

(** The fields of [GenNode] (with [numChildren] of its base class); the graph
    is a constant reference and stays a parameter of the methods. *)
Record GenNode : Type := mkGenNode {
  numChildren : Z;
  p_order : list Z;
  colourClass : list Z;
  childSol : MCSol;
  childBnd : Z;
  p : Z;
  v : Z
}.

Definition u32 (x : Z) : Z := x mod 2 ^ 32.

(** An [unsigned] value converted to [int]. *)
Definition s32 (x : Z) : Z := (x + 2 ^ 31) mod 2 ^ 32 - 2 ^ 31.

(** The constructor.  The two arrays are members without initialiser:
    [uninit_order] and [uninit_class] are whatever they hold before
    colour_class_order fills them. *)
Definition GenNode_new (uninit_order uninit_class : list Z)
  (graph : BitGraph) (n : MCNode) : GenNode :=
  let '(po, cc) :=
    colour_class_order graph (remaining n) uninit_order uninit_class in
  let numChildren := bs_popcount (remaining n) in
  mkGenNode numChildren po cc (sol n) (size n + 1) (remaining n)
            (numChildren - 1).

(** [next()]: the child and the generator after the side effects. *)
Definition next (graph : BitGraph) (g : GenNode) : MCNode * GenNode :=
  let sol :=
    mkMCSol (members (childSol g) ++ [cell (p_order g) (v g)])
            (s32 (u32 (cell (colourClass g) (v g) - 1))) in
  let cands := intersect_with_row graph (cell (p_order g) (v g)) (p g) in
  (mkMCNode sol (childBnd g) cands,
   mkGenNode (numChildren g) (p_order g) (colourClass g) (childSol g)
             (childBnd g) (bs_unset (p g) (cell (p_order g) (v g)))
             (v g - 1)).

(** The loop [for (auto i = v; i > pos; --i)] of [nth]: [i] is an [int] and
    [pos] an [unsigned], so the test compares [i] as an unsigned value; the
    loop makes [u32 v - pos] passes when that is positive and none
    otherwise. *)
Fixpoint nth_unset (fuel : nat) (order : list Z) (pos i cands : Z) : Z :=
  match fuel with
  | O => cands
  | S fuel' =>
    if pos <? u32 i
    then nth_unset fuel' order pos (i - 1) (bs_unset cands (cell order i))
    else cands
  end.

(** [nth(n)]: the child, and the generator as the call leaves it. *)
Definition nth (graph : BitGraph) (g : GenNode) (n : Z) : MCNode * GenNode :=
  let pos := u32 (v g - n) in
  let sol :=
    mkMCSol (members (childSol g) ++ [cell (p_order g) pos])
            (s32 (u32 (cell (colourClass g) pos - 1))) in
  let cands :=
    nth_unset (Z.to_nat (u32 (v g) - pos)) (p_order g) pos (v g) (p g) in
  let cands := intersect_with_row graph (cell (p_order g) pos) cands in
  (mkMCNode sol (childBnd g) cands, g).

(** [upperBound(space, n)] *)
Definition upperBound (space : BitGraph) (n : MCNode) : Z :=
  size n + colours (sol n).

(** The generator after [k] calls of [next]. *)
Fixpoint after_nexts (graph : BitGraph) (k : nat) (g : GenNode) : GenNode :=
  match k with
  | O => g
  | S k' => after_nexts graph k' (snd (next graph g))
  end.

(** The child the [(k+1)]-th call of [next] returns. *)
Definition next_child (graph : BitGraph) (k : nat) (g : GenNode) : MCNode :=
  fst (next graph (after_nexts graph k g)).

(** ** Facts about bit sets and arrays *)

#[local] Arguments bs_members : simpl never.
#[local] Arguments bs_size : simpl never.
#[local] Arguments bs_empty : simpl never.
#[local] Arguments bs_first_set_bit : simpl never.
#[local] Arguments bs_popcount : simpl never.
#[local] Arguments positions : simpl never.
#[local] Arguments nbits : simpl never.

Lemma filter_both (f g : Z -> bool) (l : list Z) :
  List.filter (fun i => f i && g i) l = List.filter g (List.filter f l).
Proof.
  induction l as [|a l IH]; simpl; [reflexivity|].
  destruct (f a); simpl; [destruct (g a)|]; now rewrite IH.
Qed.

Lemma filter_keeps (l : list Z) (x : Z) :
  ~ In x l -> List.filter (fun i => negb (x =? i)) l = l.
Proof.
  induction l as [|a l IH]; simpl; intros Hn; [reflexivity|].
  destruct (x =? a) eqn:E; simpl.
  - apply Z.eqb_eq in E. exfalso. apply Hn. now left.
  - f_equal. apply IH. intros H. apply Hn. now right.
Qed.

Lemma filter_remove_one (l : list Z) (x : Z) :
  List.NoDup l -> In x l ->
  S (length (List.filter (fun i => negb (x =? i)) l)) = length l.
Proof.
  induction l as [|a l IH]; simpl; intros Hnd Hin; [contradiction|].
  inversion Hnd as [|a' l' Hna Hnd']; subst.
  destruct (x =? a) eqn:E; simpl.
  - apply Z.eqb_eq in E. subst a. now rewrite filter_keeps.
  - f_equal. apply IH; [exact Hnd'|].
    destruct Hin as [->|Hin]; [|exact Hin].
    rewrite Z.eqb_refl in E. discriminate.
Qed.

Lemma filter_length_le (f : Z -> bool) (l : list Z) :
  (length (List.filter f l) <= length l)%nat.
Proof.
  induction l as [|a l IH]; simpl; [lia|]. destruct (f a); simpl; lia.
Qed.

Lemma positions_NoDup : List.NoDup positions.
Proof.
  unfold positions. generalize (List.seq_NoDup nbits 0).
  induction (seq 0 nbits) as [|a l IH]; simpl; intros Hnd; [constructor|].
  inversion Hnd as [|a' l' Hna Hnd']; subst.
  constructor; [|now apply IH].
  intros Hin. apply in_map_iff in Hin. destruct Hin as [b [Hb Hin]].
  apply Nat2Z.inj in Hb. now subst b.
Qed.

Lemma bs_members_NoDup (s : Z) : List.NoDup (bs_members s).
Proof. apply List.NoDup_filter, positions_NoDup. Qed.

Lemma bs_size_le (s : Z) : (bs_size s <= nbits)%nat.
Proof.
  unfold bs_size, bs_members.
  etransitivity; [apply filter_length_le|].
  unfold positions. now rewrite length_map, length_seq.
Qed.

Lemma bs_members_unset (s x : Z) :
  bs_members (bs_unset s x)
  = List.filter (fun i => negb (x =? i)) (bs_members s).
Proof.
  unfold bs_members, bs_unset. rewrite <- filter_both.
  apply List.filter_ext. intros i. apply Z.clearbit_eqb.
Qed.

Lemma bs_members_row_complement (graph : BitGraph) (x s : Z) :
  bs_members (intersect_with_row_complement graph x s)
  = List.filter (fun i => negb (Z.testbit (row graph x) i)) (bs_members s).
Proof.
  unfold bs_members, intersect_with_row_complement. rewrite <- filter_both.
  apply List.filter_ext. intros i. apply Z.ldiff_spec.
Qed.

Lemma bs_size_unset (s x : Z) :
  In x (bs_members s) -> S (bs_size (bs_unset s x)) = bs_size s.
Proof.
  intros Hin. unfold bs_size. rewrite bs_members_unset.
  apply filter_remove_one; [apply bs_members_NoDup|exact Hin].
Qed.

Lemma bs_first_set_bit_member (s : Z) :
  bs_empty s = false -> In (bs_first_set_bit s) (bs_members s).
Proof.
  unfold bs_empty, bs_first_set_bit.
  destruct (bs_members s); [discriminate|]. intros _. now left.
Qed.

Lemma bs_empty_size (s : Z) : bs_empty s = true <-> bs_size s = 0%nat.
Proof.
  unfold bs_empty, bs_size. destruct (bs_members s); simpl; split;
    intros H; try reflexivity; discriminate.
Qed.

Lemma cell_insert_eq (arr : list Z) (i x : Z) :
  (Z.to_nat i < length arr)%nat -> cell (<[Z.to_nat i := x]> arr) i = x.
Proof.
  intros H. unfold cell. rewrite nth_lookup.
  now rewrite list_lookup_insert_eq.
Qed.

Lemma cell_insert_ne (arr : list Z) (i j x : Z) :
  Z.to_nat i <> Z.to_nat j -> cell (<[Z.to_nat i := x]> arr) j = cell arr j.
Proof.
  intros H. unfold cell. rewrite !nth_lookup.
  now rewrite list_lookup_insert_ne.
Qed.

Lemma u32_small (x : Z) : 0 <= x < 2 ^ 32 -> u32 x = x.
Proof. intros H. unfold u32. now apply Z.mod_small. Qed.

Lemma s32_small (x : Z) : 0 <= x < 2 ^ 31 -> s32 x = x.
Proof. intros H. unfold s32. rewrite Z.mod_small; lia. Qed.

(** ** nth against next *)

Lemma nth_zero (graph : BitGraph) (g : GenNode) :
  0 <= v g < 2 ^ 32 -> fst (nth graph g 0) = fst (next graph g).
Proof.
  intros Hv. unfold nth, next; simpl.
  rewrite Z.sub_0_r, (u32_small (v g)) by exact Hv.
  now rewrite Z.sub_diag.
Qed.

Lemma nth_succ (graph : BitGraph) (g : GenNode) (k : nat) :
  Z.of_nat (S k) <= v g < 2 ^ 32 ->
  fst (nth graph g (Z.of_nat (S k)))
  = fst (nth graph (snd (next graph g)) (Z.of_nat k)).
Proof.
  intros Hv. unfold nth; simpl fst; simpl snd. cbn [v p p_order colourClass
    childSol childBnd].
  replace (v g - 1 - Z.of_nat k) with (v g - Z.of_nat (S k)) by lia.
  rewrite (u32_small (v g - Z.of_nat (S k))) by lia.
  rewrite (u32_small (v g)) by lia.
  rewrite (u32_small (v g - 1)) by lia.
  replace (Z.to_nat (v g - (v g - Z.of_nat (S k)))) with (S k) by lia.
  replace (Z.to_nat (v g - 1 - (v g - Z.of_nat (S k)))) with k by lia.
  simpl nth_unset.
  rewrite (u32_small (v g)) by lia.
  assert (Hlt : (v g - Z.of_nat (S k) <? v g) = true) by (apply Z.ltb_lt; lia).
  now rewrite Hlt.
Qed.

(** C8: in a state with at least [k+1] children left ([k <= v]), [nth(k)]
    returns the node the [(k+1)]-th successive call of [next] would return,
    and it hands back the generator unchanged: the fields [p], [v],
    [childSol], [childBnd] (and the two arrays) are as before. *)
Theorem nth_is_kth_next (graph : BitGraph) (k : nat) (g : GenNode) :
  Z.of_nat k <= v g -> v g < 2 ^ 31 ->
  fst (nth graph g (Z.of_nat k)) = next_child graph k g
  /\ snd (nth graph g (Z.of_nat k)) = g.
Proof.
  intros Hk Hv. split; [|reflexivity].
  revert g Hk Hv. induction k as [|k IH]; intros g Hk Hv.
  - unfold next_child; simpl after_nexts. apply nth_zero. lia.
  - rewrite nth_succ by lia.
    unfold next_child; simpl after_nexts.
    apply IH; simpl; lia.
Qed.

(** ** The colours along [p_bounds] *)

(** What holds between two passes of either loop, for a set of [N] members:
    [i] cells are written, one per member taken out of [p_left]; the written
    cells of [p_bounds] hold colours between 1 and the current one, in
    non-decreasing order. *)
Definition coloured (N : nat) (colour : Z) (st : ColourState) : Prop :=
  0 <= cs_i st
  /\ (Z.to_nat (cs_i st) + bs_size (cs_p_left st) = N)%nat
  /\ length (cs_p_bounds st) = nbits
  /\ (forall j, 0 <= j < cs_i st -> 1 <= cell (cs_p_bounds st) j <= colour)
  /\ (forall j1 j2, 0 <= j1 <= j2 -> j2 < cs_i st ->
        cell (cs_p_bounds st) j1 <= cell (cs_p_bounds st) j2).

Lemma coloured_weaken N c1 c2 st :
  c1 <= c2 -> coloured N c1 st -> coloured N c2 st.
Proof.
  intros Hc (H1 & H2 & H3 & H4 & H5). repeat split; auto.
  - apply H4; lia.
  - specialize (H4 j ltac:(lia)). lia.
Qed.

Lemma coloured_step N colour st x :
  (N <= nbits)%nat -> 1 <= colour ->
  In x (bs_members (cs_p_left st)) ->
  coloured N colour st ->
  coloured N colour
    (mkColourState (bs_unset (cs_p_left st) x) (cs_i st + 1)
       (<[Z.to_nat (cs_i st) := x]> (cs_p_order st))
       (<[Z.to_nat (cs_i st) := colour]> (cs_p_bounds st))).
Proof.
  intros HN Hc Hin (H1 & H2 & H3 & H4 & H5).
  pose proof (bs_size_unset _ _ Hin) as Hsz.
  assert (Hi : (Z.to_nat (cs_i st) < length (cs_p_bounds st))%nat) by lia.
  assert (Hread : forall j, 0 <= j < cs_i st ->
            cell (<[Z.to_nat (cs_i st) := colour]> (cs_p_bounds st)) j
            = cell (cs_p_bounds st) j).
  { intros j Hj. apply cell_insert_ne. lia. }
  unfold coloured; simpl. repeat split.
  - lia.
  - lia.
  - now rewrite length_insert.
  - destruct (Z.eq_dec j (cs_i st)) as [->|Hne].
    + rewrite cell_insert_eq by exact Hi. lia.
    + rewrite Hread by lia. apply H4. lia.
  - destruct (Z.eq_dec j (cs_i st)) as [->|Hne].
    + rewrite cell_insert_eq by exact Hi. lia.
    + rewrite Hread by lia. specialize (H4 j ltac:(lia)). lia.
  - intros j1 j2 Hj Hj2.
    destruct (Z.eq_dec j2 (cs_i st)) as [->|Hne2].
    + rewrite (cell_insert_eq _ (cs_i st)) by exact Hi.
      destruct (Z.eq_dec j1 (cs_i st)) as [->|Hne1].
      * rewrite cell_insert_eq by exact Hi. lia.
      * rewrite Hread by lia. specialize (H4 j1 ltac:(lia)). lia.
    + rewrite !Hread by lia. apply H5; lia.
Qed.

Lemma colour_inner_S fuel graph colour q st :
  colour_inner (S fuel) graph colour q st =
    if bs_empty q then (q, st)
    else colour_inner fuel graph colour
           (intersect_with_row_complement graph (bs_first_set_bit q)
              (bs_unset q (bs_first_set_bit q)))
           (mkColourState (bs_unset (cs_p_left st) (bs_first_set_bit q))
              (cs_i st + 1)
              (<[Z.to_nat (cs_i st) := bs_first_set_bit q]> (cs_p_order st))
              (<[Z.to_nat (cs_i st) := colour]> (cs_p_bounds st))).
Proof. reflexivity. Qed.

Lemma colour_outer_S fuel graph colour st :
  colour_outer (S fuel) graph colour st =
    if bs_empty (cs_p_left st) then (colour, st)
    else colour_outer fuel graph (colour + 1)
           (snd (colour_inner (bs_size (cs_p_left st)) graph (colour + 1)
                   (cs_p_left st) st)).
Proof.
  cbn [colour_outer].
  destruct (bs_empty (cs_p_left st)); [reflexivity|].
  now destruct (colour_inner (bs_size (cs_p_left st)) graph (colour + 1)
                  (cs_p_left st) st).
Qed.

Lemma colour_inner_inv (N : nat) (graph : BitGraph) (colour : Z) :
  (N <= nbits)%nat -> 1 <= colour ->
  forall fuel q st q' st',
    (forall x, In x (bs_members q) -> In x (bs_members (cs_p_left st))) ->
    (bs_size q <= fuel)%nat ->
    coloured N colour st ->
    colour_inner fuel graph colour q st = (q', st') ->
    bs_empty q' = true
    /\ coloured N colour st'
    /\ cs_i st + (if bs_empty q then 0 else 1) <= cs_i st'.
Proof.
  intros HN Hc. induction fuel as [|fuel IH];
    intros q st q' st' Hsub Hsz Hcol Hrun.
  - cbn [colour_inner] in Hrun. inversion Hrun; subst.
    assert (He : bs_empty q' = true) by (apply bs_empty_size; lia).
    rewrite He. split; [reflexivity|]. split; [assumption|lia].
  - rewrite colour_inner_S in Hrun. destruct (bs_empty q) eqn:He.
    + inversion Hrun; subst. split; [assumption|]. split; [assumption|lia].
    + pose proof (bs_first_set_bit_member q He) as Hin.
      apply IH in Hrun.
      * destruct Hrun as (R1 & R2 & R3). cbn [cs_i] in R3.
        split; [assumption|]. split; [assumption|].
        destruct (bs_empty
                    (intersect_with_row_complement graph (bs_first_set_bit q)
                       (bs_unset q (bs_first_set_bit q)))); lia.
      * cbn [cs_p_left]. intros x Hx.
        rewrite bs_members_row_complement in Hx.
        apply List.filter_In in Hx. destruct Hx as [Hx _].
        rewrite bs_members_unset in Hx. rewrite bs_members_unset.
        apply List.filter_In in Hx. destruct Hx as [Hx Hne].
        apply List.filter_In. split; [now apply Hsub|exact Hne].
      * pose proof (bs_size_unset _ _ Hin) as Hs.
        assert (bs_size (intersect_with_row_complement graph
                           (bs_first_set_bit q)
                           (bs_unset q (bs_first_set_bit q)))
                <= bs_size (bs_unset q (bs_first_set_bit q)))%nat.
        { unfold bs_size at 1. rewrite bs_members_row_complement.
          apply filter_length_le. }
        lia.
      * apply coloured_step; auto.
Qed.

Lemma colour_outer_inv (N : nat) (graph : BitGraph) :
  (N <= nbits)%nat ->
  forall fuel colour st colour' st',
    0 <= colour <= cs_i st ->
    (bs_size (cs_p_left st) <= fuel)%nat ->
    coloured N colour st ->
    colour_outer fuel graph colour st = (colour', st') ->
    bs_empty (cs_p_left st') = true
    /\ coloured N colour' st'
    /\ 0 <= colour' <= cs_i st'.
Proof.
  intros HN. induction fuel as [|fuel IH];
    intros colour st colour' st' Hc Hsz Hcol Hrun.
  - cbn [colour_outer] in Hrun.
    inversion Hrun; subst. split; [|split; [assumption|lia]].
    apply bs_empty_size. lia.
  - rewrite colour_outer_S in Hrun.
    destruct (bs_empty (cs_p_left st)) eqn:He.
    + inversion Hrun; subst. split; [assumption|]. split; [assumption|lia].
    + destruct (colour_inner (bs_size (cs_p_left st)) graph (colour + 1)
                  (cs_p_left st) st) as [q1 st1] eqn:Hin.
      cbn [snd] in Hrun.
      apply (colour_inner_inv N graph (colour + 1) HN ltac:(lia)) in Hin;
        [|auto|lia|apply (coloured_weaken N colour); [lia|exact Hcol]].
      destruct Hin as (_ & Hcol1 & Hi1). rewrite He in Hi1.
      assert (Hnz : (bs_size (cs_p_left st) <> 0)%nat).
      { intros Hz. apply bs_empty_size in Hz. congruence. }
      apply IH in Hrun; auto; try lia.
      destruct Hcol as (_ & Hn & _). destruct Hcol1 as (Hi0 & Hn1 & _).
      lia.
Qed.

Lemma colour_class_order_run (graph : BitGraph) (s : Z) (po pb : list Z) :
  length pb = nbits ->
  forall colour st,
    colour_outer (bs_size s) graph 0 (mkColourState s 0 po pb) = (colour, st) ->
    bs_empty (cs_p_left st) = true
    /\ coloured (bs_size s) colour st
    /\ 0 <= colour <= cs_i st.
Proof.
  intros Hlen colour st Hrun.
  pose proof (bs_size_le s) as Hle.
  assert (Hstart : coloured (bs_size s) 0 (mkColourState s 0 po pb)).
  { unfold coloured; cbn [cs_i cs_p_left cs_p_bounds].
    split; [lia|]. split; [reflexivity|]. split; [exact Hlen|].
    split; intros; lia. }
  assert (H1 : 0 <= 0 <= cs_i (mkColourState s 0 po pb))
    by (cbn [cs_i]; lia).
  assert (H2 : (bs_size (cs_p_left (mkColourState s 0 po pb)) <= bs_size s)%nat)
    by (cbn [cs_p_left]; apply Nat.le_refl).
  exact (colour_outer_inv (bs_size s) graph Hle (bs_size s) 0 _ colour st
           H1 H2 Hstart Hrun).
Qed.

(** The loops of colour_class_order run to their exit test: [p_left] is empty
    at the end, one cell was written per member of [p], and the last colour
    does not exceed that number. *)
Lemma colour_class_order_counters (graph : BitGraph) (s : Z) (po pb : list Z) :
  length pb = nbits ->
  forall colour st,
    colour_outer (bs_size s) graph 0 (mkColourState s 0 po pb) = (colour, st) ->
    bs_empty (cs_p_left st) = true
    /\ cs_i st = bs_popcount s
    /\ 0 <= colour <= bs_popcount s
    /\ bs_popcount s <= Z.of_nat nbits
    /\ coloured (bs_size s) colour st.
Proof.
  intros Hlen colour st Hrun.
  destruct (colour_class_order_run graph s po pb Hlen colour st Hrun)
    as (He & Hcol & Hc).
  clear Hrun.
  pose proof (bs_size_le s) as Hle.
  assert (Hi : cs_i st = bs_popcount s).
  { destruct Hcol as (H0 & Hn & _). apply bs_empty_size in He.
    unfold bs_popcount. lia. }
  split; [assumption|]. split; [assumption|].
  split; [|split; [|assumption]].
  - clear Hcol He. rewrite <- Hi. exact Hc.
  - clear Hcol He Hi Hc. unfold bs_popcount. apply Nat2Z.inj_le. exact Hle.
Qed.

(** colour_class_order gives the first [popcount] cells of [p_bounds] colours
    in non-decreasing order, each between 1 and the number of members. *)
Lemma colour_class_order_sorted (graph : BitGraph) (s : Z) (po pb : list Z) :
  length pb = nbits ->
  (forall j, 0 <= j < bs_popcount s ->
     1 <= cell (snd (colour_class_order graph s po pb)) j <= Z.of_nat nbits)
  /\ (forall j1 j2, 0 <= j1 <= j2 -> j2 < bs_popcount s ->
        cell (snd (colour_class_order graph s po pb)) j1
        <= cell (snd (colour_class_order graph s po pb)) j2).
Proof.
  intros Hlen. unfold colour_class_order.
  destruct (colour_outer (bs_size s) graph 0 (mkColourState s 0 po pb))
    as [colour st] eqn:Hrun.
  apply colour_class_order_counters in Hrun; [|exact Hlen].
  destruct Hrun as (_ & Hi & Hc & Hn & (_ & _ & _ & H4 & H5)). simpl.
  rewrite Hi in H4, H5. split.
  - intros j Hj. specialize (H4 j Hj). lia.
  - exact H5.
Qed.

(** ** The bounds of the children *)

Lemma after_nexts_fields (graph : BitGraph) (k : nat) (g : GenNode) :
  v (after_nexts graph k g) = v g - Z.of_nat k
  /\ colourClass (after_nexts graph k g) = colourClass g
  /\ childBnd (after_nexts graph k g) = childBnd g.
Proof.
  revert g. induction k as [|k IH]; intros g.
  - simpl. repeat split. lia.
  - cbn [after_nexts]. destruct (IH (snd (next graph g))) as (H1 & H2 & H3).
    rewrite H1, H2, H3. cbn [next snd v colourClass childBnd].
    repeat split. lia.
Qed.

Lemma upperBound_next_child (graph : BitGraph) (k : nat) (g : GenNode) :
  upperBound graph (next_child graph k g)
  = childBnd g + s32 (u32 (cell (colourClass g) (v g - Z.of_nat k) - 1)).
Proof.
  unfold next_child, upperBound.
  destruct (after_nexts_fields graph k g) as (H1 & H2 & H3).
  cbn [next fst size sol colours]. now rewrite H1, H2, H3.
Qed.

(** C10: colour_class_order fills [p_bounds] with non-decreasing colours, and
    the children a generator built by the constructor emits through
    successive calls of [next] have non-increasing [upperBound] values: the
    [(k+2)]-th child is bounded by the [(k+1)]-th. *)
Theorem next_upperBound_non_increasing
  (uninit_order uninit_class : list Z) (graph : BitGraph) (n : MCNode)
  (k : nat) :
  length uninit_class = nbits ->
  Z.of_nat k + 1 < bs_popcount (remaining n) ->
  (forall j1 j2, 0 <= j1 <= j2 -> j2 < bs_popcount (remaining n) ->
     cell (colourClass (GenNode_new uninit_order uninit_class graph n)) j1
     <= cell (colourClass (GenNode_new uninit_order uninit_class graph n)) j2)
  /\ upperBound graph
       (next_child graph (S k) (GenNode_new uninit_order uninit_class graph n))
     <= upperBound graph
          (next_child graph k (GenNode_new uninit_order uninit_class graph n)).
Proof.
  intros Hlen Hk.
  destruct (colour_class_order_sorted graph (remaining n) uninit_order
              uninit_class Hlen) as [Hrange Hsorted].
  assert (Hcc : colourClass (GenNode_new uninit_order uninit_class graph n)
                = snd (colour_class_order graph (remaining n) uninit_order
                         uninit_class)).
  { unfold GenNode_new.
    now destruct (colour_class_order graph (remaining n) uninit_order
                    uninit_class). }
  assert (Hv : v (GenNode_new uninit_order uninit_class graph n)
               = bs_popcount (remaining n) - 1).
  { unfold GenNode_new.
    now destruct (colour_class_order graph (remaining n) uninit_order
                    uninit_class). }
  split; [now rewrite Hcc|].
  rewrite !upperBound_next_child, Hcc, Hv.
  set (cc := snd (colour_class_order graph (remaining n) uninit_order
                    uninit_class)) in *.
  set (m := bs_popcount (remaining n)) in *.
  pose proof (Hrange (m - 1 - Z.of_nat (S k)) ltac:(lia)) as R1.
  pose proof (Hrange (m - 1 - Z.of_nat k) ltac:(lia)) as R2.
  pose proof (Hsorted (m - 1 - Z.of_nat (S k)) (m - 1 - Z.of_nat k)
                ltac:(lia) ltac:(lia)) as Hle.
  assert (Hn : Z.of_nat nbits = 512) by reflexivity.
  rewrite !u32_small by lia. rewrite !s32_small by lia. lia.
Qed.

(** ** A five-cycle *)

(** The cycle 0-1-2-3-4-0 as adjacency rows, arrays of zeros standing for the
    uninitialised members, and the root node of the search. *)
Definition cycle5 : BitGraph := [18; 5; 10; 20; 9].
Definition blank : list Z := repeat 0 nbits.
Definition cycle5_root : MCNode := mkMCNode (mkMCSol [] 0) 0 31.
Definition cycle5_gen : GenNode := GenNode_new blank blank cycle5 cycle5_root.

Example cycle5_colour_classes :
  firstn 5 (colourClass cycle5_gen) = [1; 1; 2; 2; 3]
  /\ firstn 5 (p_order cycle5_gen) = [0; 2; 1; 3; 4]
  /\ numChildren cycle5_gen = 5.
Proof. vm_compute. repeat split; reflexivity. Qed.

Example cycle5_child_bounds :
  map (fun k => upperBound cycle5 (next_child cycle5 k cycle5_gen))
    [0; 1; 2; 3; 4]%nat
  = [3; 2; 2; 1; 1].
Proof. vm_compute. reflexivity. Qed.

Lemma nth_is_kth_next_witness :
  fst (nth cycle5 cycle5_gen (Z.of_nat 2)) = next_child cycle5 2 cycle5_gen
  /\ snd (nth cycle5 cycle5_gen (Z.of_nat 2)) = cycle5_gen.
Proof.
  apply (nth_is_kth_next cycle5 2 cycle5_gen);
    vm_compute; [discriminate|reflexivity].
Defined.

Lemma next_upperBound_non_increasing_witness :
  upperBound cycle5 (next_child cycle5 1 cycle5_gen)
  <= upperBound cycle5 (next_child cycle5 0 cycle5_gen).
Proof.
  apply (proj2 (next_upperBound_non_increasing blank blank cycle5 cycle5_root
                  0%nat ltac:(vm_compute; reflexivity)
                  ltac:(vm_compute; reflexivity))).
Defined.

(** ** The vertices along [p_order] *)

(** [graph] has an edge from [a] to [b]: bit [b] of row [a]. *)
Definition adjacent (graph : BitGraph) (a b : Z) : bool :=
  Z.testbit (row graph a) b.

(** The cells of [p_order] written so far. *)
Definition written (st : ColourState) : list Z :=
  take (Z.to_nat (cs_i st)) (cs_p_order st).

(** What both loops keep for the set [s] and the arrays [uo], [uc] they were
    given: the written cells of [p_order] together with [p_left] are the
    members of [s], the cells from [i] on are as they were, and two written
    cells of the same colour hold vertices with no edge from the earlier to
    the later one. *)
Definition placed (graph : BitGraph) (s : Z) (uo uc : list Z)
  (st : ColourState) : Prop :=
  length (cs_p_order st) = nbits
  /\ Permutation (written st ++ bs_members (cs_p_left st)) (bs_members s)
  /\ (forall j, cs_i st <= j ->
        cell (cs_p_order st) j = cell uo j
        /\ cell (cs_p_bounds st) j = cell uc j)
  /\ (forall j1 j2, 0 <= j1 < j2 -> j2 < cs_i st ->
        cell (cs_p_bounds st) j1 = cell (cs_p_bounds st) j2 ->
        adjacent graph (cell (cs_p_order st) j1) (cell (cs_p_order st) j2)
        = false).

(** Inside a pass of the inner loop: no vertex already given [colour] has an
    edge to a member of [q]. *)
Definition classOpen (graph : BitGraph) (colour q : Z) (st : ColourState)
  : Prop :=
  forall j x, 0 <= j < cs_i st -> cell (cs_p_bounds st) j = colour ->
    In x (bs_members q) -> adjacent graph (cell (cs_p_order st) j) x = false.

Lemma filter_remove_perm (l : list Z) (x : Z) :
  List.NoDup l -> In x l ->
  Permutation (x :: List.filter (fun i => negb (x =? i)) l) l.
Proof.
  induction l as [|a l IH]; simpl; intros Hnd Hin; [contradiction|].
  inversion Hnd as [|a' l' Hna Hnd']; subst.
  destruct (x =? a) eqn:E; simpl.
  - apply Z.eqb_eq in E. subst a. now rewrite filter_keeps.
  - destruct Hin as [->|Hin]; [rewrite Z.eqb_refl in E; discriminate|].
    rewrite perm_swap. apply perm_skip. now apply IH.
Qed.

Lemma written_step (st : ColourState) (x c : Z) :
  0 <= cs_i st -> (Z.to_nat (cs_i st) < length (cs_p_order st))%nat ->
  written (mkColourState (bs_unset (cs_p_left st) x) (cs_i st + 1)
             (<[Z.to_nat (cs_i st) := x]> (cs_p_order st))
             (<[Z.to_nat (cs_i st) := c]> (cs_p_bounds st)))
  = written st ++ [x].
Proof.
  intros Hi Hlen. unfold written. cbn [cs_i cs_p_order].
  replace (Z.to_nat (cs_i st + 1)) with (S (Z.to_nat (cs_i st))) by lia.
  rewrite (take_S_r _ _ x).
  - now rewrite take_insert_ge by lia.
  - now apply list_lookup_insert_eq.
Qed.

Lemma placed_step (N : nat) (graph : BitGraph) (s : Z) (uo uc : list Z)
  (colour q : Z) (st : ColourState) (x : Z) :
  (N <= nbits)%nat ->
  In x (bs_members q) ->
  (forall y, In y (bs_members q) -> In y (bs_members (cs_p_left st))) ->
  coloured N colour st ->
  placed graph s uo uc st ->
  classOpen graph colour q st ->
  let st' := mkColourState (bs_unset (cs_p_left st) x) (cs_i st + 1)
               (<[Z.to_nat (cs_i st) := x]> (cs_p_order st))
               (<[Z.to_nat (cs_i st) := colour]> (cs_p_bounds st)) in
  placed graph s uo uc st'
  /\ classOpen graph colour
       (intersect_with_row_complement graph x (bs_unset q x)) st'.
Proof.
  intros HN Hx Hsub (C1 & C2 & C3 & _) (P1 & P2 & P3 & P4) Hopen st'.
  pose proof (Hsub x Hx) as Hxl.
  pose proof (bs_size_unset _ _ Hxl) as Hsz.
  assert (Hio : (Z.to_nat (cs_i st) < length (cs_p_order st))%nat) by lia.
  assert (Hib : (Z.to_nat (cs_i st) < length (cs_p_bounds st))%nat) by lia.
  assert (Ro : forall j, j <> cs_i st -> 0 <= j ->
            cell (<[Z.to_nat (cs_i st) := x]> (cs_p_order st)) j
            = cell (cs_p_order st) j).
  { intros j Hj Hj0. apply cell_insert_ne. lia. }
  assert (Rb : forall j, j <> cs_i st -> 0 <= j ->
            cell (<[Z.to_nat (cs_i st) := colour]> (cs_p_bounds st)) j
            = cell (cs_p_bounds st) j).
  { intros j Hj Hj0. apply cell_insert_ne. lia. }
  split; [split; [|split; [|split]]|].
  - unfold st'; cbn [cs_p_order]. now rewrite length_insert.
  - unfold st'. rewrite written_step by assumption. cbn [cs_p_left].
    rewrite bs_members_unset, <- app_assoc. cbn [app].
    rewrite <- P2. apply Permutation_app_head.
    apply filter_remove_perm; [apply bs_members_NoDup|exact Hxl].
  - intros j Hj. unfold st' in *; cbn [cs_i cs_p_order cs_p_bounds] in *.
    rewrite Ro, Rb by lia. apply P3. lia.
  - intros j1 j2 Hj1 Hj2. unfold st' in *;
      cbn [cs_i cs_p_order cs_p_bounds] in *.
    rewrite (Ro j1), (Rb j1) by lia.
    destruct (Z.eq_dec j2 (cs_i st)) as [->|Hne].
    + rewrite !cell_insert_eq by assumption.
      intros Hc. apply Hopen; [lia|exact Hc|exact Hx].
    + rewrite (Ro j2), (Rb j2) by lia. apply P4; lia.
  - intros j y Hj Hc Hy. unfold st' in *;
      cbn [cs_i cs_p_order cs_p_bounds] in *.
    rewrite bs_members_row_complement in Hy.
    apply List.filter_In in Hy. destruct Hy as [Hy Hrow].
    rewrite bs_members_unset in Hy.
    apply List.filter_In in Hy. destruct Hy as [Hy _].
    destruct (Z.eq_dec j (cs_i st)) as [->|Hne].
    + rewrite cell_insert_eq by assumption. unfold adjacent.
      now apply negb_true_iff in Hrow.
    + rewrite Ro by lia. rewrite Rb in Hc by lia.
      apply Hopen; [lia|exact Hc|exact Hy].
Qed.

Lemma colour_inner_placed (N : nat) (graph : BitGraph) (s : Z)
  (uo uc : list Z) (colour : Z) :
  (N <= nbits)%nat -> 1 <= colour ->
  forall fuel q st q' st',
    (forall x, In x (bs_members q) -> In x (bs_members (cs_p_left st))) ->
    coloured N colour st ->
    placed graph s uo uc st ->
    classOpen graph colour q st ->
    colour_inner fuel graph colour q st = (q', st') ->
    placed graph s uo uc st'.
Proof.
  intros HN Hc. induction fuel as [|fuel IH];
    intros q st q' st' Hsub Hcol Hpl Hop Hrun.
  - cbn [colour_inner] in Hrun. now inversion Hrun; subst.
  - rewrite colour_inner_S in Hrun. destruct (bs_empty q) eqn:He.
    + now inversion Hrun; subst.
    + pose proof (bs_first_set_bit_member q He) as Hin.
      destruct (placed_step N graph s uo uc colour q st (bs_first_set_bit q)
                  HN Hin Hsub Hcol Hpl Hop) as [Hpl' Hop'].
      eapply IH; [| | exact Hpl' | exact Hop' | exact Hrun].
      * cbn [cs_p_left]. intros x Hx.
        rewrite bs_members_row_complement in Hx.
        apply List.filter_In in Hx. destruct Hx as [Hx _].
        rewrite bs_members_unset in Hx. rewrite bs_members_unset.
        apply List.filter_In in Hx. destruct Hx as [Hx Hne].
        apply List.filter_In. split; [now apply Hsub|exact Hne].
      * apply coloured_step; auto.
Qed.

Lemma colour_outer_placed (N : nat) (graph : BitGraph) (s : Z)
  (uo uc : list Z) :
  (N <= nbits)%nat ->
  forall fuel colour st colour' st',
    0 <= colour <= cs_i st ->
    coloured N colour st ->
    placed graph s uo uc st ->
    colour_outer fuel graph colour st = (colour', st') ->
    placed graph s uo uc st'.
Proof.
  intros HN. induction fuel as [|fuel IH];
    intros colour st colour' st' Hc Hcol Hpl Hrun.
  - cbn [colour_outer] in Hrun. now inversion Hrun; subst.
  - rewrite colour_outer_S in Hrun.
    destruct (bs_empty (cs_p_left st)) eqn:He.
    + now inversion Hrun; subst.
    + destruct (colour_inner (bs_size (cs_p_left st)) graph (colour + 1)
                  (cs_p_left st) st) as [q1 st1] eqn:Hin.
      cbn [snd] in Hrun.
      assert (Hcol1 : coloured N (colour + 1) st)
        by (apply (coloured_weaken N colour); [lia|exact Hcol]).
      assert (Hop : classOpen graph (colour + 1) (cs_p_left st) st).
      { intros j x Hj Hcj _. destruct Hcol as (_ & _ & _ & H4 & _).
        specialize (H4 j Hj). lia. }
      pose proof (colour_inner_placed N graph s uo uc (colour + 1) HN
                    ltac:(lia) _ _ _ _ _ (fun x H => H) Hcol1 Hpl Hop Hin)
        as Hpl1.
      destruct (colour_inner_inv N graph (colour + 1) HN ltac:(lia) _ _ _ _ _
                  (fun x H => H) (Nat.le_refl _) Hcol1 Hin)
        as (_ & Hcol1' & Hi1).
      rewrite He in Hi1.
      eapply IH; [| exact Hcol1' | exact Hpl1 | exact Hrun]. lia.
Qed.

Lemma colour_class_order_placed (graph : BitGraph) (s : Z) (po pb : list Z) :
  length po = nbits -> length pb = nbits ->
  forall colour st,
    colour_outer (bs_size s) graph 0 (mkColourState s 0 po pb) = (colour, st) ->
    placed graph s po pb st.
Proof.
  intros Hlo Hlb colour st Hrun.
  pose proof (bs_size_le s) as Hle.
  assert (Hstart : coloured (bs_size s) 0 (mkColourState s 0 po pb)).
  { unfold coloured; cbn [cs_i cs_p_left cs_p_bounds].
    split; [lia|]. split; [reflexivity|]. split; [exact Hlb|].
    split; intros; lia. }
  assert (Hpl : placed graph s po pb (mkColourState s 0 po pb)).
  { unfold placed, written; cbn [cs_i cs_p_left cs_p_bounds cs_p_order].
    split; [exact Hlo|]. split; [reflexivity|].
    split; [intros; split; reflexivity|]. intros; lia. }
  assert (H1 : 0 <= 0 <= cs_i (mkColourState s 0 po pb))
    by (cbn [cs_i]; lia).
  exact (colour_outer_placed (bs_size s) graph s po pb Hle (bs_size s) 0 _
           colour st H1 Hstart Hpl Hrun).
Qed.

(** The facts about the two arrays that the generator relies on. *)
Record ordering (graph : BitGraph) (s : Z) (po pb order class : list Z)
  : Prop := mkOrdering {
  ord_length : length order = nbits /\ length class = nbits;
  ord_perm : Permutation (take (bs_size s) order) (bs_members s);
  ord_rest : forall j, bs_popcount s <= j ->
               cell order j = cell po j /\ cell class j = cell pb j;
  ord_range : forall j, 0 <= j < bs_popcount s ->
                1 <= cell class j <= Z.of_nat nbits;
  ord_sorted : forall j1 j2, 0 <= j1 <= j2 -> j2 < bs_popcount s ->
                 cell class j1 <= cell class j2;
  ord_independent : forall j1 j2, 0 <= j1 < j2 -> j2 < bs_popcount s ->
                      cell class j1 = cell class j2 ->
                      adjacent graph (cell order j1) (cell order j2) = false
}.

Lemma bs_popcount_size (x : Z) : bs_popcount x = Z.of_nat (bs_size x).
Proof. reflexivity. Qed.

Lemma bs_empty_members (x : Z) : bs_empty x = true -> bs_members x = [].
Proof.
  unfold bs_empty. destruct (bs_members x); [reflexivity|discriminate].
Qed.

Lemma colour_class_order_eq (graph : BitGraph) (s : Z) (po pb : list Z)
  (colour : Z) (st : ColourState) :
  colour_outer (bs_size s) graph 0 (mkColourState s 0 po pb) = (colour, st) ->
  colour_class_order graph s po pb = (cs_p_order st, cs_p_bounds st).
Proof. intros H. unfold colour_class_order. now rewrite H. Qed.

Lemma colour_class_order_ordering (graph : BitGraph) (s : Z) (po pb : list Z) :
  length po = nbits -> length pb = nbits ->
  ordering graph s po pb (fst (colour_class_order graph s po pb))
    (snd (colour_class_order graph s po pb)).
Proof.
  intros Hlo Hlb.
  destruct (colour_class_order_sorted graph s po pb Hlb) as [Hrange Hsorted].
  destruct (colour_outer (bs_size s) graph 0 (mkColourState s 0 po pb))
    as [colour st] eqn:Hrun.
  rewrite (colour_class_order_eq graph s po pb colour st Hrun) in *.
  cbn [fst snd] in *.
  destruct (colour_class_order_placed graph s po pb Hlo Hlb colour st Hrun)
    as (P1 & P2 & P3 & P4).
  destruct (colour_class_order_counters graph s po pb Hlb colour st Hrun)
    as (He & Hi & _ & _ & (_ & _ & C3 & _)).
  clear Hrun.
  pose proof (bs_empty_members _ He) as Hnil.
  constructor.
  - split; assumption.
  - unfold written in P2. rewrite Hnil, app_nil_r, Hi in P2.
    rewrite bs_popcount_size, Nat2Z.id in P2. exact P2.
  - intros j Hj. apply P3. rewrite Hi. exact Hj.
  - exact Hrange.
  - exact Hsorted.
  - intros j1 j2 Hj1 Hj2. apply P4; [exact Hj1|rewrite Hi; exact Hj2].
Qed.

(** ** The generator over its candidates *)

Lemma In_take_cell (l : list Z) (n : nat) (x : Z) :
  (n <= length l)%nat ->
  In x (take n l) <-> exists j, 0 <= j < Z.of_nat n /\ x = cell l j.
Proof.
  intros Hn. split.
  - intros Hin. apply (In_nth _ _ 0) in Hin. destruct Hin as (i & Hi & Hx).
    rewrite length_take in Hi.
    exists (Z.of_nat i). split; [lia|].
    unfold cell. rewrite Nat2Z.id, <- Hx.
    rewrite nth_firstn.
    destruct (i <? n)%nat eqn:E; [reflexivity|].
    apply Nat.ltb_ge in E. lia.
  - intros (j & Hj & ->). unfold cell.
    replace (List.nth (Z.to_nat j) l 0) with (List.nth (Z.to_nat j) (take n l) 0).
    + apply nth_In. rewrite length_take. lia.
    + rewrite nth_firstn.
      destruct (Z.to_nat j <? n)%nat eqn:E; [reflexivity|].
      apply Nat.ltb_ge in E. lia.
Qed.

Lemma NoDup_take_cell (l : list Z) (n : nat) (j1 j2 : Z) :
  (n <= length l)%nat -> List.NoDup (take n l) ->
  0 <= j1 < Z.of_nat n -> 0 <= j2 < Z.of_nat n ->
  cell l j1 = cell l j2 -> j1 = j2.
Proof.
  intros Hn Hnd H1 H2 Heq.
  assert (Hc : forall j, 0 <= j < Z.of_nat n ->
            cell l j = List.nth (Z.to_nat j) (take n l) 0).
  { intros j Hj. unfold cell. rewrite nth_firstn.
    destruct (Z.to_nat j <? n)%nat eqn:E; [reflexivity|].
    apply Nat.ltb_ge in E. lia. }
  rewrite (Hc j1 H1), (Hc j2 H2) in Heq.
  apply (proj1 (NoDup_nth (take n l) 0) Hnd) in Heq;
    rewrite ?length_take; lia.
Qed.

Section Ordering.

Variables (graph : BitGraph) (s : Z) (po pb order class : list Z).
Hypothesis Hord : ordering graph s po pb order class.

Lemma ordering_size : (bs_size s <= length order)%nat.
Proof.
  destruct (ord_length _ _ _ _ _ _ Hord) as [-> _]. apply bs_size_le.
Qed.

Lemma ordering_member (x : Z) :
  In x (bs_members s) <-> exists j, 0 <= j < bs_popcount s /\ x = cell order j.
Proof.
  rewrite bs_popcount_size, <- (In_take_cell order (bs_size s) x ordering_size).
  split; apply Permutation_in;
    [symmetry|]; apply (ord_perm _ _ _ _ _ _ Hord).
Qed.

Lemma ordering_inj (j1 j2 : Z) :
  0 <= j1 < bs_popcount s -> 0 <= j2 < bs_popcount s ->
  cell order j1 = cell order j2 -> j1 = j2.
Proof.
  rewrite bs_popcount_size.
  apply (NoDup_take_cell order (bs_size s)); [apply ordering_size|].
  apply (Permutation_NoDup (Permutation_sym (ord_perm _ _ _ _ _ _ Hord))).
  apply bs_members_NoDup.
Qed.

End Ordering.

Lemma GenNode_new_fields (uo uc : list Z) (graph : BitGraph) (n : MCNode) :
  p_order (GenNode_new uo uc graph n)
  = fst (colour_class_order graph (remaining n) uo uc)
  /\ colourClass (GenNode_new uo uc graph n)
     = snd (colour_class_order graph (remaining n) uo uc)
  /\ childSol (GenNode_new uo uc graph n) = sol n
  /\ childBnd (GenNode_new uo uc graph n) = size n + 1
  /\ p (GenNode_new uo uc graph n) = remaining n
  /\ v (GenNode_new uo uc graph n) = bs_popcount (remaining n) - 1
  /\ numChildren (GenNode_new uo uc graph n) = bs_popcount (remaining n).
Proof.
  unfold GenNode_new.
  destruct (colour_class_order graph (remaining n) uo uc) as [o c].
  cbn [p_order colourClass childSol childBnd p v numChildren fst snd].
  repeat split.
Qed.

Lemma In_filter_ne (l : list Z) (c x : Z) :
  In x (List.filter (fun i => negb (c =? i)) l) <-> In x l /\ x <> c.
Proof.
  rewrite List.filter_In, negb_true_iff, Z.eqb_neq. intuition congruence.
Qed.

(** The generator after [k] calls of [next]: only [p] and [v] have changed;
    [p] has lost the vertices of the last [k] cells up to [v]. *)
Lemma after_nexts_state (graph : BitGraph) (k : nat) :
  forall g,
    p_order (after_nexts graph k g) = p_order g
    /\ childSol (after_nexts graph k g) = childSol g
    /\ numChildren (after_nexts graph k g) = numChildren g
    /\ (forall x, In x (bs_members (p (after_nexts graph k g))) <->
          In x (bs_members (p g))
          /\ forall i, (i < k)%nat -> x <> cell (p_order g) (v g - Z.of_nat i)).
Proof.
  induction k as [|k IH]; intros g.
  - cbn [after_nexts]. repeat split; try tauto. intros i Hi. lia.
  - cbn [after_nexts]. destruct (IH (snd (next graph g))) as (H1 & H2 & H3 & H4).
    rewrite H1, H2, H3. cbn [next snd p_order childSol numChildren].
    split; [reflexivity|]. split; [reflexivity|]. split; [reflexivity|].
    intros x. rewrite H4. cbn [next snd p v p_order].
    rewrite bs_members_unset, In_filter_ne. split.
    + intros [[Hx Hne] Hall]. split; [exact Hx|]. intros i Hi.
      destruct i as [|i].
      * now rewrite Z.sub_0_r.
      * replace (v g - Z.of_nat (S i)) with (v g - 1 - Z.of_nat i) by lia.
        apply Hall. lia.
    + intros [Hx Hall]. split; [split; [exact Hx|]|].
      * specialize (Hall 0%nat ltac:(lia)). now rewrite Z.sub_0_r in Hall.
      * intros i Hi.
        replace (v g - 1 - Z.of_nat i) with (v g - Z.of_nat (S i)) by lia.
        apply Hall. lia.
Qed.

Lemma next_child_eq (graph : BitGraph) (k : nat) (g : GenNode) :
  next_child graph k g
  = mkMCNode
      (mkMCSol (members (childSol g) ++ [cell (p_order g) (v g - Z.of_nat k)])
         (s32 (u32 (cell (colourClass g) (v g - Z.of_nat k) - 1))))
      (childBnd g)
      (intersect_with_row graph (cell (p_order g) (v g - Z.of_nat k))
         (p (after_nexts graph k g))).
Proof.
  unfold next_child.
  destruct (after_nexts_fields graph k g) as (F1 & F2 & F3).
  destruct (after_nexts_state graph k g) as (S1 & S2 & _).
  cbn [next fst]. now rewrite F1, F2, F3, S1, S2.
Qed.

Lemma bs_members_row (graph : BitGraph) (x s : Z) (y : Z) :
  In y (bs_members (intersect_with_row graph x s))
  <-> In y (bs_members s) /\ adjacent graph x y = true.
Proof.
  unfold bs_members, intersect_with_row, adjacent.
  rewrite !List.filter_In, Z.land_spec, andb_true_iff. tauto.
Qed.

Lemma bs_empty_iff (x : Z) :
  bs_empty x = true <-> forall y, ~ In y (bs_members x).
Proof.
  unfold bs_empty. destruct (bs_members x) as [|a l]; split; intros H.
  - intros y [].
  - reflexivity.
  - discriminate.
  - exfalso. apply (H a). now left.
Qed.

(** The vertex a child adds to the solution of its parent. *)
Definition newMember (c : MCNode) : Z := List.last (members (sol c)) (-1).

Section Children.

Variables (uo uc : list Z) (graph : BitGraph) (n : MCNode).
Hypothesis Hlo : length uo = nbits.
Hypothesis Hlc : length uc = nbits.

Let g0 : GenNode := GenNode_new uo uc graph n.
Let order : list Z := fst (colour_class_order graph (remaining n) uo uc).
Let class : list Z := snd (colour_class_order graph (remaining n) uo uc).
Let pop : Z := bs_popcount (remaining n).

Lemma children_ordering : ordering graph (remaining n) uo uc order class.
Proof. now apply colour_class_order_ordering. Qed.

Lemma pop_range : 0 <= pop <= 512.
Proof.
  unfold pop. rewrite bs_popcount_size.
  pose proof (bs_size_le (remaining n)) as H.
  apply Nat2Z.inj_le in H. change (Z.of_nat nbits) with 512 in H. lia.
Qed.

(** The candidates the generator still holds after [k] calls of [next]: the
    vertices of the first [popcount - k] cells of [p_order]. *)
Lemma candidates_left (k : nat) (x : Z) :
  In x (bs_members (p (after_nexts graph k g0)))
  <-> exists j, 0 <= j < pop - Z.of_nat k /\ x = cell order j.
Proof.
  destruct (GenNode_new_fields uo uc graph n)
    as (F1 & _ & _ & _ & F5 & F6 & _).
  fold g0 order pop in F1, F5, F6.
  destruct (after_nexts_state graph k g0) as (_ & _ & _ & H4).
  rewrite H4, F1, F5, F6, (ordering_member _ _ _ _ _ _ children_ordering).
  fold pop. split.
  - intros [(j & Hj & ->) Hall]. exists j. split; [|reflexivity].
    destruct (Z_lt_le_dec j (pop - Z.of_nat k)) as [Hlt|Hge]; [lia|].
    exfalso. apply (Hall (Z.to_nat (pop - 1 - j)) ltac:(lia)).
    f_equal. lia.
  - intros (j & Hj & ->). split; [exists j; split; [lia|reflexivity]|].
    intros i Hi Heq.
    apply (ordering_inj _ _ _ _ _ _ children_ordering) in Heq;
      fold pop; lia.
Qed.

Lemma newMember_next_child (k : nat) :
  newMember (next_child graph k g0) = cell order (pop - 1 - Z.of_nat k)
  /\ members (sol (next_child graph k g0))
     = members (sol n) ++ [cell order (pop - 1 - Z.of_nat k)]
  /\ size (next_child graph k g0) = size n + 1
  /\ remaining (next_child graph k g0)
     = intersect_with_row graph (cell order (pop - 1 - Z.of_nat k))
         (p (after_nexts graph k g0)).
Proof.
  destruct (GenNode_new_fields uo uc graph n)
    as (F1 & _ & F3 & F4 & _ & F6 & _).
  fold g0 order pop in F1, F3, F4, F6.
  rewrite next_child_eq, F1, F3, F4, F6. unfold newMember.
  cbn [sol members size remaining]. rewrite List.last_last.
  repeat split.
Qed.

Lemma colours_next_child (k : nat) :
  (Z.of_nat k < pop) ->
  colours (sol (next_child graph k g0))
  = cell class (pop - 1 - Z.of_nat k) - 1
  /\ 1 <= cell class (pop - 1 - Z.of_nat k) <= 512.
Proof.
  intros Hk.
  destruct (GenNode_new_fields uo uc graph n)
    as (_ & F2 & _ & _ & _ & F6 & _).
  fold g0 class pop in F2, F6.
  pose proof (ord_range _ _ _ _ _ _ children_ordering
                (pop - 1 - Z.of_nat k)) as Hr.
  fold pop in Hr. change (Z.of_nat nbits) with 512 in Hr.
  specialize (Hr ltac:(lia)).
  rewrite next_child_eq, F2, F6. cbn [sol colours].
  rewrite u32_small, s32_small by lia. split; [reflexivity|exact Hr].
Qed.

End Children.

(** ** What colour_class_order and the generator guarantee *)

(** X7: colour_class_order writes the first [popcount(p)] cells of both arrays
    and no other cell; the written cells of [p_order] hold the members of [p],
    each once. *)
Theorem colour_class_order_fills (graph : BitGraph) (s : Z) (po pb : list Z) :
  length po = nbits -> length pb = nbits ->
  Permutation (take (bs_size s) (fst (colour_class_order graph s po pb)))
    (bs_members s)
  /\ (forall j, bs_popcount s <= j ->
        cell (fst (colour_class_order graph s po pb)) j = cell po j
        /\ cell (snd (colour_class_order graph s po pb)) j = cell pb j)
  /\ length (fst (colour_class_order graph s po pb)) = nbits
  /\ length (snd (colour_class_order graph s po pb)) = nbits.
Proof.
  intros Hlo Hlb.
  destruct (colour_class_order_ordering graph s po pb Hlo Hlb)
    as [[L1 L2] Hperm Hrest _ _ _].
  split; [exact Hperm|]. split; [exact Hrest|]. split; assumption.
Qed.

(** X8: the colour classes are independent sets: two written cells with the
    same colour hold vertices with no edge from the earlier to the later
    one. *)
Theorem colour_classes_independent (graph : BitGraph) (s : Z)
  (po pb : list Z) (j1 j2 : Z) :
  length po = nbits -> length pb = nbits ->
  0 <= j1 < j2 -> j2 < bs_popcount s ->
  cell (snd (colour_class_order graph s po pb)) j1
  = cell (snd (colour_class_order graph s po pb)) j2 ->
  adjacent graph (cell (fst (colour_class_order graph s po pb)) j1)
    (cell (fst (colour_class_order graph s po pb)) j2) = false.
Proof.
  intros Hlo Hlb H1 H2.
  apply (ord_independent _ _ _ _ _ _
           (colour_class_order_ordering graph s po pb Hlo Hlb)); assumption.
Qed.

(** X9: a generator has one child per candidate: the vertices its
    [numChildren] successive calls of [next] add are the members of
    [remaining], each once, and after these calls its set [p] is empty and
    [v] is [-1]. *)
Theorem next_hands_out_each_candidate (uo uc : list Z) (graph : BitGraph)
  (n : MCNode) :
  length uo = nbits -> length uc = nbits ->
  numChildren (GenNode_new uo uc graph n) = Z.of_nat (bs_size (remaining n))
  /\ Permutation
       (map (fun k => newMember (next_child graph k (GenNode_new uo uc graph n)))
          (seq 0 (bs_size (remaining n))))
       (bs_members (remaining n))
  /\ bs_empty (p (after_nexts graph (bs_size (remaining n))
                    (GenNode_new uo uc graph n))) = true
  /\ v (after_nexts graph (bs_size (remaining n)) (GenNode_new uo uc graph n))
     = -1.
Proof.
  intros Hlo Hlc.
  pose proof (children_ordering uo uc graph n Hlo Hlc) as Hord.
  cbv zeta in Hord.
  destruct (GenNode_new_fields uo uc graph n)
    as (_ & _ & _ & _ & _ & F6 & F7).
  split; [rewrite F7; apply bs_popcount_size|]. split; [|split].
  - apply Permutation.NoDup_Permutation.
    + apply NoDup_map_NoDup_ForallPairs; [|apply seq_NoDup].
      intros k1 k2 Hk1 Hk2.
      destruct (newMember_next_child uo uc graph n k1) as [-> _].
      destruct (newMember_next_child uo uc graph n k2) as [-> _].
      apply in_seq in Hk1, Hk2. intros Heq.
      apply (ordering_inj _ _ _ _ _ _ Hord) in Heq;
        rewrite ?bs_popcount_size; lia.
    + apply bs_members_NoDup.
    + intros x. rewrite (ordering_member _ _ _ _ _ _ Hord), in_map_iff.
      rewrite bs_popcount_size. split.
      * intros (k & <- & Hk). apply in_seq in Hk.
        destruct (newMember_next_child uo uc graph n k) as [-> _].
        eexists. split; [|reflexivity]. rewrite bs_popcount_size. lia.
      * intros (j & Hj & ->).
        exists (Z.to_nat (Z.of_nat (bs_size (remaining n)) - 1 - j)). split.
        -- destruct (newMember_next_child uo uc graph n
                       (Z.to_nat (Z.of_nat (bs_size (remaining n)) - 1 - j)))
             as [-> _].
           f_equal. rewrite bs_popcount_size. lia.
        -- apply in_seq. lia.
  - apply bs_empty_iff. intros y Hy.
    apply (candidates_left uo uc graph n Hlo Hlc) in Hy.
    destruct Hy as (j & Hj & _). rewrite bs_popcount_size in Hj. lia.
  - destruct (after_nexts_fields graph (bs_size (remaining n))
                (GenNode_new uo uc graph n)) as (-> & _ & _).
    rewrite F6, bs_popcount_size. lia.
Qed.

(** Every member of [l] has an edge to every later member. *)
Definition linked (graph : BitGraph) (l : list Z) : Prop :=
  forall (i j : nat) (a b : Z),
    (i < j)%nat -> l !! i = Some a -> l !! j = Some b ->
    adjacent graph a b = true.

(** What the search keeps for every node: [size] counts the members of the
    solution, the members are linked, and every member has an edge to every
    candidate. *)
Definition cliqueNode (graph : BitGraph) (n : MCNode) : Prop :=
  size n = Z.of_nat (length (members (sol n)))
  /\ linked graph (members (sol n))
  /\ (forall a x, In a (members (sol n)) -> In x (bs_members (remaining n)) ->
        adjacent graph a x = true).

(** The children of a clique node are clique nodes.  A child adds one
    candidate [x] of its parent to the solution; its own candidates are
    candidates of the parent that [x] has an edge to. *)
Lemma next_child_clique_step (uo uc : list Z) (graph : BitGraph)
  (n : MCNode) (k : nat) :
  length uo = nbits -> length uc = nbits ->
  (k < bs_size (remaining n))%nat ->
  cliqueNode graph n ->
  cliqueNode graph (next_child graph k (GenNode_new uo uc graph n))
  /\ In (newMember (next_child graph k (GenNode_new uo uc graph n)))
        (bs_members (remaining n))
  /\ members (sol (next_child graph k (GenNode_new uo uc graph n)))
     = members (sol n)
       ++ [newMember (next_child graph k (GenNode_new uo uc graph n))]
  /\ (forall y,
        In y (bs_members
                (remaining (next_child graph k (GenNode_new uo uc graph n)))) ->
        In y (bs_members (remaining n))
        /\ adjacent graph
             (newMember (next_child graph k (GenNode_new uo uc graph n))) y
           = true).
Proof.
  intros Hlo Hlc Hk (Hsize & Hlinked & Hcands).
  pose proof (children_ordering uo uc graph n Hlo Hlc) as Hord.
  cbv zeta in Hord.
  destruct (newMember_next_child uo uc graph n k) as (Hx & Hm & Hs & Hr).
  cbv zeta in Hx, Hm, Hs, Hr.
  set (c := next_child graph k (GenNode_new uo uc graph n)) in *.
  rewrite <- Hx in Hm, Hr.
  set (x := newMember c) in *.
  assert (Hxin : In x (bs_members (remaining n))).
  { apply (ordering_member _ _ _ _ _ _ Hord).
    eexists. split; [|exact Hx]. rewrite bs_popcount_size. lia. }
  assert (Hrem : forall y, In y (bs_members (remaining c)) ->
            In y (bs_members (remaining n)) /\ adjacent graph x y = true).
  { intros y Hy. rewrite Hr in Hy. apply bs_members_row in Hy.
    destruct Hy as [Hy Hadj]. split; [|exact Hadj].
    destruct (after_nexts_state graph k (GenNode_new uo uc graph n))
      as (_ & _ & _ & H4).
    apply H4 in Hy. destruct Hy as [Hy _].
    destruct (GenNode_new_fields uo uc graph n)
      as (_ & _ & _ & _ & F5 & _).
    now rewrite F5 in Hy. }
  split; [|split; [exact Hxin|split; [exact Hm|exact Hrem]]].
  split; [|split].
  - rewrite Hs, Hm, length_app, Hsize. cbn [length]. lia.
  - rewrite Hm. intros i j a b Hij Ha Hb.
    assert (Hi : (i < length (members (sol n)))%nat).
    { apply lookup_lt_Some in Hb. rewrite length_app in Hb.
      cbn [length] in Hb. lia. }
    rewrite lookup_app_l in Ha by exact Hi.
    destruct (Nat.lt_ge_cases j (length (members (sol n)))) as [Hj|Hj].
    + rewrite lookup_app_l in Hb by exact Hj.
      exact (Hlinked i j a b Hij Ha Hb).
    + rewrite lookup_app_r in Hb by exact Hj.
      apply list_lookup_singleton_Some in Hb. destruct Hb as [_ <-].
      apply Hcands; [|exact Hxin].
      apply list_elem_of_In, list_elem_of_lookup. now exists i.
  - intros a y Ha Hy. apply Hrem in Hy. destruct Hy as [Hy Hadj].
    rewrite Hm in Ha. apply in_app_or in Ha. destruct Ha as [Ha|[<-|[]]].
    + now apply Hcands.
    + exact Hadj.
Qed.

(** The nodes of the search tree below [n]: [n] itself and, for every child
    a generator of a node hands out, the nodes below that child.  The arrays a
    generator starts from may hold anything. *)
Inductive generated (graph : BitGraph) (n : MCNode) : MCNode -> Prop :=
| generated_here : generated graph n n
| generated_below (uo uc : list Z) (k : nat) (m d : MCNode) :
    generated graph n m ->
    length uo = nbits -> length uc = nbits ->
    (k < bs_size (remaining m))%nat ->
    d = next_child graph k (GenNode_new uo uc graph m) ->
    generated graph n d.

(** X10: every node of the search tree below a clique node is a clique node:
    [size] is the number of members of its solution, the members are linked
    and have an edge to every candidate left.  The solution of a node extends
    the solution of its ancestor by candidates of the ancestor, and its
    candidates are candidates of the ancestor.  The root node of [hpx_main]
    (no members, size 0) is a clique node. *)
Theorem generated_nodes_are_cliques (graph : BitGraph) (n d : MCNode) :
  (forall cands, cliqueNode graph (mkMCNode (mkMCSol [] 0) 0 cands))
  /\ (cliqueNode graph n -> generated graph n d ->
      cliqueNode graph d
      /\ (exists added,
            members (sol d) = members (sol n) ++ added
            /\ forall x, In x added -> In x (bs_members (remaining n)))
      /\ (forall y, In y (bs_members (remaining d)) ->
            In y (bs_members (remaining n)))).
Proof.
  split.
  { intros cands. split; [reflexivity|]. split.
    - intros i j a b _ Ha. cbn [sol members] in Ha.
      rewrite lookup_nil in Ha. discriminate.
    - intros a x []. }
  intros Hn Hgen.
  induction Hgen as [|uo uc k m d Hgen IH Hlo Hlc Hk ->].
  - split; [exact Hn|]. split; [|tauto].
    exists []. split; [now rewrite app_nil_r|]. intros x [].
  - destruct IH as (Hm & (added & Hadd & Hin) & Hsub).
    destruct (next_child_clique_step uo uc graph m k Hlo Hlc Hk Hm)
      as (Hd & Hx & Hmem & Hrem).
    split; [exact Hd|]. split.
    + exists (added
              ++ [newMember (next_child graph k (GenNode_new uo uc graph m))]).
      split; [now rewrite Hmem, Hadd, app_assoc|].
      intros x Hxin. apply in_app_or in Hxin.
      destruct Hxin as [Hxin|[<-|[]]]; [now apply Hin|now apply Hsub].
    + intros y Hy. apply Hsub. now apply Hrem.
Qed.

Lemma indexes_of (order : list Z) (P : Z -> Prop) (C : list Z) :
  (forall y, In y C -> exists j, P j /\ y = cell order j) ->
  exists J, C = map (cell order) J /\ (forall j, In j J -> P j).
Proof.
  induction C as [|y C IH]; intros H.
  - exists []. split; [reflexivity|]. intros j [].
  - destruct (H y ltac:(now left)) as (j & Hj & ->).
    destruct IH as (J & -> & HJ).
    { intros z Hz. apply H. now right. }
    exists (j :: J). split; [reflexivity|].
    intros j' [<-|Hj']; [exact Hj|now apply HJ].
Qed.

Lemma colours_bounded (cols : list Z) (c : Z) :
  List.NoDup cols -> (forall x, In x cols -> 1 <= x <= c) ->
  Z.of_nat (length cols) <= Z.max 0 c.
Proof.
  intros Hnd Hr.
  assert (Hincl : incl cols (map Z.of_nat (seq 1 (Z.to_nat c)))).
  { intros x Hx. specialize (Hr x Hx). apply in_map_iff.
    exists (Z.to_nat x). split; [lia|]. apply in_seq. lia. }
  apply (NoDup_incl_length Hnd) in Hincl.
  rewrite length_map, length_seq in Hincl. lia.
Qed.

(** X11: the bound of a child is admissible.  Let [x] be the vertex the child
    adds; any set [C] of candidates of the child that forms a clique together
    with [x] has at most [colours] members, so no solution below the child is
    larger than its [upperBound]. *)
Theorem upperBound_admissible (uo uc : list Z) (graph : BitGraph) (n : MCNode)
  (k : nat) (C : list Z) :
  length uo = nbits -> length uc = nbits ->
  (k < bs_size (remaining n))%nat ->
  List.NoDup (newMember (next_child graph k (GenNode_new uo uc graph n)) :: C) ->
  (forall a b,
     In a (newMember (next_child graph k (GenNode_new uo uc graph n)) :: C) ->
     In b (newMember (next_child graph k (GenNode_new uo uc graph n)) :: C) ->
     a <> b -> adjacent graph a b = true) ->
  (forall y, In y C ->
     In y (bs_members
             (remaining (next_child graph k (GenNode_new uo uc graph n))))) ->
  Z.of_nat (length C)
  <= colours (sol (next_child graph k (GenNode_new uo uc graph n)))
  /\ size (next_child graph k (GenNode_new uo uc graph n)) + Z.of_nat (length C)
     <= upperBound graph (next_child graph k (GenNode_new uo uc graph n)).
Proof.
  intros Hlo Hlc Hk Hnd Hclique Hsub.
  pose proof (children_ordering uo uc graph n Hlo Hlc) as Hord.
  cbv zeta in Hord.
  destruct (newMember_next_child uo uc graph n k) as (Hx & _ & _ & Hr).
  destruct (colours_next_child uo uc graph n Hlo Hlc k) as (Hcol & Hrange).
  { cbv zeta. rewrite bs_popcount_size. lia. }
  cbv zeta in Hx, Hr, Hcol, Hrange.
  set (c := next_child graph k (GenNode_new uo uc graph n)) in *.
  set (order := fst (colour_class_order graph (remaining n) uo uc)) in *.
  set (class := snd (colour_class_order graph (remaining n) uo uc)) in *.
  rewrite bs_popcount_size in Hx, Hr, Hcol, Hrange.
  set (N := Z.of_nat (bs_size (remaining n))) in *.
  set (j0 := N - 1 - Z.of_nat k) in *.
  set (x := newMember c) in *.
  assert (HN : bs_popcount (remaining n) = N) by apply bs_popcount_size.
  assert (Hj0 : 0 <= j0 < N) by (unfold j0, N; lia).
  (* every member of C sits in an earlier cell with a smaller colour *)
  assert (Hcell : forall y, In y C ->
            exists j, (0 <= j < j0 /\ 1 <= cell class j < cell class j0)
                      /\ y = cell order j).
  { intros y Hy. pose proof (Hsub y Hy) as Hyr.
    rewrite Hr in Hyr. apply bs_members_row in Hyr. destruct Hyr as [Hyp _].
    apply (candidates_left uo uc graph n Hlo Hlc) in Hyp.
    destruct Hyp as (j & Hj & ->). fold order in Hnd, Hclique, Hy |- *.
    rewrite HN in Hj. fold N j0 in Hj.
    assert (Hne : cell order j <> x).
    { intros Heq. inversion Hnd as [|? ? Hnotin _]; subst.
      apply Hnotin. fold x. now rewrite <- Heq. }
    assert (Hjne : j <> j0) by (intros ->; apply Hne; now rewrite Hx).
    exists j. split; [|reflexivity].
    assert (Hjlt : 0 <= j < j0) by lia. split; [exact Hjlt|].
    pose proof (ord_range _ _ _ _ _ _ Hord j) as R1. rewrite HN in R1.
    specialize (R1 ltac:(lia)).
    pose proof (ord_sorted _ _ _ _ _ _ Hord j j0) as R2. rewrite HN in R2.
    specialize (R2 ltac:(lia) ltac:(lia)). fold class in R1, R2.
    destruct (Z.eq_dec (cell class j) (cell class j0)) as [Heq|Hneq]; [|lia].
    exfalso.
    pose proof (ord_independent _ _ _ _ _ _ Hord j j0) as R3.
    rewrite HN in R3. specialize (R3 ltac:(lia) ltac:(lia) Heq).
    fold order in R3. rewrite <- Hx in R3.
    rewrite Hclique in R3; [discriminate| now right | now left | exact Hne]. }
  destruct (indexes_of order _ C Hcell) as (J & HC & HJ).
  assert (HndJ : List.NoDup J).
  { apply (NoDup_map_inv (cell order)). rewrite <- HC.
    now inversion Hnd. }
  assert (Hlen : Z.of_nat (length C) <= cell class j0 - 1).
  { rewrite HC, length_map, <- (length_map (cell class)).
    etransitivity;
      [apply (colours_bounded _ (cell class j0 - 1))|lia].
    - apply NoDup_map_NoDup_ForallPairs; [|exact HndJ].
      intros j1 j2 Hj1 Hj2 Heq.
      destruct (Z.eq_dec j1 j2) as [E|Hne]; [exact E|exfalso].
      pose proof (HJ j1 Hj1) as [B1 _]. pose proof (HJ j2 Hj2) as [B2 _].
      assert (Hin1 : In (cell order j1) (x :: C))
        by (right; rewrite HC; now apply in_map).
      assert (Hin2 : In (cell order j2) (x :: C))
        by (right; rewrite HC; now apply in_map).
      assert (Hdiff : cell order j1 <> cell order j2).
      { intros E. apply Hne.
        apply (ordering_inj _ _ _ _ _ _ Hord); rewrite ?HN; lia || exact E. }
      destruct (Z_lt_le_dec j1 j2) as [Hlt|Hge].
      + pose proof (ord_independent _ _ _ _ _ _ Hord j1 j2) as R.
        rewrite HN in R. specialize (R ltac:(lia) ltac:(lia) Heq).
        fold order in R.
        rewrite (Hclique _ _ Hin1 Hin2 Hdiff) in R. discriminate.
      + pose proof (ord_independent _ _ _ _ _ _ Hord j2 j1) as R.
        rewrite HN in R.
        specialize (R ltac:(lia) ltac:(lia) (eq_sym Heq)).
        fold order in R.
        rewrite (Hclique _ _ Hin2 Hin1 (not_eq_sym Hdiff)) in R.
        discriminate.
    - intros col Hcol'. apply in_map_iff in Hcol'.
      destruct Hcol' as (j & <- & Hj). destruct (HJ j Hj) as [_ B]. lia. }
  split; [rewrite Hcol; exact Hlen|].
  unfold upperBound. rewrite Hcol. lia.
Qed.

(** ** generateChoices of the sequential application *)

(** [hpx::util::tuple<MCSol, int, BitSet<NWORDS> >], the node type of the
    sequential application. *)
Definition MCTuple : Type := (MCSol * Z * Z)%type.

Definition toNode (t : MCTuple) : MCNode :=
  mkMCNode (fst (fst t)) (snd (fst t)) (snd t).

(** The loop [for (int v = p.popcount() - 1 ; v >= 0 ; --v)]. *)
Fixpoint generateLoop (fuel : nat) (graph : BitGraph) (n : MCTuple)
  (p_order colourClass : list Z) (v p : Z) (res : list MCTuple)
  : list MCTuple :=
  match fuel with
  | O => res
  | S fuel' =>
    if 0 <=? v then
      let childSol :=
        mkMCSol (members (fst (fst n)) ++ [cell p_order v])
                (s32 (u32 (cell colourClass v - 1))) in
      let childBnd := snd (fst n) + 1 in
      let childCands := intersect_with_row graph (cell p_order v) p in
      generateLoop fuel' graph n p_order colourClass (v - 1)
        (bs_unset p (cell p_order v))
        (res ++ [(childSol, childBnd, childCands)])
    else res
  end.

(** [generateChoices(graph, n)]; the loop runs once per member of [p]. *)
Definition generateChoices (uninit_order uninit_class : list Z)
  (graph : BitGraph) (n : MCTuple) : list MCTuple :=
  let p := snd n in
  let '(p_order, colourClass) :=
    colour_class_order graph p uninit_order uninit_class in
  generateLoop (bs_size p) graph n p_order colourClass (bs_popcount p - 1) p [].

Lemma generateLoop_nexts (graph : BitGraph) (t : MCTuple) (fuel : nat) :
  forall (g : GenNode) (res : list MCTuple),
    childSol g = fst (fst t) -> childBnd g = snd (fst t) + 1 ->
    Z.of_nat fuel <= v g + 1 ->
    map toNode
      (generateLoop fuel graph t (p_order g) (colourClass g) (v g) (p g) res)
    = map toNode res
      ++ map (fun k => next_child graph k g) (seq 0 fuel).
Proof.
  induction fuel as [|fuel IH]; intros g res Hs Hb Hv.
  - cbn [generateLoop seq map]. now rewrite app_nil_r.
  - cbn [generateLoop].
    destruct (0 <=? v g) eqn:E; [|apply Z.leb_gt in E; lia].
    pose proof (IH (snd (next graph g))
                  (res ++ [(mkMCSol (members (fst (fst t))
                                      ++ [cell (p_order g) (v g)])
                              (s32 (u32 (cell (colourClass g) (v g) - 1))),
                            snd (fst t) + 1,
                            intersect_with_row graph (cell (p_order g) (v g))
                              (p g))])) as IH'.
    cbn [next snd p_order colourClass v p childSol childBnd] in IH'.
    rewrite IH' by (assumption || lia).
    rewrite map_app, <- app_assoc. f_equal.
    cbn [seq map]. rewrite <- seq_shift, map_map. f_equal.
    unfold toNode, next_child. cbn [after_nexts next fst snd map].
    now rewrite Hs, Hb.
Qed.

Lemma generateChoices_eq (uo uc : list Z) (graph : BitGraph) (t : MCTuple)
  (o c : list Z) :
  colour_class_order graph (snd t) uo uc = (o, c) ->
  generateChoices uo uc graph t
  = generateLoop (bs_size (snd t)) graph t o c (bs_popcount (snd t) - 1)
      (snd t) [].
Proof. intros H. unfold generateChoices. now rewrite H. Qed.

(** X12: generateChoices of the sequential application returns the children
    the generator of the parallel application hands out through successive
    calls of [next], in the same order. *)
Theorem generateChoices_is_next (uo uc : list Z) (graph : BitGraph)
  (t : MCTuple) :
  map toNode (generateChoices uo uc graph t)
  = map (fun k => next_child graph k (GenNode_new uo uc graph (toNode t)))
      (seq 0 (bs_size (snd t))).
Proof.
  destruct (colour_class_order graph (snd t) uo uc) as [o c] eqn:E.
  rewrite (generateChoices_eq uo uc graph t o c E).
  destruct (GenNode_new_fields uo uc graph (toNode t))
    as (F1 & F2 & F3 & F4 & F5 & F6 & _).
  assert (Er : remaining (toNode t) = snd t) by reflexivity.
  assert (Es : sol (toNode t) = fst (fst t)) by reflexivity.
  assert (Ez : size (toNode t) = snd (fst t)) by reflexivity.
  rewrite Er in F1, F2, F5, F6. rewrite Es in F3. rewrite Ez in F4.
  rewrite E in F1, F2. cbn [fst snd] in F1, F2.
  pose proof (generateLoop_nexts graph t (bs_size (snd t))
                (GenNode_new uo uc graph (toNode t)) [] F3 F4) as H.
  rewrite F1, F2, F5, F6 in H.
  rewrite H; [reflexivity|].
  rewrite bs_popcount_size. lia.
Qed.

(** ** The vertex order of orderGraphFromFile *)

(** The comparator handed to [std::sort]:
    [! (degrees[a] < degrees[b] || (degrees[a] == degrees[b] && a > b))]. *)
Definition degreeOrder (degrees : list Z) (a b : Z) : bool :=
  negb ((cell degrees a <? cell degrees b)
        || ((cell degrees a =? cell degrees b) && (b <? a))).

(** X13: the comparator of orderGraphFromFile holds of every vertex against
    itself, so it is not the strict ordering [std::sort] asks for.  On two
    different vertices it is the strict order by decreasing degree, ties
    broken by increasing vertex number, and exactly one of the two directions
    holds. *)
Theorem degreeOrder_reflexive (degrees : list Z) (a b : Z) :
  degreeOrder degrees a a = true
  /\ (a <> b ->
      (degreeOrder degrees a b = true
       <-> cell degrees b < cell degrees a
           \/ (cell degrees a = cell degrees b /\ a < b))
      /\ degreeOrder degrees b a = negb (degreeOrder degrees a b)).
Proof.
  unfold degreeOrder. split.
  - rewrite !Z.ltb_irrefl, andb_false_r. reflexivity.
  - intros Hne.
    destruct (cell degrees a <? cell degrees b) eqn:E1;
      destruct (cell degrees a =? cell degrees b) eqn:E2;
      destruct (b <? a) eqn:E3;
      destruct (cell degrees b <? cell degrees a) eqn:E4;
      destruct (cell degrees b =? cell degrees a) eqn:E5;
      destruct (a <? b) eqn:E6;
      rewrite ?Z.ltb_lt, ?Z.ltb_ge, ?Z.eqb_eq, ?Z.eqb_neq in *;
      cbn; split; try reflexivity; try lia;
      split; intros; try discriminate; try lia.
Qed.

Lemma degreeOrder_reflexive_witness :
  (degreeOrder [2; 3; 2] 0 2 = true
   <-> cell [2; 3; 2] 2 < cell [2; 3; 2] 0
       \/ (cell [2; 3; 2] 0 = cell [2; 3; 2] 2 /\ 0 < 2))
  /\ degreeOrder [2; 3; 2] 2 0 = negb (degreeOrder [2; 3; 2] 0 2).
Proof.
  apply (proj2 (degreeOrder_reflexive [2; 3; 2] 0 2)). discriminate.
Defined.

(** The root node of [hpx_main] is a clique node: no members, size 0. *)
Lemma cliqueNode_root (graph : BitGraph) (cands : Z) :
  cliqueNode graph (mkMCNode (mkMCSol [] 0) 0 cands).
Proof.
  split; [reflexivity|]. split.
  - intros i j a b _ Ha. cbn [sol members] in Ha.
    rewrite lookup_nil in Ha. discriminate.
  - intros a x [].
Qed.

(** ** The five-cycle again *)

Lemma blank_length : length blank = nbits.
Proof. apply repeat_length. Qed.

Lemma colour_class_order_fills_witness :
  Permutation (take (bs_size 31) (fst (colour_class_order cycle5 31 blank blank)))
    (bs_members 31).
Proof.
  exact (proj1 (colour_class_order_fills cycle5 31 blank blank
                  blank_length blank_length)).
Defined.

Lemma colour_classes_independent_witness :
  adjacent cycle5 (cell (fst (colour_class_order cycle5 31 blank blank)) 0)
    (cell (fst (colour_class_order cycle5 31 blank blank)) 1) = false.
Proof.
  apply (colour_classes_independent cycle5 31 blank blank 0 1
           blank_length blank_length).
  - lia.
  - vm_compute. reflexivity.
  - vm_compute. reflexivity.
Defined.

Lemma next_hands_out_each_candidate_witness :
  v (after_nexts cycle5 (bs_size (remaining cycle5_root))
       (GenNode_new blank blank cycle5 cycle5_root)) = -1.
Proof.
  exact (proj2 (proj2 (proj2
           (next_hands_out_each_candidate blank blank cycle5 cycle5_root
              blank_length blank_length)))).
Defined.

Example cycle5_children :
  map (fun k => newMember (next_child cycle5 k cycle5_gen)) (seq 0 5)
  = [4; 3; 1; 2; 0].
Proof. vm_compute. reflexivity. Qed.

Lemma generated_nodes_are_cliques_witness :
  cliqueNode cycle5
    (next_child cycle5 0 (GenNode_new blank blank cycle5 cycle5_root)).
Proof.
  refine (proj1 (proj2 (generated_nodes_are_cliques cycle5 cycle5_root
                          (next_child cycle5 0
                             (GenNode_new blank blank cycle5 cycle5_root)))
                   (cliqueNode_root cycle5 31) _)).
  apply (generated_below cycle5 cycle5_root blank blank 0 cycle5_root);
    [apply generated_here|apply blank_length|apply blank_length| |reflexivity].
  vm_compute. lia.
Defined.

Lemma upperBound_admissible_witness :
  size (next_child cycle5 0 (GenNode_new blank blank cycle5 cycle5_root))
  + Z.of_nat (length [0])
  <= upperBound cycle5
       (next_child cycle5 0 (GenNode_new blank blank cycle5 cycle5_root)).
Proof.
  refine (proj2 (upperBound_admissible blank blank cycle5 cycle5_root 0 [0]
                   blank_length blank_length _ _ _ _)).
  - vm_compute. lia.
  - vm_compute. constructor; [intros [H|[]]; discriminate H|].
    constructor; [intros []|constructor].
  - intros a b Ha Hb Hne. vm_compute in Ha, Hb.
    destruct Ha as [<-|[<-|[]]]; destruct Hb as [<-|[<-|[]]];
      try (exfalso; apply Hne; reflexivity); vm_compute; reflexivity.
  - intros y [<-|[]]. vm_compute. left. reflexivity.
Defined.

Example cycle5_first_child :
  newMember (next_child cycle5 0 cycle5_gen) = 4
  /\ bs_members (remaining (next_child cycle5 0 cycle5_gen)) = [0; 3]
  /\ upperBound cycle5 (next_child cycle5 0 cycle5_gen) = 3.
Proof. vm_compute. repeat split; reflexivity. Qed.

Example cycle5_generateChoices :
  map (fun t => (members (fst (fst t)), colours (fst (fst t)), snd (fst t),
                 bs_members (snd t)))
    (generateChoices blank blank cycle5 (mkMCSol [] 0, 0, 31))
  = [([4], 2, 1, [0; 3]); ([3], 1, 1, [2]); ([1], 1, 1, [0; 2]);
     ([2], 0, 1, []); ([0], 0, 1, [])].
Proof. vm_compute. reflexivity. Qed.

End MaxClique.

(* ================================================================== *)
(** * The Random skeleton *)
(* ================================================================== *)

Module RandomSkel.

Local Open Scope Z_scope.

(** [unsigned] arithmetic. *)
Definition u32 (x : Z) : Z := x mod 2 ^ 32.

Inductive ProcessNodeRet : Type := Continue | Prune | Break | Exit.

(** How a run of a loop ends in the model: with a result, with the fuel of
    the model used up, or with an access outside the generator stack (which
    the source does not check). *)
Inductive Outcome (A : Type) : Type :=
| Done (a : A)
| OutOfFuel
| StackOverflow.

Arguments Done {A} a.
Arguments OutOfFuel {A}.
Arguments StackOverflow {A}.

(** [API::Params<Bound>] (not in the sources at hand): the two fields expand
    reads. *)
Record Params : Type := mkParams {
  spawnProbability : Z;
  maxDepth : Z
}.

Section Skeleton.

Variables Space Node : Type.

(** The user's generator.  [numChildren] is set by its constructor; [next()]
    advances the rest of its state (as the generators of both applications of
    the repository do). *)
Variable GenState : Type.

Record Generator : Type := mkGenerator {
  numChildren : Z;
  gstate : GenState
}.

Variable Generator_new : Space -> Node -> Generator.
Variable Generator_next : GenState -> Node * GenState.

Definition next (g : Generator) : Node * Generator :=
  let '(c, s) := Generator_next (gstate g) in (c, mkGenerator (numChildren g) s).

(** [StackElem<Generator>]: a frame of the generator stack. *)
Record StackElem : Type := mkStackElem {
  node : Node;
  gen : Generator;
  seen : Z
}.

Definition StackElem_new (space : Space) (n : Node) : StackElem :=
  mkStackElem n (Generator_new space n) 0.

(** The template constants. *)
Variables isEnumeration isDecision isDepthBounded : bool.
Variable maxStackDepth : nat.

(** What a task shares with the rest of the search: registry, incumbent and
    enumerator.  [ProcessNode::processNode] and the enumerator are not in the
    sources at hand and are taken as parameters. *)
Variable World : Type.
Variable processNode : Params -> Space -> Node -> World -> ProcessNodeRet * World.
Variable accumulate : Node -> World -> World.
Variable stopSearch : World -> bool.

(** The values [rand()] returns, in the order of the calls. *)
Variable rand : nat -> Z.

(** What [createTask] hands to the work pool: the root of the subtree and its
    [childDepth]; the future it returns stands for the same task. *)
Record Task : Type := mkTask {
  taskChildDepth : Z;
  taskRoot : Node
}.

(** [createTask(childDepth, taskRoot)]: the task bound to its root, its child
    depth and a new promise.  The source also hands the task to the work pool
    at once; [runTasks] below moves the futures of a task into the pool when
    the task has run. *)
Definition createTask (childDepth : Z) (taskRoot : Node) : Task :=
  mkTask childDepth taskRoot.

(** The variables of expand.  [taken] is a ghost variable: the nodes this task
    has taken up, its root first and then every child it moved into. *)
Record ExpandState : Type := mkExpandState {
  genStack : list StackElem;
  stackDepth : Z;
  depth : Z;
  childFutures : list Task;
  world : World;
  randCalls : nat;
  taken : list Node
}.

(** The state after the spawn test changed the stack and the futures. *)
Definition withSpawned (st : ExpandState) (gs : list StackElem)
  (futs : list Task) : ExpandState :=
  mkExpandState gs (stackDepth st) (depth st) futs (world st) (randCalls st)
    (taken st).

(** The state after two more calls of [rand]. *)
Definition afterDraw (st : ExpandState) : ExpandState :=
  mkExpandState (genStack st) (stackDepth st) (depth st) (childFutures st)
    (world st) (S (S (randCalls st))) (taken st).

(** The [while] loop inside the spawn test: one task per remaining child of
    frame [i]. *)
Fixpoint spawnFrame (k : nat) (childDepth i : Z) (fr : StackElem)
  (futs : list Task) : StackElem * list Task :=
  match k with
  | O => (fr, futs)
  | S k' =>
    let '(c, g) := next (gen fr) in
    spawnFrame k' childDepth i (mkStackElem (node fr) g (seen fr + 1))
      (futs ++ [createTask (u32 (childDepth + i + 1)) c])
  end.

(** The [for] loop inside the spawn test, at index [i] with [k] indexes to
    go: the first frame below [stackDepth] with unseen children is emptied
    into tasks, and the loop is left. *)
Fixpoint spawnScan (k : nat) (childDepth i : Z) (st : ExpandState)
  : Outcome ExpandState :=
  match k with
  | O => Done st
  | S k' =>
    match genStack st !! Z.to_nat i with
    | None => StackOverflow
    | Some fr =>
      if seen fr <? numChildren (gen fr) then
        let '(fr', futs) :=
          spawnFrame (Z.to_nat (numChildren (gen fr) - seen fr)) childDepth i
            fr (childFutures st) in
        Done (withSpawned st (<[Z.to_nat i := fr']> (genStack st)) futs)
      else spawnScan k' childDepth (i + 1) st
    end
  end.

(** [unsigned sp = (rand()<<15)+rand();] with the calls of [rand] taken from
    left to right. *)
Definition draw (calls : nat) : Z :=
  u32 (Z.shiftl (rand calls) 15 + rand (S calls)).

(** The spawn test of one iteration (lines 93 to 107). *)
Definition spawnBlock (params : Params) (childDepth : Z) (st : ExpandState)
  : Outcome ExpandState :=
  if negb (spawnProbability params =? 0) then
    let sp := draw (randCalls st) in
    let st := afterDraw st in
    if sp <? 1073741824 ÷ spawnProbability params
    then spawnScan (Z.to_nat (stackDepth st)) childDepth 0 st
    else Done st
  else Done st.

Inductive IterResult : Type :=
| IterContinue (st : ExpandState)
| IterReturn (st : ExpandState)
| IterOverflow.

(** The rest of the iteration (lines 109 to 145): move into the next child of
    the top frame, or pop the frame. *)
Definition descendOrPop (params : Params) (space : Space) (st : ExpandState)
  : IterResult :=
  match genStack st !! Z.to_nat (stackDepth st) with
  | None => IterOverflow
  | Some fr =>
    if seen fr <? numChildren (gen fr) then
      let '(child, g) := next (gen fr) in
      match genStack st !! Z.to_nat (stackDepth st + 1) with
      | None => IterOverflow
      | Some up =>
        let gs :=
          <[Z.to_nat (stackDepth st + 1) := mkStackElem child (gen up) (seen up)]>
            (<[Z.to_nat (stackDepth st) := mkStackElem (node fr) g (seen fr + 1)]>
               (genStack st)) in
        let '(pn, w) := processNode params space child (world st) in
        let st1 := mkExpandState gs (stackDepth st) (depth st)
                     (childFutures st) w (randCalls st)
                     (taken st ++ [child]) in
        match pn with
        | Exit => IterReturn st1
        | Prune => IterContinue st1
        | Break =>
          IterContinue
            (mkExpandState gs (stackDepth st - 1) (u32 (depth st - 1))
               (childFutures st) w (randCalls st) (taken st ++ [child]))
        | Continue =>
          let childGen := Generator_new space child in
          let sd := stackDepth st + 1 in
          let d := u32 (depth st + 1) in
          if isDepthBounded && (d =? maxDepth params) then
            IterContinue
              (mkExpandState gs (sd - 1) (u32 (d - 1))
                 (childFutures st) w (randCalls st) (taken st ++ [child]))
          else
            IterContinue
              (mkExpandState
                 (<[Z.to_nat sd := mkStackElem child childGen 0]> gs)
                 sd d (childFutures st) w (randCalls st)
                 (taken st ++ [child]))
        end
      end
    else
      IterContinue
        (mkExpandState (genStack st) (stackDepth st - 1) (u32 (depth st - 1))
           (childFutures st) (world st) (randCalls st) (taken st))
  end.

(** One iteration of the [while (stackDepth >= 0)] loop. *)
Definition iteration (params : Params) (space : Space) (childDepth : Z)
  (st : ExpandState) : IterResult :=
  if isDecision && stopSearch (world st) then IterReturn st
  else
    match spawnBlock params childDepth st with
    | Done st => descendOrPop params space st
    | OutOfFuel => IterOverflow
    | StackOverflow => IterOverflow
    end.

Fixpoint expandLoop (fuel : nat) (params : Params) (space : Space)
  (childDepth : Z) (st : ExpandState) : Outcome ExpandState :=
  match fuel with
  | O => OutOfFuel
  | S fuel' =>
    if 0 <=? stackDepth st then
      match iteration params space childDepth st with
      | IterContinue st' => expandLoop fuel' params space childDepth st'
      | IterReturn st' => Done st'
      | IterOverflow => StackOverflow
      end
    else Done st
  end.

(** The state expand starts its loop in. *)
Definition expandInit (space : Space) (n : Node) (childDepth : Z)
  (w : World) (calls : nat) : ExpandState :=
  mkExpandState (replicate maxStackDepth (StackElem_new space n))
    0 childDepth []
    (if isEnumeration then accumulate n w else w)
    calls [n].

(** [Random::expand] *)
Definition expand (fuel : nat) (space : Space) (n : Node) (params : Params)
  (childDepth : Z) (w : World) (calls : nat) : Outcome ExpandState :=
  expandLoop fuel params space childDepth (expandInit space n childDepth w calls).

(** ** The spawn test *)

(** The nodes the next [k] calls of [next] return, and the generator after
    them. *)
Fixpoint nextN (k : nat) (g : Generator) : list Node * Generator :=
  match k with
  | O => ([], g)
  | S k' =>
    let '(c, g1) := next g in
    let '(cs, g2) := nextN k' g1 in
    (c :: cs, g2)
  end.

(** The children of a frame that were not handed out yet, in generator
    order, and the frame once they all are. *)
Definition unseenChildren (fr : StackElem) : list Node :=
  fst (nextN (Z.to_nat (numChildren (gen fr) - seen fr)) (gen fr)).

Definition exhausted (fr : StackElem) : StackElem :=
  mkStackElem (node fr)
    (snd (nextN (Z.to_nat (numChildren (gen fr) - seen fr)) (gen fr)))
    (seen fr + Z.of_nat (Z.to_nat (numChildren (gen fr) - seen fr))).

(** Frame [i] is the shallowest frame strictly below the top of the stack (at
    [stackDepth]) that still has unseen children. *)
Definition shallowestBelowTop (st : ExpandState) (i : Z) (fr : StackElem)
  : Prop :=
  0 <= i < stackDepth st
  /\ genStack st !! Z.to_nat i = Some fr
  /\ seen fr < numChildren (gen fr)
  /\ forall j, 0 <= j < i ->
       exists fj, genStack st !! Z.to_nat j = Some fj
                  /\ numChildren (gen fj) <= seen fj.

(** No frame strictly below the top of the stack has unseen children. *)
Definition noneBelowTop (st : ExpandState) : Prop :=
  forall j, 0 <= j < stackDepth st ->
    exists fj, genStack st !! Z.to_nat j = Some fj
               /\ numChildren (gen fj) <= seen fj.

Lemma nextN_length (k : nat) :
  forall g, length (fst (nextN k g)) = k.
Proof.
  induction k as [|k IH]; intros g; [reflexivity|].
  cbn [nextN]. destruct (next g) as [c g1].
  specialize (IH g1). destruct (nextN k g1) as [cs g2].
  simpl in *. now rewrite IH.
Qed.

Lemma spawnFrame_spec (k : nat) (childDepth i : Z) :
  forall fr futs,
    spawnFrame k childDepth i fr futs
    = (mkStackElem (node fr) (snd (nextN k (gen fr))) (seen fr + Z.of_nat k),
       futs ++ map (mkTask (u32 (childDepth + i + 1))) (fst (nextN k (gen fr)))).
Proof.
  induction k as [|k IH]; intros fr futs.
  - simpl. rewrite Z.add_0_r, app_nil_r. now destruct fr.
  - cbn [spawnFrame nextN].
    destruct (next (gen fr)) as [c g] eqn:Hn.
    rewrite IH. cbn [node gen seen].
    destruct (nextN k g) as [cs g2]. cbn [fst snd map].
    rewrite <- app_assoc. simpl. f_equal. f_equal. lia.
Qed.

Lemma spawnScan_none (k : nat) (childDepth : Z) :
  forall i st,
    0 <= i ->
    (forall j, i <= j < i + Z.of_nat k ->
       exists fj, genStack st !! Z.to_nat j = Some fj
                  /\ numChildren (gen fj) <= seen fj) ->
    spawnScan k childDepth i st = Done st.
Proof.
  induction k as [|k IH]; intros i st Hi Hall; [reflexivity|].
  cbn [spawnScan].
  destruct (Hall i ltac:(lia)) as (fj & Hfj & Hle). rewrite Hfj.
  destruct (seen fj <? numChildren (gen fj)) eqn:E;
    [apply Z.ltb_lt in E; lia|].
  apply IH; [lia|]. intros j Hj. apply Hall. lia.
Qed.

Lemma spawnScan_first (k : nat) (childDepth : Z) :
  forall i st i0 fr,
    0 <= i <= i0 -> i0 < i + Z.of_nat k ->
    genStack st !! Z.to_nat i0 = Some fr ->
    seen fr < numChildren (gen fr) ->
    (forall j, i <= j < i0 ->
       exists fj, genStack st !! Z.to_nat j = Some fj
                  /\ numChildren (gen fj) <= seen fj) ->
    spawnScan k childDepth i st
    = Done (withSpawned st (<[Z.to_nat i0 := exhausted fr]> (genStack st))
              (childFutures st
               ++ map (mkTask (u32 (childDepth + i0 + 1))) (unseenChildren fr))).
Proof.
  induction k as [|k IH]; intros i st i0 fr Hi Hk Hfr Hlt Hall; [lia|].
  cbn [spawnScan].
  destruct (Z.eq_dec i i0) as [->|Hne].
  - rewrite Hfr.
    assert (E : (seen fr <? numChildren (gen fr)) = true) by now apply Z.ltb_lt.
    rewrite E, spawnFrame_spec. reflexivity.
  - destruct (Hall i ltac:(lia)) as (fj & Hfj & Hle). rewrite Hfj.
    destruct (seen fj <? numChildren (gen fj)) eqn:E;
      [apply Z.ltb_lt in E; lia|].
    apply IH; auto; try lia. intros j Hj. apply Hall. lia.
Qed.

(** C5 (as the code has it).  With [spawnProbability] zero the spawn test does
    nothing, not even a call of [rand].  Otherwise it draws
    [(rand()<<15)+rand()] and fires exactly when the draw is below
    [2^30 / spawnProbability]; for values of [rand] of 15 bits the draw is the
    30-bit number made of the two, and the quotient lies within one of
    [2^30 / spawnProbability].  A test that fires turns every unseen child of
    the shallowest frame strictly below the top frame that has unseen
    children into a task of child depth [childDepth + i + 1], marks them seen
    and leaves every other frame alone; when no frame below the top has
    unseen children it spawns nothing. *)
Theorem spawnBlock_spec (params : Params) (childDepth : Z) (st : ExpandState) :
  (spawnProbability params = 0 -> spawnBlock params childDepth st = Done st)
  /\ (spawnProbability params <> 0 ->
      1073741824 ÷ spawnProbability params <= draw (randCalls st) ->
      spawnBlock params childDepth st = Done (afterDraw st))
  /\ (spawnProbability params <> 0 ->
      draw (randCalls st) < 1073741824 ÷ spawnProbability params ->
      (forall i fr, shallowestBelowTop st i fr ->
         spawnBlock params childDepth st
         = Done (withSpawned (afterDraw st)
                   (<[Z.to_nat i := exhausted fr]> (genStack st))
                   (childFutures st
                    ++ map (mkTask (u32 (childDepth + i + 1)))
                         (unseenChildren fr)))
         /\ seen (exhausted fr) = numChildren (gen fr)
         /\ Z.of_nat (length (unseenChildren fr))
            = numChildren (gen fr) - seen fr)
      /\ (noneBelowTop st ->
          spawnBlock params childDepth st = Done (afterDraw st)))
  /\ (0 <= rand (randCalls st) < 2 ^ 15 ->
      0 <= rand (S (randCalls st)) < 2 ^ 15 ->
      draw (randCalls st)
      = rand (randCalls st) * 2 ^ 15 + rand (S (randCalls st))
      /\ 0 <= draw (randCalls st) < 2 ^ 30)
  /\ (0 < spawnProbability params ->
      0 <= 1073741824 ÷ spawnProbability params <= 2 ^ 30
      /\ spawnProbability params * (1073741824 ÷ spawnProbability params)
         <= 2 ^ 30
         < spawnProbability params
           * (1073741824 ÷ spawnProbability params + 1)).
Proof.
  split; [|split; [|split; [|split]]].
  - intros H0. unfold spawnBlock. rewrite H0. reflexivity.
  - intros Hnz Hge. unfold spawnBlock.
    destruct (spawnProbability params =? 0) eqn:E;
      [apply Z.eqb_eq in E; contradiction|]. cbn [negb].
    destruct (draw (randCalls st) <? 1073741824 ÷ spawnProbability params)
      eqn:E2; [apply Z.ltb_lt in E2; lia|reflexivity].
  - intros Hnz Hlt.
    assert (Hfire : spawnBlock params childDepth st
                    = spawnScan (Z.to_nat (stackDepth st)) childDepth 0
                        (afterDraw st)).
    { unfold spawnBlock.
      destruct (spawnProbability params =? 0) eqn:E;
        [apply Z.eqb_eq in E; contradiction|]. cbn [negb].
      apply Z.ltb_lt in Hlt. now rewrite Hlt. }
    split.
    + intros i fr (Hi & Hfr & Hseen & Hbelow). rewrite Hfire. split; [|split].
      * apply (spawnScan_first _ childDepth 0 (afterDraw st) i fr); auto; lia.
      * unfold exhausted; cbn [seen]. lia.
      * unfold unseenChildren. rewrite nextN_length. lia.
    + intros Hnone. rewrite Hfire.
      apply spawnScan_none; [lia|]. intros j Hj. apply Hnone.
      cbn [afterDraw stackDepth] in Hj. lia.
  - intros H1 H2. unfold draw, u32. rewrite Z.shiftl_mul_pow2 by lia.
    rewrite Z.mod_small by lia. split; [reflexivity|lia].
  - intros Hpos.
    pose proof (Z.quot_div_nonneg 1073741824 (spawnProbability params)
                  ltac:(lia) Hpos) as Hq.
    rewrite Hq.
    pose proof (Z.div_mod 1073741824 (spawnProbability params) ltac:(lia)).
    pose proof (Z.mod_pos_bound 1073741824 (spawnProbability params) Hpos).
    assert (0 <= 1073741824 / spawnProbability params)
      by (apply Z.div_pos; lia).
    change (2 ^ 30) with 1073741824. nia.
Qed.

(** ** The tasks of one search

    The work pool with the tasks not yet run, the shared world, the number of
    [rand] calls so far, and the nodes taken by the tasks that have run. *)
Record Cluster : Type := mkCluster {
  pool : list Task;
  gworld : World;
  gcalls : nat;
  takenAll : list Node
}.

(** Which task of the pool a free worker gets is up to the policy and to the
    timing of the steals: [sched k] chooses among the tasks in the pool when
    [k] more tasks may still be run. *)
Variable sched : nat -> nat.

(** Runs tasks until the pool is empty, which is when the promise of the root
    task fires: every task run to its end (subtreeTask) and its children put
    in the pool (createTask). *)
Fixpoint runTasks (fuel efuel : nat) (params : Params) (space : Space)
  (c : Cluster) : Outcome Cluster :=
  match fuel with
  | O => match pool c with [] => Done c | _ :: _ => OutOfFuel end
  | S fuel' =>
    match pool c with
    | [] => Done c
    | _ :: _ =>
      let k := (sched fuel' mod length (pool c))%nat in
      match pool c !! k with
      | None => OutOfFuel
      | Some t =>
        match expand efuel space (taskRoot t) params (taskChildDepth t)
                (gworld c) (gcalls c) with
        | Done st =>
          runTasks fuel' efuel params space
            (mkCluster (delete k (pool c) ++ childFutures st) (world st)
               (randCalls st) (takenAll c ++ taken st))
        | OutOfFuel => OutOfFuel
        | StackOverflow => StackOverflow
        end
      end
    end
  end.

(** The part of [Random::search] between the start of the schedulers and
    their shutdown: [createTask(1, root).get()]. *)
Definition searchTasks (fuel efuel : nat) (params : Params) (space : Space)
  (root : Node) (w : World) : Outcome Cluster :=
  runTasks fuel efuel params space (mkCluster [createTask 1 root] w 0 []).

(** ** The ends of the spawn probability, and a stopped decision search *)

Lemma draw_nonneg (calls : nat) : 0 <= draw calls.
Proof. unfold draw, u32. apply Z.mod_pos_bound. reflexivity. Qed.

(** X14: the two ends of [spawnProbability].  Above [2^30] the threshold
    [1073741824 / spawnProbability] is 0 and the spawn test never fires,
    although it still calls [rand] twice; with [spawnProbability = 1] and
    values of [rand] of 15 bits the threshold is [2^30] and the test fires in
    every iteration. *)
Theorem spawn_threshold (params : Params) (childDepth : Z) (st : ExpandState) :
  (1073741824 < spawnProbability params ->
   spawnBlock params childDepth st = Done (afterDraw st))
  /\ (spawnProbability params = 1 ->
      0 <= rand (randCalls st) < 2 ^ 15 ->
      0 <= rand (S (randCalls st)) < 2 ^ 15 ->
      spawnBlock params childDepth st
      = spawnScan (Z.to_nat (stackDepth st)) childDepth 0 (afterDraw st)).
Proof.
  split.
  - intros Hbig. unfold spawnBlock.
    destruct (spawnProbability params =? 0) eqn:E;
      [apply Z.eqb_eq in E; lia|]. cbn [negb].
    rewrite Z.quot_small by lia.
    pose proof (draw_nonneg (randCalls st)) as Hd.
    destruct (draw (randCalls st) <? 0) eqn:E2;
      [apply Z.ltb_lt in E2; lia|reflexivity].
  - intros H1 Hr1 Hr2. unfold spawnBlock. rewrite H1. cbn [Z.eqb negb].
    rewrite Z.quot_1_r.
    assert (Hd : draw (randCalls st) < 1073741824).
    { unfold draw, u32. rewrite Z.shiftl_mul_pow2 by lia.
      rewrite Z.mod_small by lia. lia. }
    apply Z.ltb_lt in Hd. now rewrite Hd.
Qed.

Lemma runTasks_S (fuel efuel : nat) (params : Params) (space : Space)
  (c : Cluster) (k : nat) (t : Task) :
  pool c <> [] ->
  k = (sched fuel mod length (pool c))%nat ->
  pool c !! k = Some t ->
  runTasks (S fuel) efuel params space c
  = match expand efuel space (taskRoot t) params (taskChildDepth t) (gworld c)
            (gcalls c) with
    | Done st =>
      runTasks fuel efuel params space
        (mkCluster (delete k (pool c) ++ childFutures st) (world st)
           (randCalls st) (takenAll c ++ taken st))
    | OutOfFuel => OutOfFuel
    | StackOverflow => StackOverflow
    end.
Proof.
  intros Hne -> Hk. cbn [runTasks].
  destruct (pool c) as [|t0 p0] eqn:Hp; [contradiction|].
  rewrite Hk. reflexivity.
Qed.

(** A task started after the search was stopped leaves its loop in the first
    iteration. *)
Lemma expand_stopped (efuel : nat) (space : Space) (n : Node) (params : Params)
  (childDepth : Z) (w : World) (calls : nat) :
  isDecision = true -> isEnumeration = false -> stopSearch w = true ->
  expand (S efuel) space n params childDepth w calls
  = Done (mkExpandState (replicate maxStackDepth (StackElem_new space n))
            0 childDepth [] w calls [n]).
Proof.
  intros Hd He Hs. unfold expand, expandInit. rewrite He.
  cbn [expandLoop stackDepth Z.leb Z.compare].
  unfold iteration. cbn [world]. now rewrite Hd, Hs.
Qed.

(** X15: once a decision search is stopped, the pool drains without any
    further work: every task still queued returns in its first iteration,
    before the spawn test, so it processes no node, calls [rand] not once and
    spawns nothing.  A pool of [n] tasks is empty after [n] task runs, with
    the registry as it was. *)
Theorem stopped_search_drains (fuel efuel : nat) (params : Params)
  (space : Space) (c : Cluster) :
  isDecision = true -> isEnumeration = false ->
  stopSearch (gworld c) = true ->
  (length (pool c) <= fuel)%nat ->
  exists c',
    runTasks fuel (S efuel) params space c = Done c'
    /\ pool c' = []
    /\ gworld c' = gworld c
    /\ gcalls c' = gcalls c
    /\ Permutation (takenAll c') (takenAll c ++ map taskRoot (pool c)).
Proof.
  intros Hd He. revert c.
  induction fuel as [|fuel IH]; intros c Hs Hlen.
  - destruct (pool c) as [|t0 p0] eqn:Hp; [|cbn [length] in Hlen; lia].
    exists c. cbn [runTasks]. rewrite Hp.
    repeat split; try reflexivity. cbn [map]. now rewrite app_nil_r.
  - destruct (pool c) as [|t0 p0] eqn:Hp.
    + exists c. cbn [runTasks]. rewrite Hp.
      repeat split; try reflexivity. cbn [map]. now rewrite app_nil_r.
    + rewrite <- Hp in *.
      assert (Hne : pool c <> []) by (rewrite Hp; discriminate).
      assert (Hnz : length (pool c) <> 0%nat) by (rewrite Hp; discriminate).
      set (k := (sched fuel mod length (pool c))%nat).
      assert (Hk : (k < length (pool c))%nat)
        by (apply Nat.mod_upper_bound; exact Hnz).
      destruct (lookup_lt_is_Some_2 _ _ Hk) as [t Ht].
      rewrite (runTasks_S fuel (S efuel) params space c k t Hne eq_refl Ht).
      rewrite (expand_stopped efuel space (taskRoot t) params
                 (taskChildDepth t) (gworld c) (gcalls c) Hd He Hs).
      cbn [childFutures world randCalls taken].
      destruct (IH (mkCluster (delete k (pool c) ++ []) (gworld c) (gcalls c)
                      (takenAll c ++ [taskRoot t])))
        as (c' & Hrun & Hpool & Hw & Hcalls & Hperm).
      { exact Hs. }
      { cbn [pool]. rewrite app_nil_r, length_delete by eauto. lia. }
      exists c'. split; [exact Hrun|]. split; [exact Hpool|].
      split; [exact Hw|]. split; [exact Hcalls|].
      rewrite Hperm. cbn [pool takenAll]. rewrite app_nil_r, <- app_assoc.
      apply Permutation_app_head. cbn [app].
      change (taskRoot t :: map taskRoot (delete k (pool c)))
        with (map taskRoot (t :: delete k (pool c))).
      apply Permutation_map. symmetry. now apply delete_Permutation.
Qed.

End Skeleton.

Arguments mkGenerator {GenState} _ _.
Arguments numChildren {GenState} _.
Arguments gstate {GenState} _.
Arguments mkStackElem {Node GenState} _ _ _.
Arguments node {Node GenState} _.
Arguments gen {Node GenState} _.
Arguments seen {Node GenState} _.
Arguments mkTask {Node} _ _.
Arguments taskChildDepth {Node} _.
Arguments taskRoot {Node} _.
Arguments mkExpandState {Node GenState World} _ _ _ _ _ _ _.
Arguments genStack {Node GenState World} _.
Arguments stackDepth {Node GenState World} _.
Arguments depth {Node GenState World} _.
Arguments childFutures {Node GenState World} _.
Arguments world {Node GenState World} _.
Arguments randCalls {Node GenState World} _.
Arguments taken {Node GenState World} _.
Arguments mkCluster {Node World} _ _ _ _.
Arguments pool {Node World} _.
Arguments gworld {Node World} _.
Arguments gcalls {Node World} _.
Arguments takenAll {Node World} _.
Arguments afterDraw {Node GenState World} _.
Arguments withSpawned {Node GenState World} _ _ _.
Arguments IterContinue {Node GenState World} _.
Arguments IterReturn {Node GenState World} _.
Arguments IterOverflow {Node GenState World}.

(** ** Finite trees as search spaces

    A node is the subtree below it: a label (its objective) and the list of
    its children in generator order.  The generator of a node holds the
    children not yet handed out. *)

#[warnings="-register-all"]
Inductive tree : Type := T (label : Z) (kids : list tree).

Definition labelOf (t : tree) : Z := match t with T l _ => l end.
Definition kidsOf (t : tree) : list tree := match t with T _ ks => ks end.

Definition treeGen (_ : unit) (t : tree) : Generator (list tree) :=
  mkGenerator (Z.of_nat (length (kidsOf t))) (kidsOf t).

Definition treeNext (s : list tree) : tree * list tree :=
  match s with
  | c :: r => (c, r)
  | [] => (T 0 [], [])
  end.

(** Modelled from the spec: [ProcessNode::processNode] is not in the sources
    at hand.  In optimisation mode with the null bound there is nothing to
    prune and no target to stop at: the child replaces the incumbent when its
    objective is strictly better, and the search continues. *)
Definition processNodeOpt (_ : Params) (_ : unit) (c : tree) (incumbent : tree)
  : ProcessNodeRet * tree :=
  (Continue, if labelOf incumbent <? labelOf c then c else incumbent).

Section TreeSearch.

(** The [DepthLimited] flag, [MaxStackDepth], the values of [rand], the
    choices of the scheduler and the parameters of the search. *)
Variable isDepthBounded : bool.
Variable maxStackDepth : nat.
Variable rand : nat -> Z.
Variable sched : nat -> nat.
Variable params : Params.

Definition treeIteration :=
  iteration unit tree (list tree) treeGen treeNext false isDepthBounded tree
    processNodeOpt (fun _ => false) rand params tt.

Definition treeExpandLoop (fuel : nat) :=
  expandLoop unit tree (list tree) treeGen treeNext false isDepthBounded tree
    processNodeOpt (fun _ => false) rand fuel params tt.

Definition treeExpand (fuel : nat) (n : tree) :=
  expand unit tree (list tree) treeGen treeNext false false isDepthBounded
    maxStackDepth tree processNodeOpt (fun _ w => w) (fun _ => false) rand
    fuel tt n params.

Definition treeRunTasks (fuel efuel : nat) :=
  runTasks unit tree (list tree) treeGen treeNext false false isDepthBounded
    maxStackDepth tree processNodeOpt (fun _ w => w) (fun _ => false) rand
    sched fuel efuel params tt.

Definition treeSearch (fuel efuel : nat) (root : tree) :=
  searchTasks unit tree (list tree) treeGen treeNext false false
    isDepthBounded maxStackDepth tree processNodeOpt (fun _ w => w)
    (fun _ => false) rand sched fuel efuel params tt root root.


(** ** What a search is expected to take *)

(** The test of the depth limit on the depth counter of a child. *)
Definition cut (d : Z) : bool := isDepthBounded && (d =? maxDepth params).

(** The nodes below and including [t] that a task takes once it has moved
    into [t] with depth counter [d]: [t] itself, and the subtrees of its
    children unless the depth limit stops at [t]. *)
Fixpoint expected (d : Z) (t : tree) {struct t} : list tree :=
  match t with
  | T _ ks =>
    t :: (if cut d then [] else flat_map (expected (u32 (d + 1))) ks)
  end.

(** The nodes a task with root [t] and child depth [d] leaves to itself and
    to the tasks it spawns: the root of a task is never tested against the
    depth limit. *)
Definition taskExpected (d : Z) (t : tree) : list tree :=
  t :: flat_map (expected (u32 (d + 1))) (kidsOf t).

Definition taskNodes (task : Task tree) : list tree :=
  taskExpected (taskChildDepth task) (taskRoot task).

(** All nodes of a tree, and the nodes at depth at most [k] (the root is at
    depth 0). *)
Fixpoint nodes (t : tree) : list tree :=
  match t with T _ ks => t :: flat_map nodes ks end.

Fixpoint nodesUpTo (k : nat) (t : tree) {struct k} : list tree :=
  t :: match k with
       | O => []
       | S k' => flat_map (nodesUpTo k') (kidsOf t)
       end.

(** The height of a tree: the number of edges on its longest path. *)
Fixpoint height (t : tree) : nat :=
  match t with
  | T _ ks => fold_right (fun k acc => Nat.max (S (height k)) acc) O ks
  end.

Fixpoint tree_ind' (P : tree -> Prop)
  (H : forall l ks, Forall P ks -> P (T l ks)) (t : tree) {struct t} : P t :=
  match t with
  | T l ks =>
    H l ks
      ((fix go (ks : list tree) : Forall P ks :=
          match ks with
          | [] => @List.Forall_nil tree P
          | k :: r => @List.Forall_cons tree P k r (tree_ind' P H k) (go r)
          end) ks)
  end.

(** ** Invariant of the loop of expand *)

Definition frameOK (fr : StackElem tree (list tree)) : Prop :=
  numChildren (gen fr) = seen fr + Z.of_nat (length (gstate (gen fr))).

(** The nodes still to be taken from the frames [frs], the first of which
    has index [j] in the stack of a task of child depth [cd]. *)
Fixpoint pendingFrom (cd j : Z) (frs : list (StackElem tree (list tree)))
  : list tree :=
  match frs with
  | [] => []
  | fr :: rest =>
    flat_map (expected (u32 (cd + j + 1))) (gstate (gen fr))
    ++ pendingFrom cd (j + 1) rest
  end.

(** The frames in use: indexes [0 .. stackDepth]. *)
Definition frames (st : ExpandState tree (list tree) tree)
  : list (StackElem tree (list tree)) :=
  take (Z.to_nat (stackDepth st + 1)) (genStack st).

Definition heightOK (j : Z) (fr : StackElem tree (list tree)) : Prop :=
  forall c, In c (gstate (gen fr)) ->
    j + 1 + Z.of_nat (height c) < Z.of_nat maxStackDepth.

Fixpoint heightsFrom (j : Z) (frs : list (StackElem tree (list tree))) : Prop :=
  match frs with
  | [] => True
  | fr :: rest => heightOK j fr /\ heightsFrom (j + 1) rest
  end.

(** A task the search can run: the stack has room for the subtree below its
    root, and its child depth is an [unsigned] value. *)
Definition taskOK (task : Task tree) : Prop :=
  Z.of_nat (height (taskRoot task)) < Z.of_nat maxStackDepth
  /\ 0 <= taskChildDepth task < 2 ^ 32.

Record Inv (cd : Z) (st : ExpandState tree (list tree) tree) : Prop := mkInv {
  inv_depth_lo : -1 <= stackDepth st;
  inv_depth_hi : stackDepth st + 1 <= Z.of_nat maxStackDepth;
  inv_length : length (genStack st) = maxStackDepth;
  inv_depth : depth st = u32 (cd + stackDepth st);
  inv_frames : Forall frameOK (frames st);
  inv_cut : forall j, 1 <= j <= stackDepth st -> cut (u32 (cd + j)) = false;
  inv_height : heightsFrom 0 (frames st);
  inv_tasks : Forall taskOK (childFutures st);
  inv_taken : taken st <> []
}.

(** Everything the task has taken, has still to take, or has given away. *)
Definition total (cd : Z) (st : ExpandState tree (list tree) tree) : list tree :=
  taken st ++ pendingFrom cd 0 (frames st)
  ++ flat_map taskNodes (childFutures st).

Definition measure (cd : Z) (st : ExpandState tree (list tree) tree) : nat :=
  (2 * length (pendingFrom cd 0 (frames st))
   + Z.to_nat (stackDepth st + 1))%nat.


(** ** Arithmetic of the counters and shape of the trees *)

Lemma u32_add_l (a b : Z) : u32 (u32 a + b) = u32 (a + b).
Proof. unfold u32. apply Zplus_mod_idemp_l. Qed.

Lemma u32_sub_l (a b : Z) : u32 (u32 a - b) = u32 (a - b).
Proof. unfold u32. apply Zminus_mod_idemp_l. Qed.

Lemma u32_range (a : Z) : 0 <= u32 a < 2 ^ 32.
Proof. unfold u32. apply Z.mod_pos_bound. reflexivity. Qed.

Lemma u32_id (a : Z) : 0 <= a < 2 ^ 32 -> u32 a = a.
Proof. intros H. unfold u32. now apply Z.mod_small. Qed.

Lemma expected_unfold (d : Z) (t : tree) :
  expected d t
  = t :: (if cut d then [] else flat_map (expected (u32 (d + 1))) (kidsOf t)).
Proof. now destruct t. Qed.

Lemma expected_uncut (d : Z) (t : tree) :
  cut d = false -> expected d t = taskExpected d t.
Proof. intros H. rewrite expected_unfold, H. reflexivity. Qed.

Lemma height_kid (t c : tree) :
  In c (kidsOf t) -> (S (height c) <= height t)%nat.
Proof.
  destruct t as [l ks]. simpl.
  induction ks as [|k ks IH]; simpl; intros Hin; [contradiction|].
  destruct Hin as [->|Hin]; [lia|]. specialize (IH Hin). lia.
Qed.

Lemma pendingFrom_app (cd : Z) (l1 l2 : list (StackElem tree (list tree))) :
  forall j,
    pendingFrom cd j (l1 ++ l2)
    = pendingFrom cd j l1 ++ pendingFrom cd (j + Z.of_nat (length l1)) l2.
Proof.
  induction l1 as [|fr l1 IH]; intros j; simpl.
  - now rewrite Z.add_0_r.
  - rewrite IH, <- app_assoc. do 3 f_equal. lia.
Qed.

Lemma heightsFrom_app (l1 l2 : list (StackElem tree (list tree))) :
  forall j,
    heightsFrom j (l1 ++ l2)
    <-> heightsFrom j l1 /\ heightsFrom (j + Z.of_nat (length l1)) l2.
Proof.
  induction l1 as [|fr l1 IH]; intros j; simpl.
  - rewrite Z.add_0_r. tauto.
  - rewrite IH.
    replace (j + 1 + Z.of_nat (length l1)) with (j + Z.pos (Pos.of_succ_nat (length l1))) by lia.
    tauto.
Qed.

(** A frame whose unseen children were all given away. *)
Definition emptied (fr : StackElem tree (list tree)) : StackElem tree (list tree) :=
  mkStackElem (node fr) (mkGenerator (numChildren (gen fr)) [])
    (seen fr + Z.of_nat (length (gstate (gen fr)))).

Lemma nextN_tree (g : Generator (list tree)) :
  nextN tree (list tree) treeNext (length (gstate g)) g
  = (gstate g, mkGenerator (numChildren g) []).
Proof.
  destruct g as [n l]. simpl. revert n.
  induction l as [|c l IH]; intros n; [reflexivity|].
  cbn [length nextN next gstate numChildren treeNext].
  specialize (IH n). cbn [gstate numChildren] in IH. now rewrite IH.
Qed.

Lemma spawnFrame_tree (cd i : Z) (fr : StackElem tree (list tree))
  (futs : list (Task tree)) :
  frameOK fr ->
  spawnFrame tree (list tree) treeNext
    (Z.to_nat (numChildren (gen fr) - seen fr)) cd i fr futs
  = (emptied fr, futs ++ map (mkTask (u32 (cd + i + 1))) (gstate (gen fr))).
Proof.
  intros Hok. unfold frameOK in Hok.
  replace (Z.to_nat (numChildren (gen fr) - seen fr))
    with (length (gstate (gen fr))) by lia.
  rewrite spawnFrame_spec, nextN_tree. reflexivity.
Qed.

Lemma pendingFrom_insert (cd : Z) :
  forall (frs : list (StackElem tree (list tree))) (i : nat) (j : Z) fr,
    frs !! i = Some fr ->
    Permutation (pendingFrom cd j frs)
      (flat_map (expected (u32 (cd + (j + Z.of_nat i) + 1))) (gstate (gen fr))
       ++ pendingFrom cd j (<[i := emptied fr]> frs)).
Proof.
  induction frs as [|f frs IH]; intros i j fr Hi; [discriminate|].
  destruct i as [|i]; simpl in Hi.
  - inversion Hi; subst f. simpl. rewrite Z.add_0_r. reflexivity.
  - simpl. specialize (IH i (j + 1) fr Hi).
    replace (cd + (j + 1 + Z.of_nat i) + 1)
      with (cd + (j + Z.pos (Pos.of_succ_nat i)) + 1) in IH by lia.
    rewrite IH.
    rewrite !app_assoc. apply Permutation_app_tail, Permutation_app_comm.
Qed.

Lemma heightsFrom_insert :
  forall (frs : list (StackElem tree (list tree))) (i : nat) (j : Z) fr,
    heightsFrom j frs ->
    heightsFrom j (<[i := emptied fr]> frs).
Proof.
  induction frs as [|f frs IH]; intros i j fr H; [exact H|].
  destruct H as [H1 H2].
  destruct i as [|i]; cbn [heightsFrom].
  - change (<[0%nat := emptied fr]> (f :: frs)) with (emptied fr :: frs).
    split; [|exact H2]. intros c Hc. destruct Hc.
  - change (<[S i := emptied fr]> (f :: frs))
      with (f :: <[i := emptied fr]> frs).
    split; [exact H1|]. now apply IH.
Qed.

Lemma heightsFrom_lookup :
  forall (frs : list (StackElem tree (list tree))) (i : nat) (j : Z) fr,
    heightsFrom j frs -> frs !! i = Some fr -> heightOK (j + Z.of_nat i) fr.
Proof.
  induction frs as [|f frs IH]; intros i j fr H Hi; [discriminate|].
  destruct H as [H1 H2].
  destruct i as [|i]; simpl in Hi.
  - inversion Hi; subst. now rewrite Z.add_0_r.
  - replace (j + Z.of_nat (S i)) with (j + 1 + Z.of_nat i) by lia.
    now apply IH.
Qed.


(** ** The spawn test keeps the invariant *)

Lemma taskNodes_spawned (d : Z) (cs : list tree) :
  cut d = false ->
  flat_map taskNodes (map (mkTask d) cs) = flat_map (expected d) cs.
Proof.
  intros Hc. induction cs as [|c cs IH]; [reflexivity|].
  cbn [map flat_map]. rewrite IH. f_equal.
  unfold taskNodes. cbn [taskChildDepth taskRoot].
  now rewrite expected_uncut.
Qed.

Lemma frames_lookup (st : ExpandState tree (list tree) tree) (i : Z) fr :
  0 <= i <= stackDepth st ->
  genStack st !! Z.to_nat i = Some fr ->
  frames st !! Z.to_nat i = Some fr.
Proof.
  intros Hi Hl. unfold frames. rewrite lookup_take_lt by lia. exact Hl.
Qed.

Lemma stack_lookup (cd : Z) (st : ExpandState tree (list tree) tree) (i : Z) :
  Inv cd st -> 0 <= i <= stackDepth st ->
  exists fr, genStack st !! Z.to_nat i = Some fr.
Proof.
  intros HI Hi.
  destruct (genStack st !! Z.to_nat i) as [fr|] eqn:E; [now exists fr|].
  apply lookup_ge_None_1 in E.
  pose proof (inv_length _ _ HI). pose proof (inv_depth_hi _ _ HI). lia.
Qed.

Lemma spawnScan_inv (cd : Z) (k : nat) :
  forall i st,
    Inv cd st -> 0 <= i -> i + Z.of_nat k <= stackDepth st ->
    exists st',
      spawnScan tree (list tree) treeNext tree k cd i st = Done st'
      /\ Inv cd st'
      /\ stackDepth st' = stackDepth st
      /\ Permutation (total cd st') (total cd st)
      /\ (measure cd st' <= measure cd st)%nat.
Proof.
  induction k as [|k IH]; intros i st HI Hi Hk.
  { exists st. split; [reflexivity|]. split; [assumption|].
    split; [reflexivity|]. split; [reflexivity|lia]. }
  cbn [spawnScan].
  destruct (stack_lookup cd st i HI ltac:(lia)) as [fr Hfr]. rewrite Hfr.
  pose proof (frames_lookup st i fr ltac:(lia) Hfr) as Hfr'.
  destruct (seen fr <? numChildren (gen fr)) eqn:E.
  2:{ apply IH; auto; lia. }
  assert (Hok : frameOK fr).
  { eapply Forall_lookup_1; [apply (inv_frames _ _ HI)|exact Hfr']. }
  rewrite spawnFrame_tree by exact Hok.
  eexists. split; [reflexivity|].
  assert (Hcut : cut (u32 (cd + i + 1)) = false).
  { replace (cd + i + 1) with (cd + (i + 1)) by lia.
    apply (inv_cut _ _ HI). lia. }
  assert (Hfrs : frames (withSpawned st
                           (<[Z.to_nat i := emptied fr]> (genStack st))
                           (childFutures st
                            ++ map (mkTask (u32 (cd + i + 1)))
                                 (gstate (gen fr))))
                 = <[Z.to_nat i := emptied fr]> (frames st)).
  { unfold frames. cbn [withSpawned stackDepth genStack].
    apply take_insert_lt. lia. }
  pose proof (pendingFrom_insert cd (frames st) (Z.to_nat i) 0 fr Hfr') as Hp.
  replace (cd + (0 + Z.of_nat (Z.to_nat i)) + 1) with (cd + i + 1) in Hp by lia.
  split; [|split; [reflexivity|split]].
  - constructor; try rewrite Hfrs; cbn [withSpawned stackDepth genStack depth
      childFutures taken].
    + apply (inv_depth_lo _ _ HI).
    + apply (inv_depth_hi _ _ HI).
    + rewrite length_insert. apply (inv_length _ _ HI).
    + apply (inv_depth _ _ HI).
    + apply Forall_insert; [apply (inv_frames _ _ HI)|].
      unfold frameOK, emptied; cbn [numChildren gen seen gstate length].
      unfold frameOK in Hok. lia.
    + apply (inv_cut _ _ HI).
    + apply heightsFrom_insert, (inv_height _ _ HI).
    + apply Forall_app. split; [apply (inv_tasks _ _ HI)|].
      apply Forall_forall. intros task Hin.
      apply list_elem_of_In, in_map_iff in Hin.
      destruct Hin as [c [<- Hc]]. split; cbn [taskRoot taskChildDepth].
      * pose proof (heightsFrom_lookup _ _ 0 _ (inv_height _ _ HI) Hfr' c Hc).
        lia.
      * apply u32_range.
    + apply (inv_taken _ _ HI).
  - unfold total. rewrite Hfrs.
    cbn [withSpawned childFutures taken].
    rewrite flat_map_app, taskNodes_spawned by exact Hcut.
    rewrite Hp.
    apply Permutation_app_head.
    rewrite <- !app_assoc. rewrite (app_assoc (pendingFrom _ _ _)).
    apply Permutation_app_comm.
  - unfold measure. rewrite Hfrs. cbn [withSpawned stackDepth].
    apply Permutation_length in Hp. rewrite Hp, length_app. lia.
Qed.


Lemma spawnBlock_inv (cd : Z) (st : ExpandState tree (list tree) tree) :
  Inv cd st -> 0 <= stackDepth st ->
  exists st',
    spawnBlock tree (list tree) treeNext tree rand params cd st = Done st'
    /\ Inv cd st'
    /\ stackDepth st' = stackDepth st
    /\ Permutation (total cd st') (total cd st)
    /\ (measure cd st' <= measure cd st)%nat.
Proof.
  intros HI Hsd.
  assert (HI' : Inv cd (afterDraw st)).
  { destruct HI; constructor; assumption. }
  unfold spawnBlock.
  destruct (negb (spawnProbability params =? 0)).
  2:{ exists st. split; [reflexivity|]. split; [assumption|].
      split; [reflexivity|]. split; [reflexivity|lia]. }
  destruct (draw rand (randCalls st) <? 1073741824 ÷ spawnProbability params).
  2:{ exists (afterDraw st). split; [reflexivity|]. split; [assumption|].
      split; [reflexivity|]. split; [reflexivity|]. apply Nat.le_refl. }
  destruct (spawnScan_inv cd (Z.to_nat (stackDepth (afterDraw st))) 0
              (afterDraw st) HI' ltac:(lia))
    as (st' & Hrun & Hinv & Hsd' & Hperm & Hm).
  { cbn [afterDraw stackDepth]. lia. }
  exists st'. split; [exact Hrun|]. split; [exact Hinv|].
  split; [exact Hsd'|]. split; [exact Hperm|exact Hm].
Qed.

(** ** Moving into a child or popping a frame keeps the invariant *)

Lemma Forall_one {A : Type} (P : A -> Prop) (x : A) : P x -> Forall P [x].
Proof. intros H. constructor; [exact H|constructor]. Qed.

Lemma descendOrPop_inv (cd : Z) (st : ExpandState tree (list tree) tree) :
  Inv cd st -> 0 <= stackDepth st ->
  exists st',
    descendOrPop unit tree (list tree) treeGen treeNext isDepthBounded tree
      processNodeOpt params tt st = IterContinue st'
    /\ Inv cd st'
    /\ Permutation (total cd st') (total cd st)
    /\ (measure cd st' < measure cd st)%nat.
Proof.
  intros HI Hsd.
  destruct st as [gs sd dp futs w calls tk].
  destruct HI as [Hlo Hhi Hlen Hdp Hfr Hcut Hh Htasks Htk].
  unfold total, measure, frames in *.
  cbn [genStack stackDepth depth childFutures world randCalls taken] in *.
  assert (Hn : exists n, sd = Z.of_nat n) by (exists (Z.to_nat sd); lia).
  destruct Hn as [n ->].
  replace (Z.to_nat (Z.of_nat n + 1)) with (S n) in * by lia.
  destruct (gs !! n) as [fr|] eqn:Hfrn;
    [|apply lookup_ge_None_1 in Hfrn; lia].
  rewrite (take_S_r _ _ _ Hfrn) in *.
  assert (Hlen_n : length (take n gs) = n) by (rewrite length_take; lia).
  apply Forall_app in Hfr. destruct Hfr as [Hfr_lo Hfr_top].
  apply List.Forall_inv in Hfr_top.
  apply heightsFrom_app in Hh. destruct Hh as [Hh_lo Hh_top].
  rewrite Hlen_n in Hh_top. cbn [heightsFrom] in Hh_top.
  destruct Hh_top as [Hh_top _].
  rewrite pendingFrom_app, Hlen_n. cbn [pendingFrom]. rewrite app_nil_r.
  unfold descendOrPop.
  cbn [genStack stackDepth depth childFutures world randCalls taken].
  rewrite Nat2Z.id, Hfrn.
  destruct (seen fr <? numChildren (gen fr)) eqn:E.
  - (* a child is left in the top frame *)
    apply Z.ltb_lt in E.
    destruct fr as [nd [nc l] sn].
    unfold frameOK in Hfr_top. cbn [gen seen numChildren gstate] in *.
    destruct l as [|c rest]; [simpl in Hfr_top, E; lia|].
    cbn [next gstate numChildren treeNext].
    pose proof (Hh_top c ltac:(now left)) as Hc.
    replace (Z.to_nat (Z.of_nat n + 1)) with (S n) by lia.
    destruct (gs !! S n) as [up|] eqn:Hup;
      [|apply lookup_ge_None_1 in Hup; lia].
    cbn [processNodeOpt node gen seen].
    set (fr2 := mkStackElem nd (mkGenerator nc rest) (sn + 1)).
    set (gs1 := <[S n := mkStackElem c (gen up) (seen up)]> (<[n := fr2]> gs)).
    assert (Hgs1 : take (S n) gs1 = take n gs ++ [fr2]).
    { unfold gs1. rewrite take_insert_ge by lia.
      rewrite (take_S_r _ _ fr2).
      - now rewrite take_insert_ge by lia.
      - apply list_lookup_insert_eq. lia. }
    assert (Hu : u32 (dp + 1) = u32 (cd + Z.of_nat n + 1)).
    { rewrite Hdp. apply u32_add_l. }
    assert (Hfr2 : frameOK fr2).
    { unfold frameOK, fr2; cbn [gen seen numChildren gstate].
      cbn [length] in Hfr_top. lia. }
    assert (Hh2 : heightOK (Z.of_nat n) fr2).
    { intros c' Hc'. apply Hh_top. now right. }
    fold (cut (u32 (dp + 1))).
    destruct (cut (u32 (dp + 1))) eqn:Ecut.
    + (* the depth limit stops at the child *)
      eexists. split; [reflexivity|].
      unfold total, measure, frames.
      cbn [genStack stackDepth depth childFutures world randCalls taken].
      replace (Z.to_nat (Z.of_nat n + 1 - 1 + 1)) with (S n) by lia.
      rewrite Hgs1, pendingFrom_app, Hlen_n. cbn [pendingFrom].
      rewrite app_nil_r.
      cbn [gen gstate fr2 flat_map].
      rewrite Hu in Ecut.
      replace (cd + (0 + Z.of_nat n) + 1) with (cd + Z.of_nat n + 1) by lia.
      rewrite (expected_unfold _ c), Ecut.
      split; [|split].
      * constructor; unfold frames;
          cbn [genStack stackDepth depth childFutures world randCalls taken];
          try replace (Z.to_nat (Z.of_nat n + 1 - 1 + 1)) with (S n) by lia;
          try rewrite Hgs1.
        -- lia.
        -- lia.
        -- unfold gs1. now rewrite !length_insert.
        -- rewrite Hu, u32_sub_l. f_equal. lia.
        -- apply Forall_app. split; [exact Hfr_lo|].
           now apply Forall_one.
        -- intros j Hj. apply Hcut. lia.
        -- apply heightsFrom_app. split; [exact Hh_lo|].
           rewrite Hlen_n. cbn [heightsFrom]. split; [exact Hh2|exact I].
        -- exact Htasks.
        -- intros Habs. now apply app_eq_nil in Habs as [_ ?].
      * cbn [app]. rewrite <- !app_assoc. apply Permutation_app_head.
        cbn [app]. rewrite Permutation_middle. reflexivity.
      * rewrite ?length_app. cbn [length]. rewrite ?length_app. simpl. lia.
    + (* the child gets the next frame *)
      eexists. split; [reflexivity|].
      unfold total, measure, frames.
      cbn [genStack stackDepth depth childFutures world randCalls taken].
      replace (Z.to_nat (Z.of_nat n + 1)) with (S n) by lia.
      replace (Z.to_nat (Z.of_nat n + 1 + 1)) with (S (S n)) by lia.
      set (newfr := mkStackElem c (treeGen tt c) 0).
      assert (Hgs2 : take (S (S n)) (<[S n := newfr]> gs1)
                     = (take n gs ++ [fr2]) ++ [newfr]).
      { rewrite (take_S_r _ _ newfr).
        - rewrite take_insert_ge by lia. now rewrite Hgs1.
        - apply list_lookup_insert_eq. unfold gs1.
          rewrite !length_insert. lia. }
      rewrite Hgs2, !pendingFrom_app, !length_app, Hlen_n.
      cbn [pendingFrom length]. rewrite !app_nil_r.
      cbn [gen gstate fr2 newfr flat_map treeGen].
      rewrite Hu in Ecut.
      replace (cd + (0 + Z.of_nat n) + 1) with (cd + Z.of_nat n + 1) by lia.
      replace (cd + (0 + Z.of_nat (n + 1)) + 1)
        with (cd + Z.of_nat n + 1 + 1) by lia.
      rewrite (expected_unfold _ c), Ecut, u32_add_l.
      split; [|split].
      * constructor; unfold frames;
          cbn [genStack stackDepth depth childFutures world randCalls taken];
          try replace (Z.to_nat (Z.of_nat n + 1 + 1)) with (S (S n)) by lia;
          try rewrite Hgs2.
        -- lia.
        -- lia.
        -- unfold gs1. now rewrite !length_insert.
        -- rewrite Hu. f_equal. lia.
        -- apply Forall_app. split;
             [apply Forall_app; split;
                [exact Hfr_lo|now apply Forall_one]|].
           apply Forall_one.
           unfold frameOK, newfr, treeGen; cbn [gen seen numChildren gstate].
           lia.
        -- intros j Hj.
           destruct (Z.eq_dec j (Z.of_nat n + 1)) as [->|Hne].
           ++ replace (cd + (Z.of_nat n + 1)) with (cd + Z.of_nat n + 1)
                by lia.
              exact Ecut.
           ++ apply Hcut. lia.
        -- apply heightsFrom_app. split.
           ++ apply heightsFrom_app. split; [exact Hh_lo|].
              rewrite Hlen_n. cbn [heightsFrom]. split; [exact Hh2|exact I].
           ++ rewrite length_app, Hlen_n. cbn [length heightsFrom].
              split; [|exact I].
              intros c' Hc'. unfold newfr, treeGen in Hc'.
              cbn [gen gstate] in Hc'.
              pose proof (height_kid c c' Hc'). lia.
        -- exact Htasks.
        -- intros Habs. now apply app_eq_nil in Habs as [_ ?].
      * cbn [app]. rewrite <- !app_assoc. apply Permutation_app_head.
        cbn [app]. rewrite <- Permutation_middle.
        apply perm_skip. apply Permutation_app_head.
        rewrite !app_assoc. apply Permutation_app_tail.
        apply Permutation_app_comm.
      * rewrite ?length_app. cbn [length]. rewrite ?length_app. simpl. lia.
  - (* the top frame is finished *)
    apply Z.ltb_ge in E.
    eexists. split; [reflexivity|].
    unfold total, measure, frames.
    cbn [genStack stackDepth depth childFutures world randCalls taken].
    replace (Z.to_nat (Z.of_nat n - 1 + 1)) with n by lia.
    assert (Hnil : gstate (gen fr) = []).
    { unfold frameOK in Hfr_top.
      destruct (gstate (gen fr)); [reflexivity|]. cbn [length] in Hfr_top.
      lia. }
    rewrite Hnil. cbn [flat_map]. rewrite app_nil_r.
    split; [|split].
    + constructor; unfold frames;
        cbn [genStack stackDepth depth childFutures world randCalls taken];
        try replace (Z.to_nat (Z.of_nat n - 1 + 1)) with n by lia; auto.
      * lia.
      * lia.
      * rewrite Hdp, u32_sub_l. f_equal. lia.
      * intros j Hj. apply Hcut. lia.
    + reflexivity.
    + lia.
Qed.


(** ** The loop of expand *)

Lemma iteration_inv (cd : Z) (st : ExpandState tree (list tree) tree) :
  Inv cd st -> 0 <= stackDepth st ->
  exists st',
    treeIteration cd st = IterContinue st'
    /\ Inv cd st'
    /\ Permutation (total cd st') (total cd st)
    /\ (measure cd st' < measure cd st)%nat.
Proof.
  intros HI Hsd. unfold treeIteration, iteration. cbn [andb].
  destruct (spawnBlock_inv cd st HI Hsd) as (st1 & -> & HI1 & Hsd1 & Hp1 & Hm1).
  destruct (descendOrPop_inv cd st1 HI1 ltac:(lia))
    as (st2 & -> & HI2 & Hp2 & Hm2).
  exists st2. split; [reflexivity|]. split; [exact HI2|].
  split; [now rewrite Hp2|lia].
Qed.

Lemma expandLoop_inv (cd : Z) :
  forall fuel st,
    Inv cd st -> (measure cd st < fuel)%nat ->
    exists st',
      treeExpandLoop fuel cd st = Done st'
      /\ Inv cd st'
      /\ stackDepth st' = -1
      /\ Permutation (total cd st') (total cd st).
Proof.
  induction fuel as [|fuel IH]; intros st HI Hm; [lia|].
  unfold treeExpandLoop. cbn [expandLoop].
  destruct (0 <=? stackDepth st) eqn:E.
  - apply Z.leb_le in E.
    destruct (iteration_inv cd st HI E) as (st1 & Hit & HI1 & Hp1 & Hm1).
    unfold treeIteration in Hit. rewrite Hit.
    destruct (IH st1 HI1 ltac:(lia)) as (st' & Hrun & HI' & Hsd' & Hp').
    exists st'. split; [exact Hrun|]. split; [exact HI'|].
    split; [exact Hsd'|]. now rewrite Hp'.
  - apply Z.leb_gt in E. pose proof (inv_depth_lo _ _ HI).
    exists st. split; [reflexivity|]. split; [exact HI|].
    split; [lia|reflexivity].
Qed.

Lemma taskExpected_length (d : Z) (t : tree) :
  length (taskExpected d t)
  = S (length (flat_map (expected (u32 (d + 1))) (kidsOf t))).
Proof. reflexivity. Qed.

(** A task whose stack has room for its subtree runs to the end of its loop;
    what it took and what it left to the tasks it spawned is what was expected
    of it, each node once. *)
Lemma expand_correct (t : tree) (cd : Z) (w : tree) (calls efuel : nat) :
  taskOK (mkTask cd t) ->
  (2 * length (taskExpected cd t) < efuel)%nat ->
  exists st,
    treeExpand efuel t cd w calls = Done st
    /\ Permutation (taken st ++ flat_map taskNodes (childFutures st))
         (taskExpected cd t)
    /\ Forall taskOK (childFutures st)
    /\ taken st <> []
    /\ stackDepth st = -1.
Proof.
  intros [Hh Hcd] Hfuel. cbn [taskRoot taskChildDepth] in Hh, Hcd.
  unfold treeExpand, expand.
  set (st0 := expandInit unit tree (list tree) treeGen false maxStackDepth
                tree (fun _ w => w) tt t cd w calls).
  assert (Hfr0 : frames st0 = [StackElem_new unit tree (list tree) treeGen tt t]).
  { unfold frames, st0, expandInit. cbn [stackDepth genStack].
    change (Z.to_nat (0 + 1)) with 1%nat.
    destruct maxStackDepth as [|m]; [lia|]. reflexivity. }
  assert (HI0 : Inv cd st0).
  { constructor; try rewrite Hfr0; unfold st0, expandInit;
      cbn [stackDepth genStack depth childFutures taken].
    - lia.
    - lia.
    - apply length_replicate.
    - rewrite Z.add_0_r. symmetry. now apply u32_id.
    - apply Forall_one. unfold frameOK, StackElem_new, treeGen.
      cbn [gen seen numChildren gstate]. lia.
    - intros j Hj. lia.
    - cbn [heightsFrom]. split; [|exact I].
      intros c Hc. unfold StackElem_new, treeGen in Hc.
      cbn [gen gstate] in Hc. pose proof (height_kid t c Hc). lia.
    - constructor.
    - discriminate. }
  assert (Ht0 : total cd st0 = taskExpected cd t).
  { unfold total. rewrite Hfr0. unfold st0, expandInit.
    cbn [taken childFutures pendingFrom flat_map StackElem_new gen gstate
         treeGen].
    rewrite !app_nil_r. rewrite Z.add_0_r. reflexivity. }
  assert (Hm0 : (measure cd st0 < efuel)%nat).
  { unfold measure. rewrite Hfr0. unfold st0, expandInit.
    cbn [stackDepth pendingFrom StackElem_new gen gstate treeGen].
    rewrite app_nil_r, Z.add_0_r.
    rewrite taskExpected_length in Hfuel.
    change (Z.to_nat (0 + 1)) with 1%nat. lia. }
  destruct (expandLoop_inv cd efuel st0 HI0 Hm0) as (st & Hrun & HI & Hsd & Hp).
  exists st. unfold treeExpandLoop in Hrun.
  split; [exact Hrun|].
  split; [|split; [apply (inv_tasks _ _ HI)|split;
             [apply (inv_taken _ _ HI)|exact Hsd]]].
  rewrite <- Ht0, <- Hp. unfold total, frames. rewrite Hsd.
  change (Z.to_nat (-1 + 1)) with 0%nat. rewrite take_0. reflexivity.
Qed.

(** ** All tasks of a search *)

Lemma treeRunTasks_S (fuel efuel : nat) (c : Cluster tree tree) (k : nat)
  (t : Task tree) :
  pool c <> [] ->
  k = (sched fuel mod length (pool c))%nat ->
  pool c !! k = Some t ->
  treeRunTasks (S fuel) efuel c
  = match treeExpand efuel (taskRoot t) (taskChildDepth t) (gworld c)
            (gcalls c) with
    | Done st =>
      treeRunTasks fuel efuel
        (mkCluster (delete k (pool c) ++ childFutures st) (world st)
           (randCalls st) (takenAll c ++ taken st))
    | OutOfFuel => OutOfFuel
    | StackOverflow => StackOverflow
    end.
Proof.
  intros Hne -> Hk. unfold treeRunTasks. cbn [runTasks].
  destruct (pool c) as [|t0 p0] eqn:Hp; [contradiction|].
  rewrite Hk. reflexivity.
Qed.

Lemma taskNodes_in_pool (p : list (Task tree)) (k : nat) (t : Task tree) :
  p !! k = Some t ->
  Permutation (flat_map taskNodes p)
    (taskNodes t ++ flat_map taskNodes (delete k p)).
Proof.
  intros Hk. rewrite (Permutation_flat_map taskNodes (delete_Permutation _ _ _ Hk)).
  reflexivity.
Qed.

Lemma runTasks_correct (efuel : nat) :
  forall fuel (c : Cluster tree tree),
    Forall taskOK (pool c) ->
    (length (flat_map taskNodes (pool c)) <= fuel)%nat ->
    (2 * length (flat_map taskNodes (pool c)) < efuel)%nat ->
    exists c',
      treeRunTasks fuel efuel c = Done c'
      /\ pool c' = []
      /\ Permutation (takenAll c')
           (takenAll c ++ flat_map taskNodes (pool c)).
Proof.
  induction fuel as [|fuel IH]; intros c Hok Hfuel Hefuel.
  - destruct c as [p w calls tk]. cbn [pool takenAll] in *.
    destruct p as [|t p].
    + exists (mkCluster [] w calls tk). split; [reflexivity|].
      split; [reflexivity|]. cbn [pool takenAll flat_map].
      now rewrite app_nil_r.
    + cbn [flat_map] in Hfuel. rewrite length_app in Hfuel.
      unfold taskNodes, taskExpected in Hfuel. cbn [length] in Hfuel. lia.
  - destruct (pool c) as [|t0 p0] eqn:Hp.
    + exists c. unfold treeRunTasks. cbn [runTasks]. rewrite Hp.
      split; [reflexivity|]. split; [reflexivity|].
      cbn [flat_map]. now rewrite app_nil_r.
    + rewrite <- Hp in *.
      assert (Hne : pool c <> []) by (rewrite Hp; discriminate).
      assert (Hlen : length (pool c) <> 0%nat) by (rewrite Hp; discriminate).
      set (k := (sched fuel mod length (pool c))%nat).
      assert (Hk : (k < length (pool c))%nat)
        by (apply Nat.mod_upper_bound; exact Hlen).
      destruct (pool c !! k) as [t|] eqn:Ht;
        [|apply lookup_ge_None_1 in Ht; lia].
      rewrite (treeRunTasks_S fuel efuel c k t Hne eq_refl Ht).
      pose proof (taskNodes_in_pool _ _ _ Ht) as Hsplit.
      pose proof (Permutation_length Hsplit) as Hsl.
      rewrite length_app in Hsl.
      assert (Htok : taskOK t) by (eapply Forall_lookup_1; eauto).
      destruct (expand_correct (taskRoot t) (taskChildDepth t) (gworld c)
                  (gcalls c) efuel)
        as (st & Hrun & Hperm & Hfuts & Htaken & _).
      { now destruct t. }
      { fold (taskNodes t). lia. }
      rewrite Hrun.
      pose proof (Permutation_length Hperm) as Hpl.
      rewrite length_app in Hpl. fold (taskNodes t) in Hpl.
      assert (Htl : (1 <= length (taken st))%nat).
      { destruct (taken st); [contradiction|]. cbn [length]. lia. }
      destruct (IH (mkCluster (delete k (pool c) ++ childFutures st)
                      (world st) (randCalls st) (takenAll c ++ taken st)))
        as (c' & Hrun' & Hpool' & Hperm').
      { cbn [pool]. apply Forall_app. split; [|exact Hfuts].
        now apply Forall_delete. }
      { cbn [pool]. rewrite flat_map_app, length_app. lia. }
      { cbn [pool]. rewrite flat_map_app, length_app. lia. }
      exists c'. split; [exact Hrun'|]. split; [exact Hpool'|].
      rewrite Hperm'. cbn [pool takenAll].
      rewrite Hsplit, flat_map_app. fold (taskNodes t). rewrite <- Hperm.
      rewrite <- !app_assoc. apply Permutation_app_head.
      apply Permutation_app_head. apply Permutation_app_comm.
Qed.

(** ** The nodes of the tree *)

Lemma expected_length_le :
  forall t d, (length (expected d t) <= length (nodes t))%nat.
Proof.
  apply (tree_ind' (fun t => forall d,
                      (length (expected d t) <= length (nodes t))%nat)).
  intros l ks IH d. cbn [expected nodes length].
  destruct (cut d); [cbn [length]; lia|].
  apply le_n_S.
  induction IH as [|k ks Hk _ IHks]; [cbn; lia|].
  cbn [flat_map]. rewrite !length_app. specialize (Hk (u32 (d + 1))). lia.
Qed.

Lemma taskExpected_length_le (d : Z) (t : tree) :
  (length (taskExpected d t) <= length (nodes t))%nat.
Proof.
  destruct t as [l ks]. unfold taskExpected. cbn [kidsOf nodes length].
  apply le_n_S.
  induction ks as [|k ks IH]; [cbn; lia|].
  cbn [flat_map]. rewrite !length_app.
  pose proof (expected_length_le k (u32 (d + 1))). lia.
Qed.

Lemma expected_unlimited :
  isDepthBounded = false -> forall t d, expected d t = nodes t.
Proof.
  intros Hnb.
  apply (tree_ind' (fun t => forall d, expected d t = nodes t)).
  intros l ks IH d. cbn [expected nodes]. unfold cut. rewrite Hnb. cbn [andb].
  f_equal. induction IH as [|k ks Hk _ IHks]; [reflexivity|].
  cbn [flat_map]. now rewrite Hk, IHks.
Qed.

Lemma expected_limited (k : nat) :
  isDepthBounded = true -> maxDepth params < 2 ^ 32 ->
  forall t d, 0 <= d -> maxDepth params - d = Z.of_nat k ->
    expected d t = nodesUpTo k t.
Proof.
  intros Hb Hmax. induction k as [|k IH]; intros t d Hd Hk.
  - rewrite expected_unfold. unfold cut. rewrite Hb. cbn [andb].
    replace (d =? maxDepth params) with true by (symmetry; apply Z.eqb_eq; lia).
    reflexivity.
  - rewrite expected_unfold. unfold cut. rewrite Hb. cbn [andb].
    replace (d =? maxDepth params) with false
      by (symmetry; apply Z.eqb_neq; lia).
    cbn [nodesUpTo]. f_equal.
    rewrite u32_id by lia.
    apply flat_map_ext. intros c. apply IH; lia.
Qed.

Lemma taskExpected_root (root : tree) :
  (isDepthBounded = true -> 2 <= maxDepth params < 2 ^ 32) ->
  taskExpected 1 root
  = if isDepthBounded
    then nodesUpTo (Z.to_nat (maxDepth params - 1)) root
    else nodes root.
Proof.
  intros Hmax. destruct isDepthBounded eqn:Hb.
  - specialize (Hmax eq_refl). unfold taskExpected.
    replace (Z.to_nat (maxDepth params - 1))
      with (S (Z.to_nat (maxDepth params - 2))) by lia.
    cbn [nodesUpTo]. f_equal. change (u32 (1 + 1)) with 2.
    apply flat_map_ext. intros c. apply expected_limited; auto; lia.
  - unfold taskExpected. destruct root as [l ks]. cbn [kidsOf nodes]. f_equal.
    apply flat_map_ext. intros c. now apply expected_unlimited.
Qed.

(** C6 (as the code has it).  For every finite tree whose height is below
    [MaxStackDepth], every source of random numbers, every spawn probability
    and every order in which the workers take the tasks, a search in
    optimisation mode with the null bound runs all its tasks to their end, and
    the nodes taken by all tasks together (the root of each task, and each
    child a task moved into) are the nodes of the tree, every node once: a
    child is moved into by the task that generated it or is the root of
    exactly one spawned task.  With DepthLimited and [2 <= maxDepth] the nodes
    taken are those at depth at most [maxDepth - 1], the root being at depth
    0. *)
Theorem search_takes_each_node_once (root : tree) (fuel efuel : nat) :
  (height root < maxStackDepth)%nat ->
  (length (nodes root) <= fuel)%nat ->
  (2 * length (nodes root) < efuel)%nat ->
  (isDepthBounded = true -> 2 <= maxDepth params < 2 ^ 32) ->
  exists c,
    treeSearch fuel efuel root = Done c
    /\ pool c = []
    /\ Permutation (takenAll c)
         (if isDepthBounded
          then nodesUpTo (Z.to_nat (maxDepth params - 1)) root
          else nodes root).
Proof.
  intros Hh Hfuel Hefuel Hmax.
  pose proof (taskExpected_length_le 1 root) as Hle.
  destruct (runTasks_correct efuel fuel (mkCluster [mkTask 1 root] root 0%nat []))
    as (c & Hrun & Hpool & Hperm).
  - cbn [pool]. apply Forall_one. split; cbn [taskRoot taskChildDepth]; lia.
  - cbn [pool flat_map]. rewrite app_nil_r. unfold taskNodes.
    cbn [taskRoot taskChildDepth]. lia.
  - cbn [pool flat_map]. rewrite app_nil_r. unfold taskNodes.
    cbn [taskRoot taskChildDepth]. lia.
  - exists c. split; [exact Hrun|]. split; [exact Hpool|].
    rewrite Hperm. cbn [pool takenAll flat_map app]. rewrite app_nil_r.
    unfold taskNodes. cbn [taskRoot taskChildDepth].
    now rewrite taskExpected_root.
Qed.

(** ** A search that never spawns *)

(** The nodes still to be taken from the frames [frs], in the order the loop
    will take them: those of the top frame first. *)
Fixpoint pendingDown (cd j : Z) (frs : list (StackElem tree (list tree)))
  : list tree :=
  match frs with
  | [] => []
  | fr :: rest =>
    pendingDown cd (j + 1) rest
    ++ flat_map (expected (u32 (cd + j + 1))) (gstate (gen fr))
  end.

Lemma pendingDown_app (cd : Z) (l1 l2 : list (StackElem tree (list tree))) :
  forall j,
    pendingDown cd j (l1 ++ l2)
    = pendingDown cd (j + Z.of_nat (length l1)) l2 ++ pendingDown cd j l1.
Proof.
  induction l1 as [|fr l1 IH]; intros j; simpl.
  - now rewrite Z.add_0_r, app_nil_r.
  - rewrite IH, app_assoc. do 3 f_equal. lia.
Qed.

(** Moving into a child or popping a frame takes the next node in that order
    and neither spawns nor draws. *)
Lemma descendOrPop_order (cd : Z) (st st' : ExpandState tree (list tree) tree) :
  Inv cd st -> 0 <= stackDepth st ->
  descendOrPop unit tree (list tree) treeGen treeNext isDepthBounded tree
    processNodeOpt params tt st = IterContinue st' ->
  taken st' ++ pendingDown cd 0 (frames st')
  = taken st ++ pendingDown cd 0 (frames st)
  /\ childFutures st' = childFutures st
  /\ randCalls st' = randCalls st.
Proof.
  intros HI Hsd.
  destruct st as [gs sd dp futs w calls tk].
  destruct HI as [Hlo Hhi Hlen Hdp Hfr Hcut Hh Htasks Htk].
  unfold frames in *.
  cbn [genStack stackDepth depth childFutures world randCalls taken] in *.
  assert (Hn : exists n, sd = Z.of_nat n) by (exists (Z.to_nat sd); lia).
  destruct Hn as [n ->].
  replace (Z.to_nat (Z.of_nat n + 1)) with (S n) in * by lia.
  destruct (gs !! n) as [fr|] eqn:Hfrn;
    [|apply lookup_ge_None_1 in Hfrn; lia].
  rewrite (take_S_r _ _ _ Hfrn) in *.
  assert (Hlen_n : length (take n gs) = n) by (rewrite length_take; lia).
  apply Forall_app in Hfr. destruct Hfr as [_ Hfr_top].
  apply List.Forall_inv in Hfr_top.
  rewrite pendingDown_app, Hlen_n. cbn [pendingDown app].
  unfold descendOrPop.
  cbn [genStack stackDepth depth childFutures world randCalls taken].
  rewrite Nat2Z.id, Hfrn.
  destruct (seen fr <? numChildren (gen fr)) eqn:E.
  - apply Z.ltb_lt in E.
    destruct fr as [nd [nc l] sn].
    unfold frameOK in Hfr_top. cbn [gen seen numChildren gstate] in *.
    destruct l as [|c rest]; [simpl in Hfr_top, E; lia|].
    cbn [next gstate numChildren treeNext].
    replace (Z.to_nat (Z.of_nat n + 1)) with (S n) by lia.
    destruct (gs !! S n) as [up|] eqn:Hup; [|discriminate].
    cbn [processNodeOpt node gen seen].
    set (fr2 := mkStackElem nd (mkGenerator nc rest) (sn + 1)).
    set (gs1 := <[S n := mkStackElem c (gen up) (seen up)]> (<[n := fr2]> gs)).
    assert (Hn_lt : (n < length gs)%nat) by (now apply lookup_lt_Some in Hfrn).
    assert (Hgs1 : take (S n) gs1 = take n gs ++ [fr2]).
    { unfold gs1. rewrite take_insert_ge by lia.
      rewrite (take_S_r _ _ fr2).
      - now rewrite take_insert_ge by lia.
      - apply list_lookup_insert_eq. lia. }
    assert (Hu : u32 (dp + 1) = u32 (cd + Z.of_nat n + 1)).
    { rewrite Hdp. apply u32_add_l. }
    fold (cut (u32 (dp + 1))).
    destruct (cut (u32 (dp + 1))) eqn:Ecut; intros Hrun;
      inversion Hrun; subst st'; clear Hrun;
      cbn [genStack stackDepth depth childFutures world randCalls taken];
      (split; [|split; reflexivity]); rewrite Hu in Ecut.
    + replace (Z.to_nat (Z.of_nat n + 1 - 1 + 1)) with (S n) by lia.
      rewrite Hgs1, pendingDown_app, Hlen_n. cbn [pendingDown app].
      cbn [gen gstate fr2 flat_map].
      replace (cd + (0 + Z.of_nat n) + 1) with (cd + Z.of_nat n + 1) by lia.
      rewrite (expected_unfold _ c), Ecut.
      rewrite <- !app_assoc. reflexivity.
    + replace (Z.to_nat (Z.of_nat n + 1 + 1)) with (S (S n)) by lia.
      set (newfr := mkStackElem c (treeGen tt c) 0).
      assert (Hgs2 : take (S (S n)) (<[S n := newfr]> gs1)
                     = (take n gs ++ [fr2]) ++ [newfr]).
      { rewrite (take_S_r _ _ newfr).
        - rewrite take_insert_ge by lia. now rewrite Hgs1.
        - apply list_lookup_insert_eq. unfold gs1.
          rewrite !length_insert. apply lookup_lt_Some in Hup. exact Hup. }
      rewrite Hgs2, !pendingDown_app, !length_app, Hlen_n.
      cbn [pendingDown length app].
      cbn [gen gstate fr2 newfr flat_map treeGen].
      replace (cd + (0 + Z.of_nat n) + 1) with (cd + Z.of_nat n + 1) by lia.
      replace (cd + (0 + Z.of_nat (n + 1)) + 1)
        with (cd + Z.of_nat n + 1 + 1) by lia.
      rewrite (expected_unfold _ c), Ecut, u32_add_l.
      rewrite <- !app_assoc. reflexivity.
  - apply Z.ltb_ge in E. intros Hrun. inversion Hrun; subst st'; clear Hrun.
    cbn [genStack stackDepth depth childFutures world randCalls taken].
    replace (Z.to_nat (Z.of_nat n - 1 + 1)) with n by lia.
    assert (Hnil : gstate (gen fr) = []).
    { unfold frameOK in Hfr_top.
      destruct (gstate (gen fr)); [reflexivity|]. cbn [length] in Hfr_top.
      lia. }
    rewrite Hnil. cbn [flat_map app].
    split; [reflexivity|split; reflexivity].
Qed.

Lemma spawnBlock_off (cd : Z) (st : ExpandState tree (list tree) tree) :
  spawnProbability params = 0 ->
  spawnBlock tree (list tree) treeNext tree rand params cd st = Done st.
Proof. intros H0. unfold spawnBlock. now rewrite H0. Qed.

Lemma expandLoop_order (cd : Z) :
  spawnProbability params = 0 ->
  forall fuel st st',
    Inv cd st ->
    treeExpandLoop fuel cd st = Done st' ->
    taken st' ++ pendingDown cd 0 (frames st')
    = taken st ++ pendingDown cd 0 (frames st)
    /\ childFutures st' = childFutures st
    /\ randCalls st' = randCalls st.
Proof.
  intros H0. induction fuel as [|fuel IH]; intros st st' HI Hrun;
    [discriminate|].
  unfold treeExpandLoop in Hrun. cbn [expandLoop] in Hrun.
  destruct (0 <=? stackDepth st) eqn:E.
  - apply Z.leb_le in E.
    destruct (iteration_inv cd st HI E) as (st1 & Hit & HI1 & _ & _).
    unfold treeIteration in Hit. rewrite Hit in Hrun.
    unfold iteration in Hit. cbn [andb] in Hit.
    rewrite (spawnBlock_off cd st H0) in Hit.
    destruct (descendOrPop_order cd st st1 HI E Hit) as (O1 & O2 & O3).
    destruct (IH st1 st' HI1 Hrun) as (P1 & P2 & P3).
    split; [congruence|]. split; congruence.
  - inversion Hrun; subst st'. repeat split.
Qed.

(** The state a task starts its loop in satisfies the invariant. *)
Lemma expandInit_inv (t : tree) (cd : Z) (w : tree) (calls : nat) :
  taskOK (mkTask cd t) ->
  Inv cd (expandInit unit tree (list tree) treeGen false maxStackDepth tree
            (fun _ w => w) tt t cd w calls)
  /\ frames (expandInit unit tree (list tree) treeGen false maxStackDepth tree
               (fun _ w => w) tt t cd w calls)
     = [StackElem_new unit tree (list tree) treeGen tt t].
Proof.
  intros [Hh Hcd]. cbn [taskRoot taskChildDepth] in Hh, Hcd.
  assert (Hfr0 : frames (expandInit unit tree (list tree) treeGen false
                           maxStackDepth tree (fun _ w => w) tt t cd w calls)
                 = [StackElem_new unit tree (list tree) treeGen tt t]).
  { unfold frames, expandInit. cbn [stackDepth genStack].
    change (Z.to_nat (0 + 1)) with 1%nat.
    destruct maxStackDepth as [|m]; [lia|]. reflexivity. }
  split; [|exact Hfr0].
  constructor; try rewrite Hfr0; unfold expandInit;
    cbn [stackDepth genStack depth childFutures taken].
  - lia.
  - lia.
  - apply length_replicate.
  - rewrite Z.add_0_r. symmetry. now apply u32_id.
  - apply Forall_one. unfold frameOK, StackElem_new, treeGen.
    cbn [gen seen numChildren gstate]. lia.
  - intros j Hj. lia.
  - cbn [heightsFrom]. split; [|exact I].
    intros c Hc. unfold StackElem_new, treeGen in Hc.
    cbn [gen gstate] in Hc. pose proof (height_kid t c Hc). lia.
  - constructor.
  - discriminate.
Qed.

(** X16: with [spawnProbability = 0] the Random skeleton is a sequential
    depth-first search.  For a tree whose height is below [MaxStackDepth] the
    root task runs to its end, never calls [rand] and spawns no task, and it
    takes the nodes of the tree in preorder (under DepthLimited with
    [2 <= maxDepth], those at depth at most [maxDepth - 1]); the search ends
    with an empty pool after this one task. *)
Theorem search_sequential_without_spawning (root : tree) (fuel efuel : nat) :
  spawnProbability params = 0 ->
  (height root < maxStackDepth)%nat ->
  (2 * length (nodes root) < efuel)%nat ->
  (isDepthBounded = true -> 2 <= maxDepth params < 2 ^ 32) ->
  exists c,
    treeSearch (S fuel) efuel root = Done c
    /\ pool c = []
    /\ gcalls c = 0%nat
    /\ takenAll c
       = if isDepthBounded
         then nodesUpTo (Z.to_nat (maxDepth params - 1)) root
         else nodes root.
Proof.
  intros H0 Hh Hefuel Hmax.
  pose proof (taskExpected_length_le 1 root) as Hle.
  assert (Hok : taskOK (mkTask 1 root))
    by (split; cbn [taskRoot taskChildDepth]; lia).
  destruct (expand_correct root 1 root 0%nat efuel Hok ltac:(lia))
    as (st & Hrun & _ & _ & _ & Hsd).
  destruct (expandInit_inv root 1 root 0%nat Hok) as [HI0 Hfr0].
  pose proof Hrun as Hrun'. unfold treeExpand, expand in Hrun'.
  destruct (expandLoop_order 1 H0 efuel _ st HI0 Hrun')
    as (Hord & Hfuts & Hcalls).
  rewrite Hfr0 in Hord. unfold frames in Hord. rewrite Hsd in Hord.
  change (Z.to_nat (-1 + 1)) with 0%nat in Hord. rewrite take_0 in Hord.
  cbn [pendingDown app StackElem_new gen gstate treeGen expandInit taken
       childFutures randCalls] in Hord, Hfuts, Hcalls.
  rewrite app_nil_r, Z.add_0_r in Hord.
  change (root :: flat_map (expected (u32 (1 + 1))) (kidsOf root))
    with (taskExpected 1 root) in Hord.
  rewrite (taskExpected_root root Hmax) in Hord.
  exists (mkCluster [] (world st) 0%nat (taken st)).
  split; [|split; [reflexivity|split; [reflexivity|exact Hord]]].
  unfold treeSearch, searchTasks.
  fold (treeRunTasks (S fuel) efuel).
  rewrite (treeRunTasks_S fuel efuel _ 0%nat (mkTask 1 root));
    cbn [pool length taskRoot taskChildDepth gworld gcalls createTask];
    [|discriminate|now rewrite Nat.mod_1_r|reflexivity].
  rewrite Hrun. cbn [pool takenAll app]. rewrite Hfuts, Hcalls.
  unfold treeRunTasks. destruct fuel; reflexivity.
Qed.

End TreeSearch.

(** ** Small trees *)

Definition twoKids : tree := T 0 [T 1 [T 3 []]; T 9 []].

Definition sevenNodes : tree :=
  T 0 [T 1 [T 3 []; T 4 []]; T 2 [T 5 []; T 6 [T 7 []]]].

Definition chain1 : tree := T 2 [].
Definition chain2 : tree := T 1 [chain1].
Definition chain3 : tree := T 0 [chain2].

(** A source of random numbers that makes every spawn test with
    [spawnProbability = 1] fire, and a scheduler that always takes the first
    task of the pool. *)
Definition zeros (_ : nat) : Z := 0.
Definition firstTask (_ : nat) : nat := 0%nat.

(** The state in which the loop of the task of [twoKids] starts, and the state
    after its first iteration. *)
Definition atRoot : ExpandState tree (list tree) tree :=
  expandInit unit tree (list tree) treeGen false 4 tree (fun _ w => w) tt
    twoKids 1 twoKids 0.

Definition rootFrame : StackElem tree (list tree) :=
  mkStackElem twoKids (mkGenerator 2 [T 9 []]) 1.

Definition inFirstChild : ExpandState tree (list tree) tree :=
  mkExpandState
    [rootFrame;
     mkStackElem (T 1 [T 3 []]) (mkGenerator 1 [T 3 []]) 0;
     StackElem_new unit tree (list tree) treeGen tt twoKids;
     StackElem_new unit tree (list tree) treeGen tt twoKids]
    1 2 [] (T 1 [T 3 []]) 2 [twoKids; T 1 [T 3 []]].

Example first_iteration :
  treeIteration false zeros (mkParams 1 0) 1 atRoot = IterContinue inFirstChild.
Proof. reflexivity. Qed.

(** C5 as it is written fails.  In [atRoot] the only frame in use is frame 0
    and it has two unseen children, so it is the shallowest frame with unseen
    children; the spawn test fires (the draw is 0, below [2^30 / 1]) and no
    task is created: the scan stops below [stackDepth], which is 0. *)
Lemma spawn_skips_top_frame :
  stackDepth atRoot = 0
  /\ option_map (fun fr => (seen fr, numChildren (gen fr)))
       (genStack atRoot !! 0%nat) = Some (0, 2)
  /\ (draw zeros (randCalls atRoot) <? 1073741824 ÷ 1) = true
  /\ spawnBlock tree (list tree) treeNext tree zeros (mkParams 1 0) 1 atRoot
     = Done (afterDraw atRoot)
  /\ childFutures (afterDraw atRoot) = []
  /\ genStack (afterDraw atRoot) = genStack atRoot.
Proof. repeat split; reflexivity. Qed.

(** One iteration later the root frame lies below the top of the stack and
    its remaining child becomes a task of child depth 2. *)
Lemma spawnBlock_spec_witness :
  spawnBlock tree (list tree) treeNext tree zeros (mkParams 1 0) 1 inFirstChild
  = Done (withSpawned (afterDraw inFirstChild)
            (<[Z.to_nat 0 := exhausted tree (list tree) treeNext rootFrame]>
               (genStack inFirstChild))
            (childFutures inFirstChild
             ++ map (mkTask (u32 (1 + 0 + 1)))
                  (unseenChildren tree (list tree) treeNext rootFrame))).
Proof.
  refine (proj1 (proj1 (proj1 (proj2 (proj2
            (spawnBlock_spec tree (list tree) treeNext tree zeros
               (mkParams 1 0) 1 inFirstChild))) _ _) 0 rootFrame _)).
  - discriminate.
  - reflexivity.
  - unfold shallowestBelowTop. split; [split; by_eval|].
    split; [reflexivity|]. split; [reflexivity|].
    intros j Hj. lia.
Defined.

Example spawned_task :
  option_map (fun st => childFutures st)
    (match spawnBlock tree (list tree) treeNext tree zeros (mkParams 1 0) 1
             inFirstChild with
     | Done st => Some st
     | _ => None
     end)
  = Some [mkTask 2 (T 9 [])].
Proof. reflexivity. Qed.

(** A search on [sevenNodes] with depth limit 3, spawning whenever it can. *)
Lemma search_takes_each_node_once_witness :
  exists c,
    treeSearch true 8 zeros firstTask (mkParams 1 3) 8 17 sevenNodes = Done c
    /\ pool c = []
    /\ Permutation (takenAll c) (nodesUpTo (Z.to_nat (3 - 1)) sevenNodes).
Proof.
  apply (search_takes_each_node_once true 8 zeros firstTask (mkParams 1 3)
           sevenNodes 8 17).
  - vm_compute. lia.
  - vm_compute. lia.
  - vm_compute. lia.
  - intros _. cbn [maxDepth]. lia.
Defined.

Example sevenNodes_search :
  option_map (fun c => map labelOf (takenAll c))
    (match treeSearch true 8 zeros firstTask (mkParams 1 3) 8 17 sevenNodes with
     | Done c => Some c
     | _ => None
     end)
  = Some [0; 1; 3; 4; 2; 5; 6].
Proof. vm_compute. reflexivity. Qed.

(** C6 as it is written fails on a chain of three nodes (depths 0, 1, 2).
    With DepthLimited and [maxDepth = 1] the test [depth == maxDepth] never
    holds (the counter of a child is at least 2) and the node at depth 2 is
    taken; with [maxDepth = 2] the node at depth 2 is not taken.  With
    [MaxStackDepth = 2] the frame for the node at depth 2 lies outside the
    generator stack. *)
Lemma depth_limit_off_by_one :
  treeSearch true 8 zeros firstTask (mkParams 0 1) 3 7 chain3
  = Done (mkCluster [] chain1 0 [chain3; chain2; chain1])
  /\ nodesUpTo 1 chain3 = [chain3; chain2]
  /\ treeSearch true 8 zeros firstTask (mkParams 0 2) 3 7 chain3
     = Done (mkCluster [] chain2 0 [chain3; chain2])
  /\ nodesUpTo 2 chain3 = [chain3; chain2; chain1]
  /\ treeSearch false 2 zeros firstTask (mkParams 0 0) 3 7 chain3
     = StackOverflow.
Proof. repeat split; reflexivity. Qed.

(** In optimisation mode the root of a spawned task is taken but never handed
    to [processNode]: expand only accumulates it under Enumeration.  On
    [twoKids] the leaf with objective 9 becomes a task of its own when the
    spawn test fires, and the search ends with the incumbent 3; without
    spawning it ends with 9. *)
Example spawned_root_not_compared :
  option_map (fun c => (map labelOf (takenAll c), labelOf (gworld c)))
    (match treeSearch false 8 zeros firstTask (mkParams 1 0) 4 9 twoKids with
     | Done c => Some c
     | _ => None
     end)
  = Some ([0; 1; 3; 9], 3)
  /\ option_map (fun c => (map labelOf (takenAll c), labelOf (gworld c)))
       (match treeSearch false 8 zeros firstTask (mkParams 0 0) 4 9 twoKids with
        | Done c => Some c
        | _ => None
        end)
     = Some ([0; 1; 3; 9], 9).
Proof. split; vm_compute; reflexivity. Qed.

(** ** Searches that do not spawn, and a stopped one *)

Lemma search_sequential_without_spawning_witness :
  exists c,
    treeSearch false 8 zeros firstTask (mkParams 0 0) 1 17 sevenNodes = Done c
    /\ pool c = []
    /\ gcalls c = 0%nat
    /\ takenAll c = nodes sevenNodes.
Proof.
  apply (search_sequential_without_spawning false 8 zeros firstTask
           (mkParams 0 0) sevenNodes 0 17).
  - reflexivity.
  - vm_compute. lia.
  - vm_compute. lia.
  - discriminate.
Defined.

Example sevenNodes_preorder :
  map labelOf (nodes sevenNodes) = [0; 1; 3; 4; 2; 5; 6; 7].
Proof. reflexivity. Qed.

(** A spawn probability of two thousand million: the test draws and never
    fires. *)
Lemma spawn_threshold_witness :
  spawnBlock tree (list tree) treeNext tree zeros (mkParams 2000000000 0) 1
    inFirstChild
  = Done (afterDraw inFirstChild).
Proof.
  apply (proj1 (spawn_threshold tree (list tree) treeNext tree zeros
                  (mkParams 2000000000 0) 1 inFirstChild)).
  reflexivity.
Defined.

(** Two queued tasks of a decision search whose registry says stop. *)
Definition stoppedPool : Cluster tree tree :=
  mkCluster [mkTask 1 twoKids; mkTask 2 chain1] twoKids 0 [].

Lemma stopped_search_drains_witness :
  exists c',
    runTasks unit tree (list tree) treeGen treeNext false true false 4 tree
      processNodeOpt (fun _ w => w) (fun _ => true) zeros firstTask 2 (S 0)
      (mkParams 1 0) tt stoppedPool = Done c'
    /\ pool c' = []
    /\ gworld c' = gworld stoppedPool
    /\ gcalls c' = gcalls stoppedPool
    /\ Permutation (takenAll c')
         (takenAll stoppedPool ++ map taskRoot (pool stoppedPool)).
Proof.
  apply (stopped_search_drains unit tree (list tree) treeGen treeNext false
           true false 4 tree processNodeOpt (fun _ w => w) (fun _ => true)
           zeros firstTask 2 0 (mkParams 1 0) tt stoppedPool).
  - reflexivity.
  - reflexivity.
  - reflexivity.
  - cbn. lia.
Defined.

Example stoppedPool_run :
  runTasks unit tree (list tree) treeGen treeNext false true false 4 tree
    processNodeOpt (fun _ w => w) (fun _ => true) zeros firstTask 2 1
    (mkParams 1 0) tt stoppedPool
  = Done (mkCluster [] twoKids 0 [twoKids; chain1]).
Proof. reflexivity. Qed.

End RandomSkel.

(* ================================================================== *)
(** * The enumerator of the numerical semigroups application *)
(* ================================================================== *)

Module Semigroups.

Local Open Scope Z_scope.

(** [uint64_t] arithmetic. *)
Definition u64 (x : Z) : Z := x mod 2 ^ 64.

Section Enumerator.

(** [Monoid] (monoid.hpp) is not part of the sources at hand; the enumerator
    only reads its field [genus], an unsigned integer. *)
Variable Monoid : Type.
Variable genus : Monoid -> nat.

(** [CountDepths]: the vector [counts] is its only data member. *)
Record CountDepths : Type := mkCountDepths { counts : list Z }.

(** The constructor: [counts.resize(50)] gives 50 entries, all zero. *)
Definition CountDepths_new : CountDepths := mkCountDepths (replicate 50 0).

(** [accumulate(m)]: [counts[m.genus] += 1].  [operator[]] does not check its
    index; [None] stands for an access outside the vector. *)
Definition accumulate (m : Monoid) (e : CountDepths) : option CountDepths :=
  match counts e !! genus m with
  | Some c => Some (mkCountDepths (<[genus m := u64 (c + 1)]> (counts e)))
  | None => None
  end.

(** The loop of [combine] at index [i], with [k] passes to go:
    [counts[i] += other[i]]. *)
Fixpoint combine_loop (k i : nat) (other cs : list Z) : option (list Z) :=
  match k with
  | O => Some cs
  | S k' =>
    match cs !! i, other !! i with
    | Some c, Some o => combine_loop k' (S i) other (<[i := u64 (c + o)]> cs)
    | _, _ => None
    end
  end.

(** [combine(other)]: one pass per entry of [counts]. *)
Definition combine (other : list Z) (e : CountDepths) : option CountDepths :=
  option_map mkCountDepths
    (combine_loop (length (counts e)) 0 other (counts e)).

(** [get()] *)
Definition get (e : CountDepths) : list Z := counts e.

(** The loop at the end of [hpx_main]:
    [for (auto i = 0; i <= maxDepth; ++i) cout << i << counts[i]], at index
    [i] with [k] rows to go; the rows printed, or [None] for a read outside
    the vector. *)
Fixpoint resultsTable (k i : nat) (cs : list Z) : option (list (nat * Z)) :=
  match k with
  | O => Some []
  | S k' =>
    match cs !! i with
    | Some c => option_map (cons (i, c)) (resultsTable k' (S i) cs)
    | None => None
    end
  end.

Definition printResults (maxDepth : nat) (cs : list Z)
  : option (list (nat * Z)) :=
  resultsTable (S maxDepth) 0 cs.

(** An enumerator that sees the nodes [ms] one after the other, as a task
    does with the nodes it takes. *)
Fixpoint accumulateAll (ms : list Monoid) (e : CountDepths)
  : option CountDepths :=
  match ms with
  | [] => Some e
  | m :: ms' =>
    match accumulate m e with
    | Some e' => accumulateAll ms' e'
    | None => None
    end
  end.

(** The number of nodes of genus [g] among [ms]. *)
Definition ofGenus (g : nat) (ms : list Monoid) : nat :=
  length (List.filter (fun m => Nat.eqb (genus m) g) ms).

(** The enumerators a search can hold: a new one, one that accumulated a
    node, and one that was combined with the counts of another. *)
Inductive built : CountDepths -> Prop :=
| built_new : built CountDepths_new
| built_accumulate m e e' :
    built e -> accumulate m e = Some e' -> built e'
| built_combine e1 e2 e' :
    built e1 -> built e2 -> combine (get e2) e1 = Some e' -> built e'.

(** ** Properties *)

Lemma u64_add_l (a b : Z) : u64 (u64 a + b) = u64 (a + b).
Proof. unfold u64. apply Zplus_mod_idemp_l. Qed.

Lemma u64_add_r (a b : Z) : u64 (a + u64 b) = u64 (a + b).
Proof. unfold u64. apply Zplus_mod_idemp_r. Qed.

Lemma accumulate_lookup (m : Monoid) (e e' : CountDepths) :
  accumulate m e = Some e' ->
  length (counts e') = length (counts e)
  /\ (genus m < length (counts e))%nat
  /\ forall g c, counts e !! g = Some c ->
       counts e' !! g
       = Some (if Nat.eqb (genus m) g then u64 (c + 1) else c).
Proof.
  unfold accumulate. destruct (counts e !! genus m) as [c0|] eqn:E;
    [|discriminate].
  intros H. inversion H; subst e'. cbn [counts].
  pose proof (lookup_lt_Some _ _ _ E) as Hlt.
  split; [apply length_insert|]. split; [exact Hlt|].
  intros g c Hg. destruct (Nat.eqb (genus m) g) eqn:Eg.
  - apply Nat.eqb_eq in Eg. subst g. rewrite E in Hg. inversion Hg; subst.
    now apply list_lookup_insert_eq.
  - apply Nat.eqb_neq in Eg. now rewrite list_lookup_insert_ne.
Qed.

Lemma accumulate_in_range (m : Monoid) (e : CountDepths) :
  (genus m < length (counts e))%nat -> exists e', accumulate m e = Some e'.
Proof.
  intros H. unfold accumulate.
  destruct (lookup_lt_is_Some_2 _ _ H) as [c ->]. eauto.
Qed.

Lemma accumulate_out_of_range (m : Monoid) (e : CountDepths) :
  (length (counts e) <= genus m)%nat -> accumulate m e = None.
Proof.
  intros H. unfold accumulate. now rewrite lookup_ge_None_2.
Qed.

Lemma ofGenus_cons (g : nat) (m : Monoid) (ms : list Monoid) :
  ofGenus g (m :: ms)
  = ((if Nat.eqb (genus m) g then 1 else 0) + ofGenus g ms)%nat.
Proof.
  unfold ofGenus. cbn [List.filter].
  destruct (Nat.eqb (genus m) g); reflexivity.
Qed.

Lemma ofGenus_app (g : nat) (l1 l2 : list Monoid) :
  ofGenus g (l1 ++ l2) = (ofGenus g l1 + ofGenus g l2)%nat.
Proof. unfold ofGenus. now rewrite List.filter_app, length_app. Qed.

Lemma u64_range (a : Z) : 0 <= u64 a < 2 ^ 64.
Proof. unfold u64. apply Z.mod_pos_bound. reflexivity. Qed.

Lemma u64_small (a : Z) : 0 <= a < 2 ^ 64 -> u64 a = a.
Proof. intros H. unfold u64. now apply Z.mod_small. Qed.

Lemma accumulateAll_lookup (ms : list Monoid) :
  forall e,
    Forall (fun m => (genus m < length (counts e))%nat) ms ->
    exists e',
      accumulateAll ms e = Some e'
      /\ length (counts e') = length (counts e)
      /\ forall g c, counts e !! g = Some c -> 0 <= c < 2 ^ 64 ->
           counts e' !! g = Some (u64 (c + Z.of_nat (ofGenus g ms))).
Proof.
  induction ms as [|m ms IH]; intros e Hall.
  - exists e. split; [reflexivity|]. split; [reflexivity|].
    intros g c Hg Hc. unfold ofGenus. cbn [List.filter length].
    now rewrite Z.add_0_r, u64_small.
  - inversion Hall as [|m' ms' Hm Hms]; subst.
    destruct (accumulate_in_range m e Hm) as [e1 He1].
    destruct (accumulate_lookup m e e1 He1) as (Hlen & _ & Hlook).
    destruct (IH e1) as (e' & Hrun & Hlen' & Hlook').
    { now rewrite Hlen. }
    exists e'. cbn [accumulateAll]. rewrite He1.
    split; [exact Hrun|]. split; [congruence|].
    intros g c Hg Hc. rewrite ofGenus_cons.
    rewrite (Hlook' g _ (Hlook g c Hg)).
    + f_equal. destruct (Nat.eqb (genus m) g).
      * rewrite u64_add_l. f_equal. lia.
      * reflexivity.
    + destruct (Nat.eqb (genus m) g); [apply u64_range|exact Hc].
Qed.

Lemma accumulateAll_in_range (ms : list Monoid) :
  forall e e',
    accumulateAll ms e = Some e' ->
    Forall (fun m => (genus m < length (counts e))%nat) ms.
Proof.
  induction ms as [|m ms IH]; intros e e' Hrun; [constructor|].
  cbn [accumulateAll] in Hrun.
  destruct (accumulate m e) as [e1|] eqn:He1; [|discriminate].
  destruct (accumulate_lookup m e e1 He1) as (Hlen & Hm & _).
  constructor; [exact Hm|]. rewrite <- Hlen. now apply (IH e1 e').
Qed.

Lemma accumulateAll_out_of_range (ms : list Monoid) :
  forall e,
    Exists (fun m => (length (counts e) <= genus m)%nat) ms ->
    accumulateAll ms e = None.
Proof.
  induction ms as [|m ms IH]; intros e Hex; [inversion Hex|].
  cbn [accumulateAll].
  destruct (accumulate m e) as [e1|] eqn:He1; [|reflexivity].
  destruct (accumulate_lookup m e e1 He1) as (Hlen & Hm & _).
  apply IH. rewrite Hlen.
  inversion Hex as [m' ms' Hbad|m' ms' Htl]; subst; [lia|exact Htl].
Qed.

Lemma new_lookup (g : nat) :
  (g < 50)%nat -> counts CountDepths_new !! g = Some 0.
Proof.
  intros Hg. unfold CountDepths_new. cbn [counts].
  now apply lookup_replicate_2.
Qed.

Lemma new_length : length (counts CountDepths_new) = 50%nat.
Proof. apply length_replicate. Qed.

Lemma combine_loop_spec (other : list Z) (k : nat) :
  forall i cs,
    (i + k = length cs)%nat -> (length cs <= length other)%nat ->
    exists r,
      combine_loop k i other cs = Some r
      /\ length r = length cs
      /\ forall j c o, cs !! j = Some c -> other !! j = Some o ->
           r !! j = Some (if decide (i <= j)%nat then u64 (c + o) else c).
Proof.
  induction k as [|k IH]; intros i cs Hik Hlen.
  - exists cs. split; [reflexivity|]. split; [reflexivity|].
    intros j c o Hc Ho. apply lookup_lt_Some in Hc as Hj.
    destruct (decide (i <= j)%nat); [lia|exact Hc].
  - cbn [combine_loop].
    destruct (lookup_lt_is_Some_2 cs i ltac:(lia)) as [c0 Hc0].
    destruct (lookup_lt_is_Some_2 other i ltac:(lia)) as [o0 Ho0].
    rewrite Hc0, Ho0.
    destruct (IH (S i) (<[i := u64 (c0 + o0)]> cs)) as (r & Hrun & Hr & Hlook).
    { rewrite length_insert. lia. }
    { now rewrite length_insert. }
    exists r. split; [exact Hrun|]. rewrite length_insert in Hr.
    split; [exact Hr|].
    intros j c o Hc Ho.
    destruct (decide (i = j)) as [->|Hne].
    + rewrite Hc0 in Hc. rewrite Ho0 in Ho. inversion Hc; inversion Ho; subst.
      rewrite (Hlook j (u64 (c + o)) o);
        [|apply list_lookup_insert_eq; now apply lookup_lt_Some in Hc0|exact Ho0].
      destruct (decide (S j <= j)%nat); [lia|].
      destruct (decide (j <= j)%nat); [reflexivity|lia].
    + rewrite (Hlook j c o); [|now rewrite list_lookup_insert_ne|exact Ho].
      destruct (decide (S i <= j)%nat), (decide (i <= j)%nat);
        try reflexivity; lia.
Qed.

Lemma combine_loop_short (other : list Z) (k : nat) :
  forall i cs,
    (i + k = length cs)%nat -> (length other < length cs)%nat ->
    (i <= length other)%nat ->
    combine_loop k i other cs = None.
Proof.
  induction k as [|k IH]; intros i cs Hik Hlen Hi; [lia|].
  cbn [combine_loop].
  destruct (cs !! i) as [c0|]; [|reflexivity].
  destruct (other !! i) as [o0|] eqn:Ho; [|reflexivity].
  apply lookup_lt_Some in Ho.
  apply IH; rewrite ?length_insert; lia.
Qed.

(** X17: an enumerator that has seen the nodes [ms], all of genus below 50,
    holds 50 counters, the one at index [g] being the number of nodes of
    genus [g] modulo [2^64]; a node of genus 50 or more makes [accumulate]
    access the vector outside its bounds. *)
Theorem accumulateAll_counts (ms : list Monoid) :
  (Forall (fun m => (genus m < 50)%nat) ms ->
   exists e,
     accumulateAll ms CountDepths_new = Some e
     /\ length (get e) = 50%nat
     /\ forall g, (g < 50)%nat ->
          get e !! g = Some (u64 (Z.of_nat (ofGenus g ms))))
  /\ (Exists (fun m => (50 <= genus m)%nat) ms ->
      accumulateAll ms CountDepths_new = None).
Proof.
  split.
  - intros Hall.
    destruct (accumulateAll_lookup ms CountDepths_new) as (e & Hrun & Hlen & Hl).
    { now rewrite new_length. }
    exists e. split; [exact Hrun|]. unfold get.
    split; [now rewrite Hlen, new_length|].
    intros g Hg. rewrite (Hl g 0 (new_lookup g Hg)); [reflexivity|lia].
  - intros Hex. apply accumulateAll_out_of_range. now rewrite new_length.
Qed.

(** X18: [combine] adds the counters of [other] entry by entry modulo [2^64]
    when [other] has at least as many entries as [counts], and ignores the
    entries beyond; with a shorter [other] it reads past its end. *)
Theorem combine_pointwise (other : list Z) (e : CountDepths) :
  ((length (counts e) <= length other)%nat ->
   exists e',
     combine other e = Some e'
     /\ length (get e') = length (get e)
     /\ forall j c o, get e !! j = Some c -> other !! j = Some o ->
          get e' !! j = Some (u64 (c + o)))
  /\ ((length other < length (counts e))%nat -> combine other e = None).
Proof.
  unfold combine, get. split.
  - intros Hlen.
    destruct (combine_loop_spec other (length (counts e)) 0%nat (counts e))
      as (r & -> & Hr & Hlook); [lia|exact Hlen|].
    exists (mkCountDepths r). cbn [option_map counts].
    split; [reflexivity|]. split; [exact Hr|].
    intros j c o Hc Ho. rewrite (Hlook j c o Hc Ho).
    destruct (decide (0 <= j)%nat); [reflexivity|lia].
  - intros Hlen.
    rewrite (combine_loop_short other (length (counts e)) 0%nat (counts e));
      [reflexivity|lia|exact Hlen|lia].
Qed.

(** X19: counting in pieces gives the same counters: combining the enumerator
    of the nodes [l1] with the counts of the enumerator of the nodes [l2] is
    the enumerator of [l1 ++ l2]. *)
Theorem combine_accumulateAll (l1 l2 : list Monoid) (e1 e2 : CountDepths) :
  accumulateAll l1 CountDepths_new = Some e1 ->
  accumulateAll l2 CountDepths_new = Some e2 ->
  combine (get e2) e1 = accumulateAll (l1 ++ l2) CountDepths_new
  /\ is_Some (combine (get e2) e1).
Proof.
  intros H1 H2.
  pose proof (accumulateAll_in_range _ _ _ H1) as R1.
  pose proof (accumulateAll_in_range _ _ _ H2) as R2.
  destruct (accumulateAll_lookup l1 CountDepths_new R1) as (e1' & H1' & L1 & K1).
  destruct (accumulateAll_lookup l2 CountDepths_new R2) as (e2' & H2' & L2 & K2).
  rewrite H1 in H1'. rewrite H2 in H2'. inversion H1'; inversion H2'.
  subst e1' e2'. clear H1' H2'.
  destruct (accumulateAll_lookup (l1 ++ l2) CountDepths_new)
    as (e & H12 & L12 & K12).
  { apply Forall_app. now split. }
  rewrite new_length in L1, L2, L12.
  destruct (combine_loop_spec (counts e2) (length (counts e1)) 0%nat (counts e1))
    as (r & Hr & Hlen & Hlook); [lia|lia|].
  assert (Hc : combine (get e2) e1 = Some (mkCountDepths r)).
  { unfold combine, get. now rewrite Hr. }
  rewrite Hc, H12. split; [|eauto]. do 2 f_equal.
  destruct e as [cs]. cbn [counts] in *. f_equal.
  apply list_eq. intros j.
  destruct (decide (j < 50)%nat) as [Hj|Hj].
  - pose proof (new_lookup j Hj) as Hn.
    rewrite (K12 j 0 Hn ltac:(lia)).
    rewrite (Hlook j _ _ (K1 j 0 Hn ltac:(lia)) (K2 j 0 Hn ltac:(lia))).
    destruct (decide (0 <= j)%nat); [|lia].
    f_equal. rewrite !Z.add_0_l, u64_add_l, u64_add_r, ofGenus_app.
    f_equal. lia.
  - rewrite !lookup_ge_None_2 by lia. reflexivity.
Qed.

Lemma built_length (e : CountDepths) : built e -> length (counts e) = 50%nat.
Proof.
  induction 1 as [|m e e' _ IH Hacc|e1 e2 e' _ IH1 _ IH2 Hc].
  - apply new_length.
  - destruct (accumulate_lookup m e e' Hacc) as (-> & _). exact IH.
  - destruct (proj1 (combine_pointwise (get e2) e1)) as (e'' & He & Hlen & _).
    { unfold get. lia. }
    rewrite Hc in He. inversion He; subst e''. unfold get in Hlen. lia.
Qed.

Lemma resultsTable_spec (cs : list Z) (k : nat) :
  forall i,
    ((i + k <= length cs)%nat ->
     exists rows,
       resultsTable k i cs = Some rows
       /\ map fst rows = seq i k
       /\ forall j c, In (j, c) rows -> cs !! j = Some c)
    /\ ((length cs < i + k)%nat -> (i <= length cs)%nat ->
        resultsTable k i cs = None).
Proof.
  induction k as [|k IH]; intros i; split.
  - intros _. exists []. split; [reflexivity|]. split; [reflexivity|].
    intros j c [].
  - lia.
  - intros Hlen. cbn [resultsTable].
    destruct (lookup_lt_is_Some_2 cs i ltac:(lia)) as [c0 Hc0]. rewrite Hc0.
    destruct (proj1 (IH (S i)) ltac:(lia)) as (rows & -> & Hfst & Hin).
    exists ((i, c0) :: rows). split; [reflexivity|].
    split; [cbn [map fst seq]; now rewrite Hfst|].
    intros j c [Heq|Hj]; [inversion Heq; now subst|now apply Hin].
  - intros Hlen Hi. cbn [resultsTable].
    destruct (cs !! i) as [c0|] eqn:Hc0; [|reflexivity].
    apply lookup_lt_Some in Hc0.
    now rewrite (proj2 (IH (S i)) ltac:(lia) ltac:(lia)).
Qed.

(** X20: every enumerator a search can hold has exactly 50 counters, so the
    results table of [hpx_main], which reads the entries [0 .. maxDepth],
    stays inside the vector exactly when [maxDepth] is below 50; it then has
    one row per depth up to [maxDepth]. *)
Theorem printResults_bounds (maxDepth : nat) (e : CountDepths) :
  built e ->
  length (get e) = 50%nat
  /\ (printResults maxDepth (get e) = None <-> (50 <= maxDepth)%nat)
  /\ ((maxDepth < 50)%nat ->
      exists rows,
        printResults maxDepth (get e) = Some rows
        /\ map fst rows = seq 0 (S maxDepth)
        /\ forall j c, In (j, c) rows -> get e !! j = Some c).
Proof.
  intros Hb. pose proof (built_length e Hb) as Hlen. unfold get, printResults.
  split; [exact Hlen|].
  destruct (resultsTable_spec (counts e) (S maxDepth) 0%nat) as [Hin Hout].
  split; [split|].
  - intros Hnone. destruct (Nat.lt_ge_cases maxDepth 50) as [Hlt|Hge];
      [|exact Hge].
    destruct Hin as (rows & Hrows & _); [lia|congruence].
  - intros Hge. apply Hout; lia.
  - intros Hlt. apply Hin. lia.
Qed.

End Enumerator.

(** Nodes that are their own genus. *)
Lemma accumulateAll_counts_witness :
  exists e,
    accumulateAll nat id [0; 1; 1; 2]%nat CountDepths_new = Some e
    /\ length (get e) = 50%nat
    /\ forall g, (g < 50)%nat ->
         get e !! g = Some (u64 (Z.of_nat (ofGenus nat id g [0; 1; 1; 2]%nat))).
Proof.
  apply (proj1 (accumulateAll_counts nat id [0; 1; 1; 2]%nat)).
  repeat constructor.
Defined.

Example accumulate_genus_50 :
  accumulate nat id 50%nat CountDepths_new = None
  /\ option_map (fun e => take 4 (get e))
       (accumulateAll nat id [0; 1; 1; 2]%nat CountDepths_new)
     = Some [1; 2; 1; 0].
Proof. split; reflexivity. Qed.

Lemma combine_pointwise_witness :
  combine [1; 2] (mkCountDepths [5; 6; 7]) = None.
Proof.
  apply (proj2 (combine_pointwise [1; 2] (mkCountDepths [5; 6; 7]))).
  cbn. lia.
Defined.

(** Two tasks that saw the nodes of genus [3; 7; 3] and [3; 1]. *)
Lemma combine_accumulateAll_witness :
  combine
    (get (mkCountDepths (<[1%nat := 1]> (<[3%nat := 1]> (replicate 50 0)))))
    (mkCountDepths (<[7%nat := 1]> (<[3%nat := 2]> (replicate 50 0))))
  = accumulateAll nat id ([3; 7; 3]%nat ++ [3; 1]%nat) CountDepths_new.
Proof.
  refine (proj1 (combine_accumulateAll nat id [3; 7; 3]%nat [3; 1]%nat
                   (mkCountDepths
                      (<[7%nat := 1]> (<[3%nat := 2]> (replicate 50 0))))
                   (mkCountDepths
                      (<[1%nat := 1]> (<[3%nat := 1]> (replicate 50 0))))
                   _ _)); vm_compute; reflexivity.
Defined.

Lemma printResults_bounds_witness :
  printResults 50 (get CountDepths_new) = None <-> (50 <= 50)%nat.
Proof.
  apply (proj1 (proj2 (printResults_bounds nat id 50 CountDepths_new
                         (built_new nat id)))).
Defined.

End Semigroups.
